(** * VitalRoute: ambulance routing and signal pre-emption

    A shallow embedding of [ambulance_signal_control.py].

    Conventions of the embedding.
    - Python [float] and [int] quantities that take part in the pheromone
      arithmetic are exact rationals ([Q]); rounding is not modelled.
      Equalities between computed rationals are stated with [==].
    - Counts of vehicles are natural numbers; other Python integers are
      in [Z].
    - A [dict] is a [gmap], a [set] is a [gset]; iterating over a set visits
      its [elements]. A Python exception that is not caught locally is the
      [None] of an [option] result.
    - The TraCI connection is a record of query functions (a snapshot of
      the simulator at the current step); commands sent to the simulator
      return an updated snapshot. A query raises a TraCIException only
      where the program catches one; those queries return an [option].
    - Console output is not modelled. *)

From Stdlib Require Import Ascii QArith Lqa Qfield.
From stdpp Require Import gmap strings list fin_maps sorting.

(** ** Python string operations used by the program *)

(** [s.split(sep)[0]]: the part of [s] before the first separator. *)
Fixpoint split_head (sep : ascii) (s : string) : string :=
  match s with
  | EmptyString => EmptyString
  | String c r => if Ascii.eqb c sep then EmptyString else String c (split_head sep r)
  end.

(** [s.startswith(p)] *)
Definition startswith (s p : string) : bool := String.prefix p s.

(** [s.endswith(p)] *)
Definition endswith (s p : string) : bool :=
  let ls := String.length s in
  let lp := String.length p in
  (lp <=? ls) && String.eqb (String.substring (ls - lp) lp s) p.

(** [s[:-2]] *)
Definition drop_last2 (s : string) : string :=
  String.substring 0 (String.length s - 2) s.

(** Truth value of a string or [None] in a condition. *)
Definition truthy (o : option string) : bool :=
  match o with
  | Some s => negb (String.eqb s "")
  | None => false
  end.

(** ** Configuration *)

Definition AMBULANCE_IDS : list string := ["ambulance_1"; "ambulance_2"].
Definition JUNCTIONS : list string := ["J1"; "J2"; "J3"; "J4"; "J5"; "J6"].

Definition AMBULANCE_PRIORITIES : gmap string string :=
  <["ambulance_1" := "CODE_RED"]> (<["ambulance_2" := "CODE_BLACK"]> ∅).

Definition PHEROMONE_DECAY : Q := 95 # 100.
Definition PHEROMONE_DEPOSIT : Q := 1.

(** ** Junctions and pheromone *)

#[global] Instance Q_inhabited : Inhabited Q := populate 0%Q.

Record Junction := mkJunction {
  id : string;
  pheromone : gmap string Q;  (* pheromone values to neighbouring junctions *)
  traffic_level : nat         (* number of vehicles around the junction *)
}.

#[global] Instance Junction_inhabited : Inhabited Junction :=
  populate (mkJunction "" ∅ 0).

Definition new_Junction (i : string) : Junction := mkJunction i ∅ 0.

Definition set_pheromone (self : Junction) (ph : gmap string Q) : Junction :=
  mkJunction (id self) ph (traffic_level self).

Definition set_traffic_level (self : Junction) (n : nat) : Junction :=
  mkJunction (id self) (pheromone self) n.

(** [Junction.update_pheromone] (the program defines this method and calls
    it nowhere). *)
Definition update_pheromone (self : Junction) (next_junction : string) (value : Q)
  : Junction :=
  let ph :=
    if decide (next_junction ∈ dom (pheromone self)) then pheromone self
    else <[next_junction := 0%Q]> (pheromone self) in
  set_pheromone self
    (<[next_junction := ((ph !!! next_junction) * PHEROMONE_DECAY + value)%Q]> ph).

(** [calculate_route_score]; returns the score and the junction table, whose
    pheromone entry for the pair is written when it was absent.
    [None] is a [KeyError] on the junction table. *)
Definition calculate_route_score (from_junction to_junction : string)
    (junctions : gmap string Junction) : option (Q * gmap string Junction) :=
  jf ← junctions !! from_junction;
  let junctions1 :=
    if decide (to_junction ∈ dom (pheromone jf)) then junctions
    else <[from_junction := set_pheromone jf (<[to_junction := 1%Q]> (pheromone jf))]>
           junctions in
  jf1 ← junctions1 !! from_junction;
  ph ← pheromone jf1 !! to_junction;
  jt ← junctions1 !! to_junction;
  let traffic := (traffic_level jt + 1)%nat in
  Some ((ph ^ 2 / inject_Z (Z.of_nat traffic))%Q, junctions1).

(** ** The simulator interface (TraCI) *)

(** A controlled link: (incoming lane, outgoing lane, internal lane). *)
Definition Link : Type := string * string * string.

Record Traci := mkTraci {
  (* traci.trafficlight *)
  getControlledLinks : string → list (list Link);
  getRedYellowGreenState : string → string;
  getProgram : string → string;
  (* traci.edge; [None] is a TraCIException *)
  getLastStepVehicleNumber : string → option nat;
  (* traci.vehicle *)
  getIDList : list string;
  getRoadID : string → string;
  getRoute : string → list string;
  getRouteIndex : string → Z;
  (* upcoming traffic lights (id, link index, distance, state);
     [None] is a TraCIException *)
  getNextTLS : string → option (list (string * nat * Q * string));
  (* traci.simulation *)
  getTime : Q
}.

Definition setRedYellowGreenState (w : Traci) (tls state : string) : Traci :=
  mkTraci (getControlledLinks w)
          (λ j, if decide (j = tls) then state else getRedYellowGreenState w j)
          (getProgram w) (getLastStepVehicleNumber w) (getIDList w) (getRoadID w)
          (getRoute w) (getRouteIndex w) (getNextTLS w) (getTime w).

Definition setProgram (w : Traci) (tls program : string) : Traci :=
  mkTraci (getControlledLinks w) (getRedYellowGreenState w)
          (λ j, if decide (j = tls) then program else getProgram w j)
          (getLastStepVehicleNumber w) (getIDList w) (getRoadID w)
          (getRoute w) (getRouteIndex w) (getNextTLS w) (getTime w).

(** [Junction.update_traffic_level] *)
Definition update_traffic_level (w : Traci) (self : Junction) : Junction :=
  let incoming_edges := getControlledLinks w (id self) in
  let vehicle_count :=
    foldl (λ (count : nat) (links : list Link),
             match links with
             | [] => count
             | (from_lane, _, _) :: _ =>
                 let edge_id := split_head "_" from_lane in
                 match getLastStepVehicleNumber w edge_id with
                 | Some n => count + n
                 | None =>
                     match getLastStepVehicleNumber w (edge_id +:+ "_0") with
                     | Some n => count + n
                     | None => count
                     end
                 end
             end) 0 incoming_edges in
  set_traffic_level self vehicle_count.

(** [get_next_junctions]; the result lists the elements of a set. *)
Definition get_next_junctions (w : Traci) (current_junction : string) : list string :=
  let controlled_links := getControlledLinks w current_junction in
  let next_junctions : gset string :=
    foldl (λ (acc : gset string) (links : list Link),
             match links with
             | [] => acc
             | (_, to_edge, _) :: _ =>
                 foldl (λ (acc : gset string) (junction : string),
                          if bool_decide (junction ≠ current_junction)
                             && endswith to_edge junction
                          then acc ∪ {[junction]} else acc)
                       acc JUNCTIONS
             end) ∅ controlled_links in
  elements next_junctions.

(** ** The random source *)

(** The generator is the sequence of values that successive calls of
    [random.random()] return, with the number of values consumed so far. *)
Record Rng := mkRng { draws : nat → Q; pos : nat }.

Definition random_random (r : Rng) : Q * Rng :=
  (draws r (pos r), mkRng (draws r) (S (pos r))).

(** [itertools.accumulate] *)
Fixpoint accumulate_from (acc : Q) (l : list Q) : list Q :=
  match l with
  | [] => []
  | x :: l' => (acc + x)%Q :: accumulate_from (acc + x)%Q l'
  end.

Definition accumulate (l : list Q) : list Q :=
  match l with
  | [] => []
  | x :: l' => x :: accumulate_from x l'
  end.

(** [bisect.bisect_right(a, x, lo, hi)]; each iteration of its loop shrinks
    [hi - lo], which bounds the number of iterations. *)
Fixpoint bisect_loop (n : nat) (a : list Q) (x : Q) (lo hi : nat) : nat :=
  match n with
  | O => lo
  | S n' =>
      if lo <? hi then
        let mid := (lo + hi) `div` 2 in
        if Qlt_le_dec x (a !!! mid) then bisect_loop n' a x lo mid
        else bisect_loop n' a x (mid + 1) hi
      else lo
  end.

Definition bisect (a : list Q) (x : Q) (lo hi : nat) : nat :=
  bisect_loop (hi - lo) a x lo hi.

(** [random.choices(population, weights)[0]]; [None] is a ValueError or
    IndexError of the library function. *)
Definition choices (population : list string) (weights : list Q) (r : Rng)
  : option (string * Rng) :=
  let n := length population in
  let cum_weights := accumulate weights in
  if negb (length cum_weights =? n) then None
  else
    total ← last cum_weights;
    if Qle_bool total 0 then None
    else
      let '(u, r') := random_random r in
      let hi := n - 1 in
      x ← population !! bisect cum_weights (u * total)%Q 0 hi;
      Some (x, r').

(** ** Route optimizer *)

(** Python's [sum]: a left fold starting from 0. *)
Definition sum (l : list Q) : Q := foldl Qplus 0%Q l.

(** The list comprehension of [find_best_route] that scores every candidate;
    the junction table is threaded through the calls. *)
Fixpoint route_scores (current : string) (next_possible : list string)
    (junctions : gmap string Junction) : option (list Q * gmap string Junction) :=
  match next_possible with
  | [] => Some ([], junctions)
  | next_j :: rest =>
      '(s, junctions1) ← calculate_route_score current next_j junctions;
      '(ss, junctions2) ← route_scores current rest junctions1;
      Some (s :: ss, junctions2)
  end.

(** The selection weights computed from the scores. *)
Definition route_probabilities (scores : list Q) : list Q :=
  let total_score := sum scores in
  if Qeq_bool total_score 0 then
    replicate (length scores) (1 / inject_Z (Z.of_nat (length scores)))%Q
  else
    (λ s, s / total_score)%Q <$> scores.

Record RouteState := mkRouteState {
  rs_route : list string;
  rs_junctions : gmap string Junction;
  rs_rng : Rng
}.

(** The [while len(route) < len(JUNCTIONS)] loop. Every iteration that does
    not leave the loop appends one junction to [route], so the loop is
    unfolded on [k = len(JUNCTIONS) - len(route)]. *)
Fixpoint route_loop (w : Traci) (k : nat) (route : list string) (current : string)
    (visited : gset string) (junctions : gmap string Junction) (rng : Rng)
  : option RouteState :=
  match k with
  | O => Some (mkRouteState route junctions rng)
  | S k' =>
      let next_possible := get_next_junctions w current in
      let next_possible := filter (λ j, j ∉ visited) next_possible in
      match next_possible with
      | [] => Some (mkRouteState route junctions rng)
      | _ :: _ =>
          '(scores, junctions1) ← route_scores current next_possible junctions;
          let probabilities := route_probabilities scores in
          '(next_junction, rng1) ← choices next_possible probabilities rng;
          route_loop w k' (route ++ [next_junction]) next_junction
                     (visited ∪ {[next_junction]}) junctions1 rng1
      end
  end.

(** [find_best_route] *)
Definition find_best_route (w : Traci) (current_junction : string)
    (junctions : gmap string Junction) (rng : Rng) : option RouteState :=
  if decide (current_junction ∈ JUNCTIONS) then
    let route := [current_junction] in
    route_loop w (length JUNCTIONS - length route) route current_junction
               {[current_junction]} junctions rng
  else Some (mkRouteState [] junctions rng).

(** ** Signal arbiter *)

(** [l[i]] for a Python integer index; [None] is an IndexError. *)
Definition py_index {A} (l : list A) (i : Z) : option A :=
  if (0 <=? i)%Z then l !! Z.to_nat i
  else if (0 <=? Z.of_nat (length l) + i)%Z
       then l !! Z.to_nat (Z.of_nat (length l) + i)
       else None.

(** [l.index(x)], for [x in l]. *)
Fixpoint index_of (x : string) (l : list string) : option nat :=
  match l with
  | [] => None
  | y :: l' => if decide (y = x) then Some 0 else S <$> index_of x l'
  end.

(** [l[i] = x]; [None] is an IndexError. *)
Definition list_assign {A} (l : list A) (i : nat) (x : A) : option (list A) :=
  if i <? length l then Some (<[i := x]> l) else None.

(** [get_ambulance_route_info]: the pair (current_edge, next_edge), each
    possibly Python's [None]; the outer [None] is an IndexError. *)
Definition get_ambulance_route_info (w : Traci) (ambulance_id : string)
  : option (option string * option string) :=
  if decide (ambulance_id ∈ getIDList w) then
    let current_edge := getRoadID w ambulance_id in
    let current_edge :=
      if endswith current_edge "_0" then drop_last2 current_edge else current_edge in
    let route := getRoute w ambulance_id in
    let route_index := getRouteIndex w ambulance_id in
    next_edge ←
      (if (route_index <? Z.of_nat (length route) - 1)%Z
       then Some <$> py_index route (route_index + 1)
       else Some None);
    let next_edge :=
      if truthy next_edge && endswith (default "" next_edge) "_0"
      then drop_last2 <$> next_edge else next_edge in
    Some (Some current_edge, next_edge)
  else Some (None, None).

(** The sort key of the priority order; [None] is a KeyError. *)
Definition priority_key (x : string) : option nat :=
  code ← AMBULANCE_PRIORITIES !! x;
  Some (if String.eqb code "CODE_BLACK" then 0 else 1).

(** [list.sort(key=...)] is a stable sort on the keys. *)
Fixpoint insert_by_key (kx : nat * string) (l : list (nat * string))
  : list (nat * string) :=
  match l with
  | [] => [kx]
  | ky :: l' => if kx.1 <=? ky.1 then kx :: l else ky :: insert_by_key kx l'
  end.

Fixpoint sort_by_key (l : list (nat * string)) : list (nat * string) :=
  match l with
  | [] => []
  | kx :: l' => insert_by_key kx (sort_by_key l')
  end.

Definition sort_by_priority (l : list string) : option (list string) :=
  keyed ← mapM (λ x, k ← priority_key x; Some (k, x)) l;
  Some ((sort_by_key keyed).*2).

(** The first loop over [AMBULANCE_IDS]: the ambulances that have both a
    current and a next edge. *)
Fixpoint approaching (w : Traci) (ids : list string) : option (list string) :=
  match ids with
  | [] => Some []
  | ambulance_id :: rest =>
      '(current_edge, next_edge) ← get_ambulance_route_info w ambulance_id;
      tl ← approaching w rest;
      Some (if truthy current_edge && truthy next_edge
            then ambulance_id :: tl else tl)
  end.

(** The mutable locals of the arbitration loops. *)
Record Signals := mkSignals {
  current_state : list ascii;
  processed_directions : gset (string * string)
}.

Definition direction_key (l : Link) : string * string :=
  (split_head "_" l.1.1, split_head "_" l.1.2).

(** The test that grants a link to an ambulance with a known next junction. *)
Definition leads_to_route (to_edge_base : string) (next_junction : option string)
    (route : list string) : bool :=
  truthy next_junction
  && (endswith to_edge_base (default "" next_junction)
      || existsb (λ j, startswith to_edge_base j) route).

(** Body of the loop over [enumerate(controlled_links)]. *)
Definition link_step (current_edge : string) (next_junction : option string)
    (route : list string) (i : nat) (links : list Link) (s : Signals)
  : option Signals :=
  match links with
  | [] => Some s
  | l :: _ =>
      let '(from_edge_base, to_edge_base) := direction_key l in
      if String.eqb current_edge from_edge_base
         && bool_decide (direction_key l ∉ processed_directions s) then
        if leads_to_route to_edge_base next_junction route then
          st ← list_assign (current_state s) i "G"%char;
          Some (mkSignals st (processed_directions s ∪ {[direction_key l]}))
        else if negb (truthy next_junction) then
          st ← list_assign (current_state s) i "G"%char;
          Some (mkSignals st (processed_directions s ∪ {[direction_key l]}))
        else Some s
      else Some s
  end.

Fixpoint links_loop (current_edge : string) (next_junction : option string)
    (route : list string) (i : nat) (controlled_links : list (list Link))
    (s : Signals) : option Signals :=
  match controlled_links with
  | [] => Some s
  | links :: rest =>
      s' ← link_step current_edge next_junction route i links s;
      links_loop current_edge next_junction route (S i) rest s'
  end.

(** The junction that follows [green_junction] in [route], if any. *)
Definition route_next_junction (green_junction : string) (route : list string)
  : option string :=
  let current_route_index : Z :=
    if decide (green_junction ∈ route)
    then default (-1)%Z (Z.of_nat <$> index_of green_junction route)
    else (-1)%Z in
  if (0 <=? current_route_index)%Z
     && (current_route_index <? Z.of_nat (length route) - 1)%Z
  then route !! Z.to_nat (current_route_index + 1)
  else None.

(** Body of the loop over the sorted ambulances. *)
Definition ambulance_step (w : Traci) (green_junction : string)
    (routes : gmap string (list string)) (controlled_links : list (list Link))
    (ambulance_id : string) (s : Signals) : option Signals :=
  '(current_edge, next_edge) ← get_ambulance_route_info w ambulance_id;
  if negb (truthy current_edge) || negb (truthy next_edge) then Some s
  else
    let route := default [] (routes !! ambulance_id) in
    let next_junction := route_next_junction green_junction route in
    links_loop (default "" current_edge) next_junction route 0 controlled_links s.

Fixpoint ambulances_loop (w : Traci) (green_junction : string)
    (routes : gmap string (list string)) (controlled_links : list (list Link))
    (ambulances : list string) (s : Signals) : option Signals :=
  match ambulances with
  | [] => Some s
  | ambulance_id :: rest =>
      s' ← ambulance_step w green_junction routes controlled_links ambulance_id s;
      ambulances_loop w green_junction routes controlled_links rest s'
  end.

(** The sorted list of approaching ambulances. *)
Definition approaching_ambulances (w : Traci) : option (list string) :=
  l ← approaching w AMBULANCE_IDS;
  sort_by_priority l.

(** [set_signals_for_ambulance]; the first argument is the global
    [PREEMPTION_ENABLED]. The result is the simulator after the call. *)
Definition set_signals_for_ambulance (PREEMPTION_ENABLED : bool) (w : Traci)
    (green_junction : string) (routes : gmap string (list string))
  : option Traci :=
  if negb PREEMPTION_ENABLED then Some w
  else
    let controlled_links := getControlledLinks w green_junction in
    let state :=
      String.list_ascii_of_string (getRedYellowGreenState w green_junction) in
    let state := replicate (length state) "r"%char in
    ambulances ← approaching_ambulances w;
    s ← ambulances_loop w green_junction routes controlled_links ambulances
          (mkSignals state ∅);
    let new_state := String.string_of_list_ascii (current_state s) in
    Some (setRedYellowGreenState w green_junction new_state).

(** ** Vehicle tracker: the simulation loop *)

(** The globals and the locals of [run_simulation], with the simulator
    connection. *)
Record Tracker := mkTracker {
  AMBULANCE_START_TIMES : gmap string Q;
  AMBULANCE_END_TIMES : gmap string Q;
  last_junctions : gmap string (option string);
  current_routes : gmap string (list string);
  junctions : gmap string Junction;
  active_ambulances : gset string;
  ambulance_active : bool;
  step : nat;
  rng : Rng;
  conn : Traci
}.

Definition with_start (t : Tracker) v :=
  mkTracker v (AMBULANCE_END_TIMES t) (last_junctions t) (current_routes t)
    (junctions t) (active_ambulances t) (ambulance_active t) (step t) (rng t) (conn t).
Definition with_end (t : Tracker) v :=
  mkTracker (AMBULANCE_START_TIMES t) v (last_junctions t) (current_routes t)
    (junctions t) (active_ambulances t) (ambulance_active t) (step t) (rng t) (conn t).
Definition with_last (t : Tracker) v :=
  mkTracker (AMBULANCE_START_TIMES t) (AMBULANCE_END_TIMES t) v (current_routes t)
    (junctions t) (active_ambulances t) (ambulance_active t) (step t) (rng t) (conn t).
Definition with_routes (t : Tracker) v :=
  mkTracker (AMBULANCE_START_TIMES t) (AMBULANCE_END_TIMES t) (last_junctions t) v
    (junctions t) (active_ambulances t) (ambulance_active t) (step t) (rng t) (conn t).
Definition with_junctions (t : Tracker) v :=
  mkTracker (AMBULANCE_START_TIMES t) (AMBULANCE_END_TIMES t) (last_junctions t)
    (current_routes t) v (active_ambulances t) (ambulance_active t) (step t) (rng t)
    (conn t).
Definition with_active (t : Tracker) v :=
  mkTracker (AMBULANCE_START_TIMES t) (AMBULANCE_END_TIMES t) (last_junctions t)
    (current_routes t) (junctions t) v (ambulance_active t) (step t) (rng t) (conn t).
Definition with_flag (t : Tracker) v :=
  mkTracker (AMBULANCE_START_TIMES t) (AMBULANCE_END_TIMES t) (last_junctions t)
    (current_routes t) (junctions t) (active_ambulances t) v (step t) (rng t) (conn t).
Definition with_step (t : Tracker) v :=
  mkTracker (AMBULANCE_START_TIMES t) (AMBULANCE_END_TIMES t) (last_junctions t)
    (current_routes t) (junctions t) (active_ambulances t) (ambulance_active t) v
    (rng t) (conn t).
Definition with_rng (t : Tracker) v :=
  mkTracker (AMBULANCE_START_TIMES t) (AMBULANCE_END_TIMES t) (last_junctions t)
    (current_routes t) (junctions t) (active_ambulances t) (ambulance_active t)
    (step t) v (conn t).
Definition with_conn (t : Tracker) v :=
  mkTracker (AMBULANCE_START_TIMES t) (AMBULANCE_END_TIMES t) (last_junctions t)
    (current_routes t) (junctions t) (active_ambulances t) (ambulance_active t)
    (step t) (rng t) v.

(** The outcome of a piece of the loop body: it ran to its end, or it raised
    an exception that the [try] around the loop catches; either way with
    the state reached. *)
Inductive Result := Ok (t : Tracker) | Raised (t : Tracker).

Definition and_then (r : Result) (k : Tracker → Result) : Result :=
  match r with
  | Ok t => k t
  | Raised t => Raised t
  end.

Fixpoint for_each (body : string → Tracker → Result) (l : list string) (t : Tracker)
  : Result :=
  match l with
  | [] => Ok t
  | x :: rest => and_then (body x t) (for_each body rest)
  end.

(** "Check for new ambulances": body of the loop. *)
Definition start_ambulance (simulation_time : Q) (ambulance_id : string) (t : Tracker)
  : Result :=
  let t := with_start t (<[ambulance_id := simulation_time]> (AMBULANCE_START_TIMES t)) in
  let t := with_active t (active_ambulances t ∪ {[ambulance_id]}) in
  let t := with_routes t (<[ambulance_id := []]> (current_routes t)) in
  Ok (with_last t (<[ambulance_id := None]> (last_junctions t))).

(** "Process each ambulance": body of the loop. A TraCIException of
    [getNextTLS] is caught and the ambulance is skipped. When
    [find_best_route] or [set_signals_for_ambulance] raises, the run stops
    and the state before the call is kept. *)
Definition process_ambulance (PREEMPTION_ENABLED : bool) (ambulance_id : string)
    (t : Tracker) : Result :=
  match getNextTLS (conn t) ambulance_id with
  | None => Ok t
  | Some tls_list =>
      let last_junction := mjoin (last_junctions t !! ambulance_id) in
      match tls_list with
      | [] => Ok t
      | (current_junction, _, _, _) :: _ =>
          if decide (Some current_junction ≠ last_junction) then
            let routed :=
              if decide (current_junction ∈ JUNCTIONS) then
                rs ← find_best_route (conn t) current_junction (junctions t) (rng t);
                Some (with_rng
                        (with_junctions
                           (with_routes t
                              (<[ambulance_id := rs_route rs]> (current_routes t)))
                           (rs_junctions rs))
                        (rs_rng rs))
              else Some t in
            match routed with
            | None => Raised t
            | Some t1 =>
                match set_signals_for_ambulance PREEMPTION_ENABLED (conn t1)
                        current_junction (current_routes t1) with
                | None => Raised t1
                | Some w =>
                    Ok (with_last (with_conn t1 w)
                          (<[ambulance_id := Some current_junction]> (last_junctions t1)))
                end
            end
          else Ok t
      end
  end.

(** "Check for finished ambulances": body of the loop; the lookup of the
    start time can raise a KeyError. *)
Definition finish_ambulance (simulation_time : Q) (ambulance_id : string) (t : Tracker)
  : Result :=
  let t := with_end t (<[ambulance_id := simulation_time]> (AMBULANCE_END_TIMES t)) in
  match AMBULANCE_START_TIMES t !! ambulance_id with
  | None => Raised t
  | Some start =>
      let travel_time := (simulation_time - start)%Q in
      Ok (with_active t (active_ambulances t ∖ {[ambulance_id]}))
  end.

(** One iteration of the [while] loop, after [traci.simulationStep()] has
    produced the snapshot [w]. *)
Definition tick (PREEMPTION_ENABLED : bool) (w : Traci) (t : Tracker) : Result :=
  let t := with_conn t w in
  let t := with_step t (step t + 1) in
  let simulation_time := getTime (conn t) in
  let t := with_junctions t (update_traffic_level (conn t) <$> junctions t) in
  let current_ambulances : gset string :=
    list_to_set (filter (λ aid, aid ∈ getIDList (conn t)) AMBULANCE_IDS) in
  if decide (current_ambulances ≠ ∅) then
    let t := with_flag t true in
    and_then
      (for_each (start_ambulance simulation_time)
         (elements (current_ambulances ∖ active_ambulances t)) t)
      (λ t,
         and_then
           (for_each (process_ambulance PREEMPTION_ENABLED)
              (elements current_ambulances) t)
           (λ t,
              for_each (finish_ambulance simulation_time)
                (elements (active_ambulances t ∖ current_ambulances)) t))
  else if ambulance_active t then
    let t := with_conn t (foldl (λ c junction, setProgram c junction "0") (conn t) JUNCTIONS) in
    let t := with_flag t false in
    let t := with_last t ∅ in
    Ok (with_routes t ∅)
  else Ok t.

Fixpoint simulation_loop (PREEMPTION_ENABLED : bool) (ticks : list Traci) (t : Tracker)
  : Tracker :=
  match ticks with
  | [] => t
  | w :: rest =>
      match tick PREEMPTION_ENABLED w t with
      | Ok t' => simulation_loop PREEMPTION_ENABLED rest t'
      | Raised t' => t'
      end
  end.

(** [run_simulation]: [w0] is the simulator at [traci.start], [ticks] the
    snapshots that the successive [traci.simulationStep()] calls produce
    while [getMinExpectedNumber() > 0], [g] the state of the global random
    generator. The result is the pair of time tables that is returned. *)
Definition fresh_junctions : gmap string Junction :=
  list_to_map ((λ j_id, (j_id, new_Junction j_id)) <$> JUNCTIONS).

Definition initial_tracker (w0 : Traci) (g : Rng) : Tracker :=
  mkTracker ∅ ∅ ∅ ∅ fresh_junctions ∅ false 0 g w0.

Definition run_simulation (preemption_enabled : bool) (w0 : Traci) (ticks : list Traci)
    (g : Rng) : gmap string Q * gmap string Q :=
  let t := simulation_loop preemption_enabled ticks (initial_tracker w0 g) in
  (AMBULANCE_START_TIMES t, AMBULANCE_END_TIMES t).

(** ** Relations and reference formulas used in the statements *)

(** What scoring may do to a junction: the identity and the traffic level
    stay, stored pheromone values stay, and absent pheromone entries are
    either still absent or hold the default 1. *)
Definition junction_seeded (a b : Junction) : Prop :=
  id b = id a ∧ traffic_level b = traffic_level a
  ∧ (∀ k v, pheromone a !! k = Some v → pheromone b !! k = Some v)
  ∧ (∀ k, pheromone a !! k = None →
          pheromone b !! k = None ∨ pheromone b !! k = Some 1%Q).

Definition seeded (J J' : gmap string Junction) : Prop :=
  ∀ j, option_Forall2 junction_seeded (J !! j) (J' !! j).

(** The score of the step from [current] to [c], read off a junction table. *)
Definition score_of (J : gmap string Junction) (current c : string) : Q :=
  (default 1%Q (pheromone (J !!! current) !! c) ^ 2
   / inject_Z (Z.of_nat (traffic_level (J !!! c) + 1)))%Q.

(** The order of the sort keys. *)
Definition key_le (a b : nat * string) : Prop := a.1 ≤ b.1.

(** The condition under which the loop body grants link [l] to an ambulance
    on [current_edge] (apart from the link's direction being unclaimed). *)
Definition grants (current_edge : string) (next_junction : option string)
    (route : list string) (l : Link) : bool :=
  String.eqb current_edge (direction_key l).1
  && (leads_to_route (direction_key l).2 next_junction route
      || negb (truthy next_junction)).

(** What one ambulance may do to the signals: states only change to green,
    at links whose direction was unclaimed and is claimed afterwards, and
    each newly claimed direction has a link that is green. *)
Definition granted_by (current_edge : string) (next_junction : option string)
    (route : list string) (controlled_links : list (list Link))
    (s s' : Signals) : Prop :=
  length (current_state s') = length (current_state s)
  ∧ processed_directions s ⊆ processed_directions s'
  ∧ (∀ i, current_state s' !! i ≠ current_state s !! i →
       current_state s' !! i = Some "G"%char
       ∧ ∃ l rest, controlled_links !! i = Some (l :: rest)
                   ∧ grants current_edge next_junction route l = true
                   ∧ (direction_key l ∉ processed_directions s)
                   ∧ (direction_key l ∈ processed_directions s'))
  ∧ (∀ k, k ∈ processed_directions s' → k ∉ processed_directions s →
       ∃ i l rest, controlled_links !! i = Some (l :: rest)
                   ∧ direction_key l = k
                   ∧ grants current_edge next_junction route l = true
                   ∧ current_state s' !! i = Some "G"%char).

(** The same without reference to the ambulance. *)
Definition respects (controlled_links : list (list Link)) (s s' : Signals) : Prop :=
  length (current_state s') = length (current_state s)
  ∧ processed_directions s ⊆ processed_directions s'
  ∧ (∀ i, current_state s' !! i ≠ current_state s !! i →
       current_state s' !! i = Some "G"%char
       ∧ ∃ l rest, controlled_links !! i = Some (l :: rest)
                   ∧ (direction_key l ∉ processed_directions s)
                   ∧ (direction_key l ∈ processed_directions s')).

(** ** Scenarios *)

(** A network in which junction J1 has one controlled link, towards J2, and
    no other junction has any. No ambulance is present. *)
Definition opt_world : Traci :=
  mkTraci (λ j, if String.eqb j "J1" then [[("inJ1_0", "J1J2", ":J1_0_0")]] else [])
          (λ _, "r") (λ _, "0") (λ _, Some 0) [] (λ _, "") (λ _, []) (λ _, 0%Z)
          (λ _, Some []) 0%Q.

(** The pair (J1, J2) already carries pheromone 2. *)
Definition opt_junctions : gmap string Junction :=
  <["J1" := mkJunction "J1" {["J2" := 2%Q]} 0]> fresh_junctions.

Definition opt_rng : Rng := mkRng (λ _, 0%Q) 0.

(** Junction J1 with neighbours J2 (pheromone 2, congestion 3) and J3
    (pheromone 1, congestion 0). *)
Definition scored_junctions : gmap string Junction :=
  <["J1" := mkJunction "J1" (<["J2" := 2%Q]> {["J3" := 1%Q]}) 0]>
    (<["J2" := mkJunction "J2" ∅ 3]> {["J3" := mkJunction "J3" ∅ 0]}).

(** Junction J2 with four controlled links: three from the approach J1J2
    (towards J1X, J2J3 and Q9) and one from the approach N1J2. The
    ambulances listed in [ids] are on edge J1J2, continue on J2J3, and have
    the traffic light of J2 ahead. *)
Definition arb_links : list (list Link) :=
  [ [("J1J2_0", "J1X_0", ":J2_0_0")];
    [("J1J2_0", "J2J3_0", ":J2_1_0")];
    [("J1J2_0", "Q9_0", ":J2_2_0")];
    [("N1J2_0", "J2J3_0", ":J2_3_0")] ].

Definition arb_world (ids : list string) : Traci :=
  mkTraci (λ j, if String.eqb j "J2" then arb_links else [])
          (λ _, "GGGG") (λ _, "0") (λ _, Some 0) ids
          (λ _, "J1J2") (λ _, ["J1J2"; "J2J3"]) (λ _, 0%Z)
          (λ _, Some [("J2", 0, 10%Q, "r")]) 0%Q.

(** Planned routes: J2 in the middle of the route, and J2 not on the route. *)
Definition routes_through : gmap string (list string) :=
  {["ambulance_1" := ["J1"; "J2"; "J3"]]}.

Definition routes_elsewhere : gmap string (list string) :=
  {["ambulance_1" := ["J4"; "J5"]]}.

Definition routes_contested : gmap string (list string) :=
  <["ambulance_2" := ["J2"; "J3"]]> {["ambulance_1" := ["J4"; "J5"]]}.

(** A simulator step at time [time] in which the ambulances [ids] are
    present and no traffic light is ahead of them. *)
Definition tracker_world (time : Q) (ids : list string) : Traci :=
  mkTraci (λ _, []) (λ _, "") (λ _, "0") (λ _, Some 0) ids
          (λ _, "E1") (λ _, ["E1"; "E2"]) (λ _, 0%Z) (λ _, Some []) time.

(** The steps at times [from], [from + 1], ..., [from + n - 1]. *)
Definition steps (from n : nat) (ids : list string) : list Traci :=
  (λ k, tracker_world (inject_Z (Z.of_nat k)) ids) <$> seq from n.

(** ambulance_1 is present at times 10 to 25 and absent at times 26 and 27;
    no other ambulance appears. *)
Definition ticks_alone : list Traci :=
  steps 10 16 ["ambulance_1"] ++ steps 26 2 [].

(** The same while ambulance_2 is present from time 10 to time 27. *)
Definition ticks_accompanied : list Traci :=
  steps 10 16 ["ambulance_1"; "ambulance_2"] ++ steps 26 2 ["ambulance_2"].

(** ** Further scenarios *)

(** Junction J1 with two controlled links on lanes that carry a lane
    index, as SUMO names them: from edge N1J1 towards edges J1J2 and J1J3. *)
Definition lane_world : Traci :=
  mkTraci (λ j, if String.eqb j "J1"
                then [[("N1J1_0", "J1J2_0", ":J1_0_0")];
                      [("N1J1_0", "J1J3_1", ":J1_1_0")]]
                else [])
          (λ _, "rr") (λ _, "0") (λ _, Some 0) [] (λ _, "") (λ _, []) (λ _, 0%Z)
          (λ _, Some []) 0%Q.

(** Junction J1 with three link groups, one of them empty; the two others
    start on lanes 0 and 1 of edge N1J1, which carries 3 vehicles. *)
Definition counted_world : Traci :=
  mkTraci (λ _, [[("N1J1_0", "J1J2_0", ":a")]; []; [("N1J1_1", "J1J3_0", ":b")]])
          (λ _, "rr") (λ _, "0") (λ e, if String.eqb e "N1J1" then Some 3 else None)
          [] (λ _, "") (λ _, []) (λ _, 0%Z) (λ _, Some []) 0%Q.

(** The edge name with one trailing ["_0"] removed, as
    [get_ambulance_route_info] does for the current and the next edge. *)
Definition strip_lane0 (s : string) : string :=
  if endswith s "_0" then drop_last2 s else s.

(** The ambulance has the emergency code that is sorted first. *)
Definition is_code_black (x : string) : bool :=
  bool_decide (AMBULANCE_PRIORITIES !! x = Some "CODE_BLACK").

(** The ambulance is in the simulation with a current and a next edge. *)
Definition is_approaching (w : Traci) (x : string) : bool :=
  match get_ambulance_route_info w x with
  | Some (current_edge, next_edge) => truthy current_edge && truthy next_edge
  | None => false
  end.

(** ambulance_1 is on edge J1J2, the last edge of its route, before junction
    J2, whose four links are all GREEN. *)
Definition last_edge_world : Traci :=
  mkTraci (λ _, arb_links) (λ _, "GGGG") (λ _, "0") (λ _, Some 0) ["ambulance_1"]
          (λ _, "J1J2") (λ _, ["N1J1"; "J1J2"]) (λ _, 1%Z)
          (λ _, Some [("J2", 0, 10%Q, "G")]) 0%Q.

(** Junction J2 reached on the two lanes of edge J1J2, each continuing on
    the same lane of edge J2J3; ambulance_1 is on J1J2 and goes on to J2J3. *)
Definition two_lane_world : Traci :=
  mkTraci (λ _, [[("J1J2_0", "J2J3_0", ":J2_0_0")]; [("J1J2_1", "J2J3_1", ":J2_0_1")]])
          (λ _, "GG") (λ _, "0") (λ _, Some 0) ["ambulance_1"]
          (λ _, "J1J2") (λ _, ["J1J2"; "J2J3"]) (λ _, 0%Z)
          (λ _, Some [("J2", 0, 10%Q, "G")]) 0%Q.

(** ambulance_1 is on edge main_st, whose name contains an underscore, and
    goes on to edge J2J3; the only link of junction J2 leads from lane 0 of
    main_st to J2J3. *)
Definition underscore_world : Traci :=
  mkTraci (λ _, [[("main_st_0", "J2J3_0", ":J2_0_0")]])
          (λ _, "G") (λ _, "0") (λ _, Some 0) ["ambulance_1"]
          (λ _, "main_st") (λ _, ["main_st"; "J2J3"]) (λ _, 0%Z)
          (λ _, Some [("J2", 0, 10%Q, "G")]) 0%Q.

(** The time tables and the active set fit together: every active ambulance
    and every ambulance with an end time has a start time, and only
    ambulances of AMBULANCE_IDS have a start time. *)
Definition tables_consistent (t : Tracker) : Prop :=
  (∀ x, x ∈ active_ambulances t → is_Some (AMBULANCE_START_TIMES t !! x))
  ∧ (∀ x, is_Some (AMBULANCE_END_TIMES t !! x) →
          is_Some (AMBULANCE_START_TIMES t !! x))
  ∧ (∀ x, is_Some (AMBULANCE_START_TIMES t !! x) → x ∈ AMBULANCE_IDS).

(** A planned route that ends at junction J2. *)
Definition routes_ending : gmap string (list string) :=
  {["ambulance_1" := ["J1"; "J2"]]}.
(** * Properties *)

(** Closes a decidable goal on concrete data by evaluating its decision. *)
Ltac by_decide :=
  match goal with
  | |- ?P => apply (bool_decide_unpack P); vm_compute; exact I
  end.

(** Case analysis on membership [H] in a concrete list; [tac] closes the goal
    for each element. *)
Ltac each_elem H tac :=
  repeat (apply elem_of_cons in H; destruct H as [->|H]; [tac|]);
  by apply elem_of_nil in H.

(** ** Pheromone table *)

Lemma PHEROMONE_DECAY_range : (0 < PHEROMONE_DECAY ∧ PHEROMONE_DECAY < 1)%Q.
Proof. unfold PHEROMONE_DECAY. split; reflexivity. Qed.

Lemma update_pheromone_lookup (self : Junction) (b : string) (x : Q) :
  pheromone (update_pheromone self b x) !! b
  = Some (default 0%Q (pheromone self !! b) * PHEROMONE_DECAY + x)%Q.
Proof.
  unfold update_pheromone. simpl. rewrite lookup_insert_eq.
  case_decide as Hin.
  - apply elem_of_dom in Hin as [v Hv].
    by rewrite (lookup_total_correct _ _ _ Hv), Hv.
  - apply not_elem_of_dom in Hin. rewrite Hin. simpl.
    by rewrite lookup_total_insert_eq.
Qed.

Lemma update_pheromone_lookup_ne (self : Junction) (b c : string) (x : Q) :
  c ≠ b → pheromone (update_pheromone self b x) !! c = pheromone self !! c.
Proof.
  intros Hne. unfold update_pheromone. simpl.
  rewrite lookup_insert_ne by done.
  case_decide; [done|]. by rewrite lookup_insert_ne.
Qed.

(** C3 (as the code has it): after [update_pheromone] on the pair (self, b)
    with deposit [x], the stored pheromone is [old * d + x], where [old] is
    the value stored before or, when the pair has no entry, 0, so that the
    first update of a pair without an entry stores [0 * d + x]; the decay
    factor [d] lies strictly between 0 and 1; and the stored value is
    non-negative whenever [old] and [x] are. *)
Theorem update_pheromone_decay_deposit (self : Junction) (b : string) (x : Q) :
  pheromone (update_pheromone self b x) !! b
  = Some (default 0%Q (pheromone self !! b) * PHEROMONE_DECAY + x)%Q
  ∧ (pheromone self !! b = None →
     pheromone (update_pheromone self b x) !! b = Some (0 * PHEROMONE_DECAY + x)%Q)
  ∧ (0 < PHEROMONE_DECAY ∧ PHEROMONE_DECAY < 1)%Q
  ∧ ((0 <= default 0%Q (pheromone self !! b))%Q → (0 <= x)%Q →
     (0 <= default 0%Q (pheromone self !! b) * PHEROMONE_DECAY + x)%Q).
Proof.
  split_and!.
  - apply update_pheromone_lookup.
  - intros Hn. rewrite update_pheromone_lookup, Hn. done.
  - apply PHEROMONE_DECAY_range.
  - apply PHEROMONE_DECAY_range.
  - intros Ho Hx. unfold PHEROMONE_DECAY. lra.
Qed.

Lemma update_pheromone_decay_deposit_witness :
  pheromone (new_Junction "J1") !! "J2" = None
  ∧ pheromone (update_pheromone (new_Junction "J1") "J2" 1) !! "J2"
    = Some (0 * PHEROMONE_DECAY + 1)%Q
  ∧ (0 <= default 0%Q (pheromone (new_Junction "J1") !! "J2") * PHEROMONE_DECAY + 1)%Q.
Proof.
  destruct (update_pheromone_decay_deposit (new_Junction "J1") "J2" 1)
    as (_ & Hfirst & _ & Hpos).
  split; [reflexivity|]. split.
  - apply Hfirst. reflexivity.
  - apply Hpos; vm_compute; discriminate.
Defined.

(** C3 (as stated) fails: the first update of a pair that has no entry, with
    deposit 1, stores 1 and not [d * 1.0 + 1]. *)
Lemma update_pheromone_unseen_counterexample :
  pheromone (new_Junction "J1") !! "J2" = None
  ∧ ∃ v, pheromone (update_pheromone (new_Junction "J1") "J2" 1) !! "J2" = Some v
         ∧ (v == 1)%Q ∧ ¬ (v == PHEROMONE_DECAY * 1 + 1)%Q.
Proof.
  split; [reflexivity|]. eexists. split; [vm_compute; reflexivity|].
  split; vm_compute; [reflexivity | discriminate].
Qed.

(** ** Scoring *)

Lemma junction_seeded_refl a : junction_seeded a a.
Proof. unfold junction_seeded. naive_solver. Qed.

Lemma junction_seeded_trans a b c :
  junction_seeded a b → junction_seeded b c → junction_seeded a c.
Proof.
  intros (Hi1 & Ht1 & Hs1 & Hn1) (Hi2 & Ht2 & Hs2 & Hn2).
  split_and!; [congruence | congruence | naive_solver |].
  intros k Hk. destruct (Hn1 k Hk) as [H|H]; [by apply Hn2 | right; by apply Hs2].
Qed.

Lemma seeded_refl J : seeded J J.
Proof.
  intros j. destruct (J !! j); constructor. apply junction_seeded_refl.
Qed.

Lemma seeded_trans J1 J2 J3 : seeded J1 J2 → seeded J2 J3 → seeded J1 J3.
Proof.
  intros H1 H2 j. specialize (H1 j). specialize (H2 j).
  destruct H1 as [a b Hab|]; inversion H2; subst; constructor.
  eapply junction_seeded_trans; eauto.
Qed.

Lemma seeded_lookup J J' j a :
  seeded J J' → J !! j = Some a → ∃ b, J' !! j = Some b ∧ junction_seeded a b.
Proof.
  intros H Ha. specialize (H j). rewrite Ha in H. inversion H; subst. eauto.
Qed.

Lemma seeded_is_Some J J' j : seeded J J' → is_Some (J !! j) → is_Some (J' !! j).
Proof. intros H [a Ha]. destruct (seeded_lookup _ _ _ _ H Ha) as (b & -> & _). eauto. Qed.

Lemma junction_seeded_default a b k :
  junction_seeded a b →
  default 1%Q (pheromone b !! k) = default 1%Q (pheromone a !! k).
Proof.
  intros (_ & _ & Hs & Hn). destruct (pheromone a !! k) as [v|] eqn:E.
  - by rewrite (Hs _ _ E).
  - destruct (Hn _ E) as [-> | ->]; done.
Qed.

Lemma score_of_seeded J J' current c :
  seeded J J' → score_of J' current c = score_of J current c.
Proof.
  intros H. unfold score_of. rewrite !lookup_total_alt.
  pose proof (H current) as Hc. pose proof (H c) as Hd.
  destruct Hc as [a b Hab|]; destruct Hd as [a' b' Hab'|]; simpl;
    rewrite ?(junction_seeded_default _ _ _ Hab); try done.
  - destruct Hab' as (_ & -> & _). done.
  - destruct Hab' as (_ & -> & _). done.
Qed.

Lemma calculate_route_score_spec from_junction to_junction J jf jt :
  J !! from_junction = Some jf → J !! to_junction = Some jt →
  calculate_route_score from_junction to_junction J
  = Some (score_of J from_junction to_junction,
          if decide (to_junction ∈ dom (pheromone jf)) then J
          else <[from_junction :=
                   set_pheromone jf (<[to_junction := 1%Q]> (pheromone jf))]> J).
Proof.
  intros Hf Ht. unfold calculate_route_score, score_of.
  rewrite !lookup_total_alt, Hf, Ht. simpl. case_decide as Hin.
  - rewrite Hf. simpl. apply elem_of_dom in Hin as [v Hv]. rewrite Hv. simpl.
    by rewrite Ht.
  - apply not_elem_of_dom in Hin. rewrite lookup_insert_eq. simpl.
    rewrite lookup_insert_eq, Hin. simpl.
    destruct (decide (from_junction = to_junction)) as [<-|Hne].
    + rewrite lookup_insert_eq. simpl. by simplify_eq.
    + rewrite lookup_insert_ne by done. by rewrite Ht.
Qed.

Lemma calculate_route_score_inv from_junction to_junction J s J' :
  calculate_route_score from_junction to_junction J = Some (s, J') →
  ∃ jf jt, J !! from_junction = Some jf ∧ J !! to_junction = Some jt.
Proof.
  unfold calculate_route_score. intros H.
  destruct (J !! from_junction) as [jf|] eqn:Hf; [|done]. simpl in H.
  exists jf. case_decide as Hin.
  - rewrite Hf in H. simpl in H.
    destruct (pheromone jf !! to_junction); [|done]. simpl in H.
    destruct (J !! to_junction) as [jt|]; [|done]. eauto.
  - rewrite lookup_insert_eq in H. simpl in H.
    rewrite lookup_insert_eq in H. simpl in H.
    destruct (decide (from_junction = to_junction)) as [<-|Hne]; [eauto|].
    rewrite lookup_insert_ne in H by done.
    destruct (J !! to_junction) as [jt|]; [|done]. eauto.
Qed.

Lemma seeded_insert_default J from_junction to_junction jf :
  J !! from_junction = Some jf → pheromone jf !! to_junction = None →
  seeded J (<[from_junction :=
               set_pheromone jf (<[to_junction := 1%Q]> (pheromone jf))]> J).
Proof.
  intros Hf Hn j. destruct (decide (from_junction = j)) as [<-|Hne].
  - rewrite lookup_insert_eq, Hf. constructor. split_and!; try done.
    + intros k v Hk. simpl. rewrite lookup_insert_ne; [done|congruence].
    + intros k Hk. simpl. destruct (decide (to_junction = k)) as [<-|];
        [right; by rewrite lookup_insert_eq | left; by rewrite lookup_insert_ne].
  - rewrite lookup_insert_ne by done. destruct (J !! j); constructor.
    apply junction_seeded_refl.
Qed.

Lemma calculate_route_score_effect from_junction to_junction J s J' :
  calculate_route_score from_junction to_junction J = Some (s, J') →
  s = score_of J from_junction to_junction ∧ seeded J J'
  ∧ ∃ jf', J' !! from_junction = Some jf' ∧ is_Some (pheromone jf' !! to_junction).
Proof.
  intros H. destruct (calculate_route_score_inv _ _ _ _ _ H) as (jf & jt & Hf & Ht).
  rewrite (calculate_route_score_spec _ _ _ _ _ Hf Ht) in H.
  injection H as <- <-. split; [done|]. case_decide as Hin.
  - split; [apply seeded_refl|]. exists jf. split; [done|]. by apply elem_of_dom.
  - apply not_elem_of_dom in Hin. split; [by apply seeded_insert_default|].
    eexists. rewrite lookup_insert_eq. split; [done|]. simpl.
    rewrite lookup_insert_eq. eauto.
Qed.

Lemma route_scores_effect current cands J ss J' :
  route_scores current cands J = Some (ss, J') →
  ss = score_of J current <$> cands ∧ seeded J J'
  ∧ ∀ c, c ∈ cands →
         ∃ jc', J' !! current = Some jc' ∧ is_Some (pheromone jc' !! c).
Proof.
  revert J ss J'. induction cands as [|c cands IH]; intros J ss J' H; simpl in H.
  - injection H as <- <-. split_and!; [done | apply seeded_refl |].
    intros c Hc. by apply elem_of_nil in Hc.
  - destruct (calculate_route_score current c J) as [[s J1]|] eqn:E1; [|done].
    simpl in H.
    destruct (route_scores current cands J1) as [[ss' J2]|] eqn:E2; [|done].
    simpl in H. injection H as <- <-.
    destruct (calculate_route_score_effect _ _ _ _ _ E1) as (-> & Hs1 & jf1 & Hf1 & Hp1).
    destruct (IH _ _ _ E2) as (-> & Hs2 & Hall).
    split_and!.
    + simpl. f_equal. apply list_fmap_ext. intros _ x _.
      by apply score_of_seeded.
    + by eapply seeded_trans.
    + intros x Hx. apply elem_of_cons in Hx as [->|Hx]; [|by apply Hall].
      destruct (seeded_lookup _ _ _ _ Hs2 Hf1) as (b & Hb & (_ & _ & Hkeep & _)).
      exists b. split; [done|]. destruct Hp1 as [v Hv]. rewrite (Hkeep _ _ Hv). eauto.
Qed.

Lemma route_scores_is_Some current cands J :
  is_Some (J !! current) → (∀ c, c ∈ cands → is_Some (J !! c)) →
  is_Some (route_scores current cands J).
Proof.
  revert J. induction cands as [|c cands IH]; intros J Hc Hall; simpl; [eauto|].
  destruct Hc as [jc Hjc]. destruct (Hall c) as [jt Hjt]; [by left|].
  rewrite (calculate_route_score_spec _ _ _ _ _ Hjc Hjt). simpl.
  set (J1 := if decide _ then _ else _).
  assert (seeded J J1) as Hs.
  { subst J1. case_decide as Hin; [apply seeded_refl|].
    apply seeded_insert_default; [done|]. by apply not_elem_of_dom. }
  destruct (IH J1) as [[ss J2] ->]; [| |simpl; eauto].
  - eapply seeded_is_Some; eauto.
  - intros x Hx. eapply seeded_is_Some; [done|]. apply Hall. by right.
Qed.

(** ** Sums of rationals *)

Lemma foldl_Qplus_acc (a : Q) (l : list Q) : (foldl Qplus a l == a + sum l)%Q.
Proof.
  unfold sum. revert a. induction l as [|x l IH]; intros a; simpl.
  - ring.
  - rewrite (IH (a + x)%Q), (IH (0 + x)%Q). ring.
Qed.

Lemma sum_cons (x : Q) (l : list Q) : (sum (x :: l) == x + sum l)%Q.
Proof. unfold sum at 1. simpl. rewrite foldl_Qplus_acc. ring. Qed.

Lemma sum_nonneg (l : list Q) : Forall (λ s, 0 <= s)%Q l → (0 <= sum l)%Q.
Proof.
  induction 1 as [|x l Hx _ IH]; [done|]. rewrite sum_cons. lra.
Qed.

Lemma sum_fmap_div (t : Q) (l : list Q) :
  ¬ (t == 0)%Q → (sum ((λ s, s / t)%Q <$> l) == sum l / t)%Q.
Proof.
  intros Ht. induction l as [|x l IH]; simpl.
  - unfold sum. simpl. field. done.
  - rewrite !sum_cons, IH. field. done.
Qed.

Lemma sum_replicate (n : nat) (x : Q) :
  (sum (replicate n x) == inject_Z (Z.of_nat n) * x)%Q.
Proof.
  induction n as [|n IH].
  - unfold sum. simpl. ring.
  - cbn [replicate]. rewrite sum_cons, IH, Nat2Z.inj_succ.
    unfold Z.succ. rewrite inject_Z_plus. ring.
Qed.

Lemma route_probabilities_sum (scores : list Q) :
  scores ≠ [] → (sum (route_probabilities scores) == 1)%Q.
Proof.
  intros Hne. unfold route_probabilities.
  destruct (Qeq_bool (sum scores) 0) eqn:E.
  - rewrite sum_replicate. field.
    destruct scores; [done|]. simpl length.
    rewrite Nat2Z.inj_succ. unfold Z.succ. rewrite inject_Z_plus.
    pose proof (Nat2Z.is_nonneg (length scores)) as Hn.
    rewrite Zle_Qle in Hn. change (inject_Z 0) with 0%Q in Hn.
    change (inject_Z 1) with 1%Q. lra.
  - apply Qeq_bool_neq in E. rewrite sum_fmap_div by done. field. done.
Qed.

Lemma score_of_nonneg J current c : (0 <= score_of J current c)%Q.
Proof.
  unfold score_of. set (p := default _ _). set (n := traffic_level _ + 1).
  assert (0 < inject_Z (Z.of_nat n))%Q as Hpos.
  { change 0%Q with (inject_Z 0). rewrite <- Zlt_Qlt. subst n. lia. }
  apply Qle_shift_div_l; [done|]. simpl. nra.
Qed.

(** ** The random draw *)

Lemma accumulate_from_length (a : Q) (l : list Q) :
  length (accumulate_from a l) = length l.
Proof. revert a. induction l as [|x l IH]; intros a; simpl; [done|]. by rewrite IH. Qed.

Lemma accumulate_length (l : list Q) : length (accumulate l) = length l.
Proof. destruct l; simpl; [done|]. by rewrite accumulate_from_length. Qed.

Lemma accumulate_from_last (a : Q) (l : list Q) :
  ∃ t, last (a :: accumulate_from a l) = Some t ∧ (t == a + sum l)%Q.
Proof.
  revert a. induction l as [|x l IH]; intros a.
  - exists a. split; [done|]. unfold sum. simpl. ring.
  - destruct (IH (a + x)%Q) as (t & Ht & Heq). exists t. split.
    + simpl accumulate_from. by rewrite last_cons_cons.
    + rewrite Heq, sum_cons. ring.
Qed.

Lemma accumulate_last (l : list Q) :
  l ≠ [] → ∃ t, last (accumulate l) = Some t ∧ (t == sum l)%Q.
Proof.
  destruct l as [|x l]; [done|]. intros _. simpl.
  destruct (accumulate_from_last x l) as (t & Ht & Heq).
  exists t. split; [done|]. by rewrite Heq, sum_cons.
Qed.

Lemma bisect_loop_range (n : nat) (a : list Q) (x : Q) (lo hi : nat) :
  lo ≤ hi → lo ≤ bisect_loop n a x lo hi ≤ hi.
Proof.
  revert lo hi. induction n as [|n IH]; intros lo hi Hle; cbn [bisect_loop]; [lia|].
  destruct (lo <? hi) eqn:E; [|lia]. apply Nat.ltb_lt in E.
  pose proof (Nat.div_mod_eq (lo + hi) 2) as Hd.
  pose proof (Nat.mod_upper_bound (lo + hi) 2 ltac:(lia)) as Hm.
  destruct (Qlt_le_dec _ _).
  - specialize (IH lo ((lo + hi) `div` 2)). lia.
  - specialize (IH ((lo + hi) `div` 2 + 1) hi). lia.
Qed.

(** The loop of [bisect_loop] ends because [lo < hi] fails, not because the
    iteration bound is reached: a larger bound gives the same result. *)
Lemma bisect_loop_bound (a : list Q) (x : Q) (n : nat) :
  ∀ m lo hi, hi - lo ≤ n → hi - lo ≤ m →
             bisect_loop n a x lo hi = bisect_loop m a x lo hi.
Proof.
  induction n as [|n IH]; intros m lo hi Hn Hm.
  - destruct m; cbn [bisect_loop]; [done|].
    destruct (lo <? hi) eqn:E; [|done]. apply Nat.ltb_lt in E. lia.
  - destruct m; cbn [bisect_loop].
    + destruct (lo <? hi) eqn:E; [|done]. apply Nat.ltb_lt in E. lia.
    + destruct (lo <? hi) eqn:E; [|done]. apply Nat.ltb_lt in E.
      pose proof (Nat.div_mod_eq (lo + hi) 2) as Hd.
      pose proof (Nat.mod_upper_bound (lo + hi) 2 ltac:(lia)) as Hmod.
      destruct (Qlt_le_dec _ _); apply IH; lia.
Qed.

Lemma choices_elem_of population weights r x r' :
  choices population weights r = Some (x, r') → x ∈ population.
Proof.
  unfold choices. destruct (negb _); [done|].
  destruct (last _) as [total|]; [|done]. simpl.
  destruct (Qle_bool total 0); [done|].
  destruct (population !! _) as [y|] eqn:E; [|done]. simpl.
  intros [= <- <-]. by eapply list_elem_of_lookup_2.
Qed.

Lemma choices_is_Some population weights r :
  population ≠ [] → length weights = length population → (0 < sum weights)%Q →
  is_Some (choices population weights r).
Proof.
  intros Hne Hlen Hpos. unfold choices.
  rewrite accumulate_length, Hlen, Nat.eqb_refl. simpl.
  destruct (accumulate_last weights) as (t & -> & Ht).
  { intros ->. destruct population; done. }
  simpl. destruct (Qle_bool t 0) eqn:E.
  { apply Qle_bool_iff in E. rewrite Ht in E. lra. }
  pose proof (bisect_loop_range (length population - 1 - 0)
                (accumulate weights) (draws r (pos r) * t)%Q 0
                (length population - 1) ltac:(lia)) as [_ Hhi].
  unfold bisect.
  destruct (lookup_lt_is_Some_2 population
              (bisect_loop (length population - 1 - 0) (accumulate weights)
                 (draws r (pos r) * t)%Q 0 (length population - 1))) as [y ->].
  { destruct population; [done|]. simpl in *. lia. }
  simpl. eauto.
Qed.

Lemma route_probabilities_length (scores : list Q) :
  length (route_probabilities scores) = length scores.
Proof.
  unfold route_probabilities. destruct (Qeq_bool _ _).
  - apply length_replicate.
  - apply length_fmap.
Qed.

Section RouteConstruction.
Context (w : Traci).

(** ** Neighbours *)

Lemma elem_of_get_next_junctions (current x : string) :
  x ∈ get_next_junctions w current → x ∈ JUNCTIONS ∧ x ≠ current.
Proof.
  unfold get_next_junctions. rewrite elem_of_elements.
  generalize (getControlledLinks w current). intros cl.
  assert (∀ (acc : gset string),
            (∀ y, y ∈ acc → y ∈ JUNCTIONS ∧ y ≠ current) →
            ∀ js : list string, (∀ y, y ∈ js → y ∈ JUNCTIONS) → ∀ (to_edge : string) y,
              y ∈ foldl (λ (acc : gset string) (junction : string),
                           if bool_decide (junction ≠ current) && endswith to_edge junction
                           then acc ∪ {[junction]} else acc) acc js →
              y ∈ JUNCTIONS ∧ y ≠ current) as Hinner.
  { intros acc Hacc js. revert acc Hacc.
    induction js as [|j js IH]; intros acc Hacc Hjs to_edge y; simpl; [by apply Hacc|].
    apply IH; [|intros; apply Hjs; by right].
    intros z. destruct (bool_decide (j ≠ current)) eqn:E; simpl; [|by apply Hacc].
    apply bool_decide_eq_true in E.
    destruct (endswith to_edge j); [|by apply Hacc].
    rewrite elem_of_union, elem_of_singleton. intros [Hz| ->]; [by apply Hacc|].
    split; [apply Hjs; by left|done]. }
  assert (∀ (acc : gset string),
            (∀ y, y ∈ acc → y ∈ JUNCTIONS ∧ y ≠ current) →
            ∀ y, y ∈ foldl (λ (acc : gset string) (links : list Link),
               match links with
               | [] => acc
               | (_, to_edge, _) :: _ =>
                   foldl (λ (acc : gset string) (junction : string),
                            if bool_decide (junction ≠ current)
                               && endswith to_edge junction
                            then acc ∪ {[junction]} else acc)
                         acc JUNCTIONS
               end) acc cl → y ∈ JUNCTIONS ∧ y ≠ current) as Houter.
  { induction cl as [|links cl IH]; intros acc Hacc y; simpl; [by apply Hacc|].
    apply IH. destruct links as [|[[? to_edge] ?] ?]; [done|].
    intros z. apply (Hinner acc Hacc JUNCTIONS). auto. }
  apply Houter. intros y Hy. by apply not_elem_of_empty in Hy.
Qed.

(** ** Route construction *)

Lemma route_loop_spec (k : nat) :
  ∀ route current visited J g rs,
    route_loop w k route current visited J g = Some rs →
    NoDup route → (∀ x, x ∈ route → x ∈ visited) →
    ∃ ext, rs_route rs = route ++ ext ∧ NoDup (rs_route rs) ∧ length ext ≤ k
           ∧ seeded J (rs_junctions rs)
           ∧ (∀ i a b, (current :: ext) !! i = Some a →
                       (current :: ext) !! S i = Some b →
                       ∃ ja, rs_junctions rs !! a = Some ja
                             ∧ is_Some (pheromone ja !! b))
           ∧ (filter (λ j, j ∉ visited) (get_next_junctions w current) = [] →
              ext = []).
Proof.
  induction k as [|k IH]; intros route current visited J g rs Hrun Hnd Hvis.
  - simpl in Hrun. injection Hrun as <-. exists []. simpl.
    rewrite app_nil_r.
    split_and!; [done | done | lia | apply seeded_refl | | done].
    intros i a b _ Hb. by destruct i.
  - cbn [route_loop] in Hrun.
    destruct (filter (λ j, j ∉ visited) (get_next_junctions w current))
      as [|c cands] eqn:Ec.
    { injection Hrun as <-. exists []. simpl.
      rewrite app_nil_r.
      split_and!; [done | done | lia | apply seeded_refl | | done].
      intros i a b _ Hb. by destruct i. }
    destruct (route_scores current (c :: cands) J) as [[scores J1]|] eqn:Es; [|done].
    cbn [mbind option_bind] in Hrun.
    destruct (choices (c :: cands) (route_probabilities scores) g)
      as [[next_junction g1]|] eqn:Ech; [|done].
    cbn [mbind option_bind] in Hrun.
    pose proof (choices_elem_of _ _ _ _ _ Ech) as Hin.
    assert (next_junction ∉ visited) as Hfresh.
    { pose proof Hin as Hin'. rewrite <- Ec in Hin'.
      apply list_elem_of_filter in Hin'. by destruct Hin'. }
    destruct (route_scores_effect _ _ _ _ _ Es) as (_ & Hs1 & Hentries).
    destruct (IH _ _ _ _ _ _ Hrun) as (ext & Hroute & Hnd' & Hlen & Hs2 & Hpairs & _).
    { apply NoDup_app. split_and!; [done| |apply NoDup_singleton].
      intros x Hx Hx'. apply list_elem_of_singleton in Hx'. subst x.
      by apply Hfresh, Hvis. }
    { intros x Hx. apply elem_of_union. apply elem_of_app in Hx.
      destruct Hx as [Hx|Hx]; [left; by apply Hvis|].
      apply list_elem_of_singleton in Hx. subst x. right. by apply elem_of_singleton. }
    exists (next_junction :: ext). split_and!.
    + by rewrite Hroute, <- app_assoc.
    + done.
    + simpl. lia.
    + by eapply seeded_trans.
    + intros [|i] a b Ha Hb.
      * simpl in Ha, Hb. injection Ha as <-. injection Hb as <-.
        destruct (Hentries next_junction Hin) as (jc & Hjc & [v Hv]).
        destruct (seeded_lookup _ _ _ _ Hs2 Hjc) as (ja & Hja & (_ & _ & Hkeep & _)).
        exists ja. split; [done|]. rewrite (Hkeep _ _ Hv). eauto.
      * by apply (Hpairs i).
    + done.
Qed.

Lemma route_loop_is_Some (k : nat) :
  ∀ route current visited J g,
    (∀ j, j ∈ JUNCTIONS → is_Some (J !! j)) → current ∈ JUNCTIONS →
    is_Some (route_loop w k route current visited J g).
Proof.
  induction k as [|k IH]; intros route current visited J g HJ Hcur; [simpl; eauto|].
  cbn [route_loop].
  destruct (filter (λ j, j ∉ visited) (get_next_junctions w current))
    as [|c cands] eqn:Ec; [eauto|].
  assert (∀ x, x ∈ c :: cands → x ∈ JUNCTIONS) as Hcands.
  { intros x Hx. rewrite <- Ec in Hx. apply list_elem_of_filter in Hx.
    destruct Hx as [_ Hx]. apply elem_of_get_next_junctions in Hx. by destruct Hx. }
  destruct (route_scores_is_Some current (c :: cands) J) as [[scores J1] Es];
    [by apply HJ | by intros x Hx; apply HJ, Hcands|].
  rewrite Es. cbn [mbind option_bind].
  destruct (route_scores_effect _ _ _ _ _ Es) as (Hsc & Hs1 & _).
  assert (length scores = length (c :: cands)) as Hlen.
  { rewrite Hsc. apply length_fmap. }
  destruct (choices_is_Some (c :: cands) (route_probabilities scores) g)
    as [[next_junction g1] Ech].
  { done. }
  { by rewrite route_probabilities_length. }
  { rewrite route_probabilities_sum; [reflexivity|]. by destruct scores. }
  rewrite Ech. cbn [mbind option_bind]. apply IH.
  - intros j Hj. eapply seeded_is_Some; eauto.
  - apply Hcands. by eapply choices_elem_of.
Qed.

(** C10: scoring a pair that has no pheromone entry writes the default 1
    into the table of [from_junction] before reading it: the call returns a
    changed junction table in which the entry is 1, the score is computed
    from that 1, and a later [update_pheromone] on the pair decays from 1
    and not from an absent entry. *)
Theorem calculate_route_score_writes_default
    (from_junction to_junction : string) (J : gmap string Junction)
    (jf jt : Junction) :
  J !! from_junction = Some jf → J !! to_junction = Some jt →
  pheromone jf !! to_junction = None →
  ∃ J' jf',
    calculate_route_score from_junction to_junction J
    = Some ((1 ^ 2 / inject_Z (Z.of_nat (traffic_level jt + 1)))%Q, J')
    ∧ J' ≠ J
    ∧ J' !! from_junction = Some jf'
    ∧ pheromone jf' !! to_junction = Some 1%Q
    ∧ (∀ k, k ≠ to_junction → pheromone jf' !! k = pheromone jf !! k)
    ∧ (∀ x, pheromone (update_pheromone jf' to_junction x) !! to_junction
            = Some (1 * PHEROMONE_DECAY + x)%Q)
    ∧ ∀ next_possible scores J2,
        to_junction ∈ next_possible →
        route_scores from_junction next_possible J = Some (scores, J2) →
        ∃ jf2, J2 !! from_junction = Some jf2
               ∧ pheromone jf2 !! to_junction = Some 1%Q.
Proof.
  intros Hf Ht Hn.
  exists (<[from_junction := set_pheromone jf (<[to_junction := 1%Q]> (pheromone jf))]> J),
         (set_pheromone jf (<[to_junction := 1%Q]> (pheromone jf))).
  split_and!.
  - rewrite (calculate_route_score_spec _ _ _ _ _ Hf Ht).
    rewrite decide_False by (by apply not_elem_of_dom).
    unfold score_of. rewrite !lookup_total_alt, Hf, Ht. simpl. by rewrite Hn.
  - intros Heq. apply (f_equal (λ m, m !! from_junction)) in Heq.
    rewrite lookup_insert_eq, Hf in Heq. injection Heq as Heq.
    apply (f_equal (λ j, pheromone j !! to_junction)) in Heq.
    simpl in Heq. rewrite lookup_insert_eq, Hn in Heq. done.
  - apply lookup_insert_eq.
  - simpl. apply lookup_insert_eq.
  - intros k Hk. simpl. by rewrite lookup_insert_ne.
  - intros x. rewrite update_pheromone_lookup. simpl.
    by rewrite lookup_insert_eq.
  - intros next_possible scores J2 Hin Hrun.
    destruct (route_scores_effect _ _ _ _ _ Hrun) as (_ & Hseed & Hentries).
    destruct (Hentries _ Hin) as (jf2 & Hjf2 & [v Hv]).
    exists jf2. split; [done|].
    destruct (seeded_lookup _ _ _ _ Hseed Hf) as (b & Hb & (_ & _ & _ & Hnone)).
    rewrite Hjf2 in Hb. injection Hb as <-.
    destruct (Hnone _ Hn) as [Habs|Hone]; [congruence | done].
Qed.

Lemma calculate_route_score_writes_default_witness :
  ∃ J' jf',
    calculate_route_score "J1" "J2" fresh_junctions
    = Some ((1 ^ 2 / inject_Z (Z.of_nat (0 + 1)))%Q, J')
    ∧ J' ≠ fresh_junctions
    ∧ J' !! "J1" = Some jf'
    ∧ pheromone jf' !! "J2" = Some 1%Q
    ∧ (∀ k, k ≠ "J2" → pheromone jf' !! k = pheromone (new_Junction "J1") !! k)
    ∧ ∀ x, pheromone (update_pheromone jf' "J2" x) !! "J2"
           = Some (1 * PHEROMONE_DECAY + x)%Q.
Proof.
  destruct (calculate_route_score_writes_default "J1" "J2" fresh_junctions
              (new_Junction "J1") (new_Junction "J2"))
    as (J' & jf' & Hscore & Hchanged & Hlookup & Hone & Hothers & Hupdate & _);
    [reflexivity | reflexivity | reflexivity |].
  exists J', jf'. split_and!; assumption.
Defined.



(** The scenario of two neighbours with pheromone 2 and congestion 3, and
    pheromone 1 and congestion 0: both score 1 and both weigh one half. *)
Example two_neighbours_scenario :
  ∃ scores J',
    route_scores "J1" ["J2"; "J3"] scored_junctions = Some (scores, J')
    ∧ Forall2 Qeq scores [1; 1]%Q
    ∧ Forall2 Qeq (route_probabilities scores) [1 # 2; 1 # 2]%Q.
Proof.
  eexists _, _. split; [vm_compute; reflexivity|].
  split; repeat constructor.
Qed.

Lemma find_best_route_spec (start : string) (J : gmap string Junction)
    (g : Rng) (rs : RouteState) :
  find_best_route w start J g = Some rs →
  (rs = mkRouteState [] J g ∧ start ∉ JUNCTIONS)
  ∨ ((start ∈ JUNCTIONS)
     ∧ (∃ ext, rs_route rs = start :: ext ∧ NoDup (rs_route rs)
               ∧ length ext ≤ length JUNCTIONS - 1
               ∧ seeded J (rs_junctions rs)
               ∧ (∀ i a b, rs_route rs !! i = Some a → rs_route rs !! S i = Some b →
                           ∃ ja, rs_junctions rs !! a = Some ja
                                 ∧ is_Some (pheromone ja !! b))
               ∧ (filter (λ j, j ∉ ({[start]} : gset string))
                         (get_next_junctions w start) = [] → ext = []))).
Proof.
  unfold find_best_route. case_decide as Hin.
  - intros Hrun. right. split; [done|].
    destruct (route_loop_spec _ _ _ _ _ _ _ Hrun)
      as (ext & Hroute & Hnd & Hlen & Hseed & Hpairs & Hstop).
    + apply NoDup_singleton.
    + intros x Hx. apply list_elem_of_singleton in Hx. subst x.
      by apply elem_of_singleton.
    + exists ext. split_and!; try done. by rewrite Hroute.
  - intros [= <-]. by left.
Qed.

End RouteConstruction.

(** C5: a route returned by [find_best_route] has pairwise distinct
    junctions and at most as many as there are junctions; for a start that
    is a known junction the route begins with the start, and it is just the
    start when the start has no unvisited neighbour. The call returns a
    route whenever the junction table has an entry for every junction. *)
Theorem find_best_route_route (w : Traci) (start : string)
    (J : gmap string Junction) (g : Rng) :
  ((∀ j, j ∈ JUNCTIONS → is_Some (J !! j)) →
   is_Some (find_best_route w start J g))
  ∧ ∀ rs, find_best_route w start J g = Some rs →
      NoDup (rs_route rs)
      ∧ length (rs_route rs) ≤ length JUNCTIONS
      ∧ (start ∈ JUNCTIONS → head (rs_route rs) = Some start)
      ∧ (start ∈ JUNCTIONS →
         filter (λ j, j ∉ ({[start]} : gset string)) (get_next_junctions w start) = [] →
         rs_route rs = [start]).
Proof.
  split.
  - intros HJ. unfold find_best_route. case_decide; [|eauto].
    by apply route_loop_is_Some.
  - intros rs Hrun.
    destruct (find_best_route_spec _ _ _ _ _ Hrun)
      as [[-> Hnot] | (Hin & ext & Hroute & Hnd & Hlen & _ & _ & Hstop)].
    + simpl. split_and!; [apply NoDup_nil_2 | lia | done | done].
    + split_and!; [done | | |].
      * rewrite Hroute. simpl. simpl in Hlen. lia.
      * by rewrite Hroute.
      * intros _ Hnone. by rewrite Hroute, (Hstop Hnone).
Qed.

Lemma find_best_route_route_witness :
  ∃ rs, find_best_route opt_world "J2" fresh_junctions opt_rng = Some rs
        ∧ NoDup (rs_route rs) ∧ head (rs_route rs) = Some "J2"
        ∧ rs_route rs = ["J2"].
Proof.
  destruct (find_best_route_route opt_world "J2" fresh_junctions opt_rng)
    as [Hsome Hprops].
  destruct Hsome as [rs Hrs].
  { intros j Hj. each_elem Hj ltac:(eexists; vm_compute; reflexivity). }
  exists rs. split; [exact Hrs|].
  destruct (Hprops rs Hrs) as (Hnd & _ & Hhead & Hone).
  assert ("J2" ∈ JUNCTIONS) as Hin by by_decide.
  split_and!; [exact Hnd | by apply Hhead | apply Hone; [exact Hin | reflexivity]].
Defined.

(** C8 (as the code has it): [find_best_route] never calls
    [update_pheromone]. Route construction leaves every stored pheromone
    value as it was; an entry that was absent is still absent or holds the
    default 1 written by scoring. For each consecutive pair (a, b) of the
    produced route the entry of (a, b) afterwards is the value stored before,
    or 1 when there was none. *)
Theorem find_best_route_pheromone (w : Traci) (start : string)
    (J : gmap string Junction) (g : Rng) (rs : RouteState) :
  find_best_route w start J g = Some rs →
  seeded J (rs_junctions rs)
  ∧ ∀ i a b, rs_route rs !! i = Some a → rs_route rs !! S i = Some b →
      ∃ jb ja, J !! a = Some jb ∧ rs_junctions rs !! a = Some ja
               ∧ pheromone ja !! b = Some (default 1%Q (pheromone jb !! b)).
Proof.
  intros Hrun.
  destruct (find_best_route_spec _ _ _ _ _ Hrun)
    as [[-> Hnot] | (Hin & ext & Hroute & Hnd & Hlen & Hseed & Hpairs & _)].
  - simpl. split; [apply seeded_refl|]. intros i a b Ha. done.
  - split; [done|]. intros i a b Ha Hb.
    destruct (Hpairs i a b Ha Hb) as (ja & Hja & [v Hv]).
    pose proof (Hseed a) as Ha'. rewrite Hja in Ha'.
    inversion Ha' as [jb ? Hrel Hjb|]; subst.
    exists jb, ja. split_and!; [done | done |].
    rewrite <- (junction_seeded_default _ _ b Hrel), Hv. done.
Qed.

Lemma find_best_route_pheromone_witness :
  ∃ rs, find_best_route opt_world "J1" opt_junctions opt_rng = Some rs
        ∧ seeded opt_junctions (rs_junctions rs).
Proof.
  eexists. split; [vm_compute; reflexivity|].
  eapply (find_best_route_pheromone opt_world "J1" opt_junctions opt_rng).
  vm_compute. reflexivity.
Defined.

(** C8 (as stated) fails: the route J1, J2 is produced from a table in which
    the pair (J1, J2) holds 2; afterwards it still holds 2, not the result
    [2 * d + deposit] of one decay-and-deposit step. *)
Lemma find_best_route_no_deposit_counterexample :
  ∃ rs ja v,
    find_best_route opt_world "J1" opt_junctions opt_rng = Some rs
    ∧ rs_route rs = ["J1"; "J2"]
    ∧ rs_junctions rs !! "J1" = Some ja
    ∧ pheromone ja !! "J2" = Some v
    ∧ (v == 2)%Q
    ∧ ¬ (v == 2 * PHEROMONE_DECAY + PHEROMONE_DEPOSIT)%Q.
Proof.
  eexists _, _, _. split; [vm_compute; reflexivity|].
  split; [reflexivity|]. split; [vm_compute; reflexivity|].
  split; [vm_compute; reflexivity|].
  split; vm_compute; [reflexivity | discriminate].
Qed.

(** ** Signal arbitration: one ambulance *)

Lemma list_assign_Some {A} (l : list A) (i : nat) (x : A) (l' : list A) :
  list_assign l i x = Some l' → i < length l ∧ l' = <[i := x]> l.
Proof.
  unfold list_assign. destruct (i <? length l) eqn:E; [|done].
  apply Nat.ltb_lt in E. by intros [= <-].
Qed.

Lemma list_assign_is_Some {A} (l : list A) (i : nat) (x : A) :
  i < length l → list_assign l i x = Some (<[i := x]> l).
Proof.
  intros Hlt. unfold list_assign. apply Nat.ltb_lt in Hlt. by rewrite Hlt.
Qed.

Section OneAmbulance.
Context (current_edge : string) (next_junction : option string)
        (route : list string).

Lemma link_step_inv i links s s' :
  link_step current_edge next_junction route i links s = Some s' →
  (s' = s
   ∧ ∀ l rest, links = l :: rest → grants current_edge next_junction route l = true →
               direction_key l ∈ processed_directions s)
  ∨ (∃ l rest, links = l :: rest
               ∧ grants current_edge next_junction route l = true
               ∧ (direction_key l ∉ processed_directions s)
               ∧ i < length (current_state s)
               ∧ s' = mkSignals (<[i := "G"%char]> (current_state s))
                                (processed_directions s ∪ {[direction_key l]})).
Proof.
  unfold link_step, grants. destruct links as [|[[from_edge to_edge] via] rest].
  { intros [= <-]. left. split; [done|]. intros ???. done. }
  unfold direction_key. cbn [fst snd].
  set (from_edge_base := split_head "_" from_edge).
  set (to_edge_base := split_head "_" to_edge).
  assert (∀ (P : Link → Prop), P (from_edge, to_edge, via) →
            ∀ l' rest', (from_edge, to_edge, via) :: rest = l' :: rest' → P l')
    as Hhead.
  { intros P HP l' rest' [= <- _]. done. }
  destruct (String.eqb current_edge from_edge_base) eqn:Ecur; cbn [andb].
  2:{ intros [= <-]. left. split; [done|].
      apply (Hhead (λ l', _ → _)). cbn [fst snd].
      fold from_edge_base. by rewrite Ecur. }
  destruct (bool_decide ((from_edge_base, to_edge_base) ∉ processed_directions s))
    eqn:Efree; cbn [andb].
  2:{ intros [= <-]. left. split; [done|].
      apply (Hhead (λ l', _ → _)). cbn [fst snd]. intros _.
      apply bool_decide_eq_false in Efree. by apply dec_stable in Efree. }
  apply bool_decide_eq_true in Efree.
  destruct (leads_to_route to_edge_base next_junction route) eqn:Elead; cbn [orb].
  - destruct (list_assign _ _ _) as [st|] eqn:Est; [|done].
    cbn [mbind option_bind]. intros [= <-]. destruct (list_assign_Some _ _ _ _ Est) as [Hlt ->].
    right. exists (from_edge, to_edge, via), rest. cbn [fst snd].
    fold from_edge_base to_edge_base. rewrite Ecur, Elead. done.
  - destruct (truthy next_junction) eqn:Etr; cbn [negb].
    + intros [= <-]. left. split; [done|].
      apply (Hhead (λ l', _ → _)). cbn [fst snd].
      fold from_edge_base to_edge_base. by rewrite Ecur, Elead.
    + destruct (list_assign _ _ _) as [st|] eqn:Est; [|done].
      cbn [mbind option_bind]. intros [= <-]. destruct (list_assign_Some _ _ _ _ Est) as [Hlt ->].
      right. exists (from_edge, to_edge, via), rest. cbn [fst snd].
      fold from_edge_base to_edge_base. rewrite Ecur, Elead. done.
Qed.

Lemma granted_by_refl cls s :
  granted_by current_edge next_junction route cls s s.
Proof. split_and!; [done | done | intros i Hi; done | intros k Hk Hk'; done]. Qed.

Lemma granted_by_green cls s s' i :
  granted_by current_edge next_junction route cls s s' →
  current_state s !! i = Some "G"%char → current_state s' !! i = Some "G"%char.
Proof.
  intros (_ & _ & Hch & _) HG.
  destruct (decide (current_state s' !! i = current_state s !! i)) as [->|Hne]; [done|].
  by destruct (Hch i Hne).
Qed.

Lemma links_loop_spec :
  ∀ suf pre s s',
    links_loop current_edge next_junction route (length pre) suf s = Some s' →
    granted_by current_edge next_junction route (pre ++ suf) s s'
    ∧ (∀ j l rest, length pre ≤ j → (pre ++ suf) !! j = Some (l :: rest) →
         grants current_edge next_junction route l = true →
         direction_key l ∈ processed_directions s').
Proof.
  induction suf as [|links suf IH]; intros pre s s' Hrun.
  { simpl in Hrun. injection Hrun as <-. split; [apply granted_by_refl|].
    intros j l rest Hj Hl. rewrite app_nil_r in Hl.
    apply lookup_lt_Some in Hl. lia. }
  cbn [links_loop] in Hrun.
  destruct (link_step current_edge next_junction route (length pre) links s)
    as [s1|] eqn:Estep; [|done].
  cbn [mbind option_bind] in Hrun.
  specialize (IH (pre ++ [links]) s1 s').
  rewrite length_app, Nat.add_1_r, <- app_assoc in IH. cbn [app] in IH.
  destruct (IH Hrun) as [Hg Hall]. clear IH.
  assert ((pre ++ links :: suf) !! length pre = Some links) as Hhere.
  { by rewrite lookup_app_r, Nat.sub_diag by lia. }
  destruct (link_step_inv _ _ _ _ Estep)
    as [[-> Hskip] | (l & rest & -> & Hgr & Hfree & Hlt & ->)].
  - split; [done|]. intros j l rest Hj Hl Hgrant.
    destruct (decide (j = length pre)) as [->|Hne].
    + rewrite Hhere in Hl. injection Hl as ->.
      destruct Hg as (_ & Hsub & _). apply Hsub. by eapply Hskip.
    + apply (Hall j l rest); [lia | done | done].
  - destruct Hg as (Hlen & Hsub & Hch & Hnew). cbn [current_state processed_directions] in *.
    assert (direction_key l ∈ processed_directions s') as Hclaimed.
    { apply Hsub, elem_of_union. right. by apply elem_of_singleton. }
    assert (current_state s' !! length pre = Some "G"%char) as Hgreen.
    { destruct (decide (current_state s' !! length pre
                        = <[length pre := "G"%char]> (current_state s) !! length pre))
        as [->|Hne]; [by apply list_lookup_insert_eq|].
      by destruct (Hch _ Hne). }
    split; [split_and!|].
    + by rewrite Hlen, length_insert.
    + intros k Hk. apply Hsub, elem_of_union. by left.
    + intros i Hi. destruct (decide (i = length pre)) as [->|Hne].
      * split; [done|]. exists l, rest. done.
      * rewrite <- (list_lookup_insert_ne (current_state s) (length pre) i "G"%char)
          in Hi by done.
        destruct (Hch i Hi) as (HG & l' & rest' & Hl' & Hgr' & Hfree' & Hin').
        split; [done|]. exists l', rest'. split_and!; try done.
        intros Hk. apply Hfree', elem_of_union. by left.
    + intros k Hk Hnk. destruct (decide (k = direction_key l)) as [->|Hne].
      * exists (length pre), l, rest. done.
      * destruct (Hnew k Hk) as (i & l' & rest' & Hl' & Hkey & Hgr' & HG).
        { intros Hk'. apply elem_of_union in Hk'. destruct Hk' as [Hk'|Hk']; [done|].
          by apply elem_of_singleton in Hk'. }
        exists i, l', rest'. done.
    + intros j l' rest' Hj Hl' Hgrant.
      destruct (decide (j = length pre)) as [->|Hne].
      * rewrite Hhere in Hl'. injection Hl' as <- <-. done.
      * apply (Hall j l' rest'); [lia | done | done].
Qed.

Lemma link_step_is_Some i links s :
  i < length (current_state s) →
  ∃ s1, link_step current_edge next_junction route i links s = Some s1
        ∧ length (current_state s1) = length (current_state s).
Proof.
  intros Hlt. unfold link_step. destruct links as [|l rest]; [eauto|].
  destruct (direction_key l) as [from_edge_base to_edge_base].
  rewrite (list_assign_is_Some _ _ _ Hlt). cbn [mbind option_bind].
  destruct (_ && _); [|eauto].
  destruct (leads_to_route _ _ _).
  { eexists. split; [done|]. apply length_insert. }
  destruct (negb _); [|eauto].
  eexists. split; [done|]. apply length_insert.
Qed.

Lemma links_loop_is_Some :
  ∀ suf i s, i + length suf ≤ length (current_state s) →
             is_Some (links_loop current_edge next_junction route i suf s).
Proof.
  induction suf as [|links suf IH]; intros i s Hlen; [simpl; eauto|].
  cbn [links_loop]. simpl in Hlen.
  destruct (link_step_is_Some i links s)
    as (s1 & -> & Hlen1); [lia|].
  cbn [mbind option_bind]. apply IH. lia.
Qed.

Lemma granted_by_respects cls s s' :
  granted_by current_edge next_junction route cls s s' → respects cls s s'.
Proof.
  intros (Hlen & Hsub & Hch & _). split_and!; [done | done |].
  intros i Hi. destruct (Hch i Hi) as (HG & l & rest & Hl & _ & Hfree & Hin).
  split; [done|]. by exists l, rest.
Qed.

End OneAmbulance.

(** ** Signal arbitration: all ambulances *)

Lemma respects_refl cls s : respects cls s s.
Proof. split_and!; [done | done | intros i Hi; done]. Qed.

Lemma respects_trans cls s1 s2 s3 :
  respects cls s1 s2 → respects cls s2 s3 → respects cls s1 s3.
Proof.
  intros (Hlen1 & Hsub1 & Hch1) (Hlen2 & Hsub2 & Hch2).
  split_and!; [congruence | by etrans |].
  intros i Hi.
  destruct (decide (current_state s3 !! i = current_state s2 !! i)) as [Heq|Hne].
  - rewrite Heq in Hi |- *.
    destruct (Hch1 i Hi) as (HG & l & rest & Hl & Hfree & Hin).
    split; [done|]. exists l, rest. split_and!; [done | done | by apply Hsub2].
  - destruct (Hch2 i Hne) as (HG & l & rest & Hl & Hfree & Hin).
    split; [done|]. exists l, rest. split_and!; [done | | done].
    intros Hk. by apply Hfree, Hsub1.
Qed.

Lemma ambulance_step_inv w green_junction routes cls ambulance_id s s' :
  ambulance_step w green_junction routes cls ambulance_id s = Some s' →
  ∃ current_edge next_edge,
    get_ambulance_route_info w ambulance_id = Some (current_edge, next_edge)
    ∧ ((truthy current_edge && truthy next_edge = false ∧ s' = s)
       ∨ (truthy current_edge = true ∧ truthy next_edge = true
          ∧ links_loop (default "" current_edge)
              (route_next_junction green_junction (default [] (routes !! ambulance_id)))
              (default [] (routes !! ambulance_id)) 0 cls s = Some s')).
Proof.
  unfold ambulance_step.
  destruct (get_ambulance_route_info w ambulance_id)
    as [[current_edge next_edge]|]; [|done].
  cbn [mbind option_bind]. intros Hrun. exists current_edge, next_edge.
  split; [done|].
  destruct (truthy current_edge), (truthy next_edge); cbn [negb orb andb] in *;
    try (injection Hrun as <-; by left).
  right. done.
Qed.

Lemma ambulance_step_respects w green_junction routes cls ambulance_id s s' :
  ambulance_step w green_junction routes cls ambulance_id s = Some s' →
  respects cls s s'.
Proof.
  intros Hrun.
  destruct (ambulance_step_inv _ _ _ _ _ _ _ Hrun)
    as (current_edge & next_edge & _ & [[_ ->] | (_ & _ & Hloop)]).
  - apply respects_refl.
  - destruct (links_loop_spec _ _ _ cls [] s s' Hloop) as [Hg _].
    by eapply granted_by_respects.
Qed.

Lemma ambulances_loop_respects w green_junction routes cls :
  ∀ ambulances s s',
    ambulances_loop w green_junction routes cls ambulances s = Some s' →
    respects cls s s'.
Proof.
  induction ambulances as [|a ambulances IH]; intros s s' Hrun.
  - injection Hrun as <-. apply respects_refl.
  - cbn [ambulances_loop] in Hrun.
    destruct (ambulance_step w green_junction routes cls a s) as [s1|] eqn:E; [|done].
    cbn [mbind option_bind] in Hrun.
    eapply respects_trans; [by eapply ambulance_step_respects | by apply IH].
Qed.

Lemma ambulances_loop_app w green_junction routes cls l1 l2 s :
  ambulances_loop w green_junction routes cls (l1 ++ l2) s
  = ambulances_loop w green_junction routes cls l1 s
      ≫= ambulances_loop w green_junction routes cls l2.
Proof.
  revert s. induction l1 as [|a l1 IH]; intros s; [done|].
  cbn [app ambulances_loop].
  destruct (ambulance_step w green_junction routes cls a s) as [s1|]; [|done].
  cbn [mbind option_bind]. apply IH.
Qed.

(** ** The priority order *)

Lemma elem_of_insert_by_key kx l x :
  x ∈ insert_by_key kx l ↔ x = kx ∨ x ∈ l.
Proof.
  induction l as [|ky l IH]; simpl.
  - rewrite list_elem_of_singleton, elem_of_nil. tauto.
  - destruct (kx.1 <=? ky.1); rewrite !elem_of_cons; [tauto|].
    rewrite IH. tauto.
Qed.

Lemma insert_by_key_sorted kx l :
  StronglySorted key_le l → StronglySorted key_le (insert_by_key kx l).
Proof.
  induction 1 as [|ky l Hs IH Hall]; simpl.
  - repeat constructor.
  - destruct (kx.1 <=? ky.1) eqn:E.
    + apply Nat.leb_le in E. constructor; [by constructor|].
      constructor; [done|]. eapply Forall_impl; [exact Hall|].
      unfold key_le. intros; simpl in *; lia.
    + apply Nat.leb_gt in E. constructor; [done|].
      apply Forall_forall. intros x Hx. apply elem_of_insert_by_key in Hx.
      destruct Hx as [->|Hx]; [unfold key_le; lia|].
      by eapply Forall_forall in Hall.
Qed.

Lemma sort_by_key_sorted l : StronglySorted key_le (sort_by_key l).
Proof.
  induction l as [|kx l IH]; simpl; [constructor|]. by apply insert_by_key_sorted.
Qed.

Lemma elem_of_sort_by_key l x : x ∈ sort_by_key l ↔ x ∈ l.
Proof.
  induction l as [|kx l IH]; simpl; [done|].
  rewrite elem_of_insert_by_key, elem_of_cons, IH. tauto.
Qed.

Lemma sort_by_priority_order l before X after :
  sort_by_priority l = Some (before ++ X :: after) →
  ∀ Y, Y ∈ after →
       ∃ kx ky, priority_key X = Some kx ∧ priority_key Y = Some ky ∧ kx ≤ ky.
Proof.
  unfold sort_by_priority.
  destruct (mapM _ l) as [keyed|] eqn:Ek; [|done]. cbn [mbind option_bind].
  intros [= Hsorted] Y HY.
  apply mapM_Some in Ek.
  assert (∀ p, p ∈ sort_by_key keyed → priority_key p.2 = Some p.1) as Hkeys.
  { intros p Hp. apply (proj1 (elem_of_sort_by_key _ _)) in Hp.
    apply list_elem_of_lookup in Hp. destruct Hp as [i Hi].
    destruct (Forall2_lookup_r _ _ _ _ _ Ek Hi) as (x & _ & Hx).
    destruct (priority_key x) as [k|] eqn:Ex; [|done].
    cbn [mbind option_bind] in Hx. injection Hx as <-. done. }
  pose proof (sort_by_key_sorted keyed) as Hs.
  apply fmap_app_inv in Hsorted. destruct Hsorted as (lb & la & -> & Hla & Heq).
  symmetry in Hla. apply fmap_cons_inv in Hla.
  destruct Hla as (px & la' & -> & -> & ->).
  apply list_elem_of_fmap in HY. destruct HY as (py & -> & Hpy).
  rewrite Heq in Hs, Hkeys.
  apply StronglySorted_app_1_r, StronglySorted_cons in Hs. destruct Hs as [Hall _].
  exists px.1, py.1. split_and!.
  - apply Hkeys. apply elem_of_app. right. by left.
  - apply Hkeys. apply elem_of_app. right. by right.
  - by eapply Forall_forall in Hall.
Qed.

(** ** The arbiter *)

Lemma route_next_junction_absent green_junction route :
  green_junction ∉ route → route_next_junction green_junction route = None.
Proof. intros Hn. unfold route_next_junction. by rewrite decide_False. Qed.

Lemma grants_no_target current_edge route l :
  grants current_edge None route l = true ↔ current_edge = (direction_key l).1.
Proof.
  unfold grants, leads_to_route. cbn [truthy andb orb negb].
  rewrite andb_true_r. apply String.eqb_eq.
Qed.

Lemma grants_target current_edge target route l :
  target ≠ "" →
  grants current_edge (Some target) route l = true
  ↔ current_edge = (direction_key l).1
    ∧ (endswith (direction_key l).2 target = true
       ∨ ∃ j, j ∈ route ∧ startswith (direction_key l).2 j = true).
Proof.
  intros Hne. unfold grants, leads_to_route. cbn [truthy default].
  assert (String.eqb target "" = false) as -> by (by apply String.eqb_neq).
  cbn [negb andb]. rewrite orb_false_r, andb_true_iff, orb_true_iff.
  rewrite String.eqb_eq, existsb_exists.
  split; intros [Hc Hr]; (split; [done|]); destruct Hr as [?|(j & Hj & Hs)]; eauto.
  - right. exists j. by rewrite list_elem_of_In.
  - right. exists j. by rewrite <- list_elem_of_In.
Qed.

(** C9: with pre-emption disabled the arbiter returns without sending any
    command: the simulator, and with it the signal state of every junction,
    is as before the call, for every junction and every set of ambulances
    and routes; the tracker's call of it also leaves the simulator as it
    was. *)
Theorem set_signals_disabled (w : Traci) (green_junction : string)
    (routes : gmap string (list string)) :
  set_signals_for_ambulance false w green_junction routes = Some w
  ∧ ∀ ambulance_id t t',
      process_ambulance false ambulance_id t = Ok t'
      ∨ process_ambulance false ambulance_id t = Raised t' →
      conn t' = conn t.
Proof.
  split; [reflexivity|].
  intros ambulance_id t t'. unfold process_ambulance.
  destruct (getNextTLS (conn t) ambulance_id) as [[|[[[current_junction ?] ?] ?] ?]|];
    try (intros [[= <-]|[=]]; done).
  case_decide; [|intros [[= <-]|[=]]; done].
  case_decide.
  - destruct (find_best_route _ _ _ _) as [rs|]; cbn [mbind option_bind set_signals_for_ambulance negb].
    + intros [[= <-]|[=]]. done.
    + intros [[=]|[= <-]]. done.
  - cbn [set_signals_for_ambulance negb]. intros [[= <-]|[=]]. done.
Qed.

Lemma set_signals_disabled_witness :
  ∃ t', process_ambulance false "ambulance_1"
          (initial_tracker (arb_world ["ambulance_1"]) opt_rng) = Ok t'
        ∧ last_junctions t' !! "ambulance_1" = Some (Some "J2")
        ∧ conn t' = conn (initial_tracker (arb_world ["ambulance_1"]) opt_rng).
Proof.
  eexists. split; [vm_compute; reflexivity|]. split; [vm_compute; reflexivity|].
  destruct (set_signals_disabled (arb_world ["ambulance_1"]) "J2" ∅) as [_ Hconn].
  apply (Hconn "ambulance_1"). left. vm_compute. reflexivity.
Defined.

(** C1: with pre-emption enabled, let X be an ambulance of the sorted list
    and [sX] the signals once X has been processed. Every ambulance
    processed after X has a priority key that is not smaller than X's, and
    none of them changes a link whose direction is claimed in [sX]: the
    direction stays claimed and the state of the link in the command that is
    sent is the one it had in [sX]. *)
Theorem priority_dominance (w : Traci) (green_junction : string)
    (routes : gmap string (list string)) (before after : list string) (X : string)
    (sX sF : Signals) :
  approaching_ambulances w = Some (before ++ X :: after) →
  ambulances_loop w green_junction routes (getControlledLinks w green_junction)
    (before ++ [X])
    (mkSignals
       (replicate
          (length (String.list_ascii_of_string
                     (getRedYellowGreenState w green_junction))) "r"%char) ∅)
  = Some sX →
  ambulances_loop w green_junction routes (getControlledLinks w green_junction)
    after sX = Some sF →
  set_signals_for_ambulance true w green_junction routes
  = Some (setRedYellowGreenState w green_junction
            (String.string_of_list_ascii (current_state sF)))
  ∧ (∀ Y, Y ∈ after →
       ∃ kx ky, priority_key X = Some kx ∧ priority_key Y = Some ky ∧ kx ≤ ky)
  ∧ ∀ i l rest,
      getControlledLinks w green_junction !! i = Some (l :: rest) →
      direction_key l ∈ processed_directions sX →
      direction_key l ∈ processed_directions sF
      ∧ current_state sF !! i = current_state sX !! i.
Proof.
  intros Happ HX HF. split_and!.
  - unfold set_signals_for_ambulance. cbn [negb]. rewrite Happ.
    cbn [mbind option_bind].
    replace (before ++ X :: after) with ((before ++ [X]) ++ after)
      by (by rewrite <- app_assoc).
    rewrite ambulances_loop_app, HX. cbn [mbind option_bind]. by rewrite HF.
  - unfold approaching_ambulances in Happ.
    destruct (approaching w AMBULANCE_IDS) as [l|]; [|done].
    by eapply sort_by_priority_order.
  - intros i l rest Hl Hclaimed.
    destruct (ambulances_loop_respects _ _ _ _ _ _ _ HF) as (_ & Hsub & Hch).
    split; [by apply Hsub|].
    destruct (decide (current_state sF !! i = current_state sX !! i)) as [|Hne]; [done|].
    destruct (Hch i Hne) as (_ & l' & rest' & Hl' & Hfree & _).
    rewrite Hl in Hl'. injection Hl' as <- <-. done.
Qed.

Lemma priority_dominance_witness :
  set_signals_for_ambulance true (arb_world ["ambulance_1"; "ambulance_2"]) "J2"
    routes_contested
  = Some (setRedYellowGreenState (arb_world ["ambulance_1"; "ambulance_2"]) "J2" "GGGr")
  ∧ (∀ Y, Y ∈ ["ambulance_1"] →
       ∃ kx ky, priority_key "ambulance_2" = Some kx ∧ priority_key Y = Some ky
                ∧ kx ≤ ky)
  ∧ ∀ i l rest,
      arb_links !! i = Some (l :: rest) →
      direction_key l ∈ ({[("J1J2", "J2J3")]} : gset (string * string)) →
      direction_key l ∈ ({[("J1J2", "J2J3"); ("J1J2", "J1X"); ("J1J2", "Q9")]}
                         : gset (string * string))
      ∧ ["G"; "G"; "G"; "r"]%char !! i = ["r"; "G"; "r"; "r"]%char !! i.
Proof.
  refine (priority_dominance (arb_world ["ambulance_1"; "ambulance_2"]) "J2"
            routes_contested [] ["ambulance_1"] "ambulance_2"
            (mkSignals ["r"; "G"; "r"; "r"]%char {[("J1J2", "J2J3")]})
            (mkSignals ["G"; "G"; "G"; "r"]%char
               {[("J1J2", "J2J3"); ("J1J2", "J1X"); ("J1J2", "Q9")]}) _ _ _);
    vm_compute; reflexivity.
Defined.

Lemma ambulance_step_links_loop w green_junction routes cls ambulance_id s
    current_edge next_edge :
  get_ambulance_route_info w ambulance_id = Some (Some current_edge, next_edge) →
  current_edge ≠ "" → truthy next_edge = true →
  ambulance_step w green_junction routes cls ambulance_id s
  = links_loop current_edge
      (route_next_junction green_junction (default [] (routes !! ambulance_id)))
      (default [] (routes !! ambulance_id)) 0 cls s.
Proof.
  intros Hinfo Hcur Hnext. unfold ambulance_step. rewrite Hinfo.
  cbn [mbind option_bind truthy]. rewrite Hnext.
  assert (String.eqb current_edge "" = false) as -> by (by apply String.eqb_neq).
  done.
Qed.

(** C2 (as the code has it): an ambulance with a current and a next edge
    whose planned route does not contain the arbitrated junction is not
    skipped: it is handled as an ambulance without a known next junction.
    Every direction that leaves its current edge is claimed afterwards; a
    direction that it claims has a link that is GREEN; and the links whose
    state it changes are links from its current edge whose direction was
    unclaimed. When the state has a position for every link, the step
    returns. *)
Theorem absent_junction_all_green (w : Traci) (green_junction : string)
    (routes : gmap string (list string)) (cls : list (list Link))
    (ambulance_id : string) (s : Signals) (current_edge : string)
    (next_edge : option string) :
  get_ambulance_route_info w ambulance_id = Some (Some current_edge, next_edge) →
  current_edge ≠ "" → truthy next_edge = true →
  green_junction ∉ default [] (routes !! ambulance_id) →
  ambulance_step w green_junction routes cls ambulance_id s
  = links_loop current_edge None (default [] (routes !! ambulance_id)) 0 cls s
  ∧ (length cls ≤ length (current_state s) →
     is_Some (ambulance_step w green_junction routes cls ambulance_id s))
  ∧ ∀ s', ambulance_step w green_junction routes cls ambulance_id s = Some s' →
      (∀ i l rest, cls !! i = Some (l :: rest) →
                   current_edge = (direction_key l).1 →
                   direction_key l ∈ processed_directions s')
      ∧ (∀ k, k ∈ processed_directions s' → k ∉ processed_directions s →
              ∃ i l rest, cls !! i = Some (l :: rest) ∧ direction_key l = k
                          ∧ current_edge = k.1
                          ∧ current_state s' !! i = Some "G"%char)
      ∧ (∀ i, current_state s' !! i ≠ current_state s !! i →
              current_state s' !! i = Some "G"%char
              ∧ ∃ l rest, cls !! i = Some (l :: rest)
                          ∧ current_edge = (direction_key l).1
                          ∧ (direction_key l ∉ processed_directions s)).
Proof.
  intros Hinfo Hcur Hnext Habsent.
  pose proof (ambulance_step_links_loop w green_junction routes cls ambulance_id s
                _ _ Hinfo Hcur Hnext) as Hstep.
  rewrite (route_next_junction_absent _ _ Habsent) in Hstep.
  split; [done|]. split.
  { intros Hlen. rewrite Hstep. by apply links_loop_is_Some. }
  intros s' Hrun. rewrite Hstep in Hrun.
  destruct (links_loop_spec _ _ _ cls [] s s' Hrun) as [(_ & _ & Hch & Hnew) Hall].
  cbn [app length] in *. split_and!.
  - intros i l rest Hl Hfrom. apply (Hall i l rest); [lia | done |].
    by apply grants_no_target.
  - intros k Hk Hnk. destruct (Hnew k Hk Hnk) as (i & l & rest & Hl & <- & Hg & HG).
    exists i, l, rest. split_and!; try done. by apply grants_no_target in Hg.
  - intros i Hi. destruct (Hch i Hi) as (HG & l & rest & Hl & Hg & Hfree & _).
    split; [done|]. exists l, rest. split_and!; try done.
    by apply grants_no_target in Hg.
Qed.

Lemma absent_junction_all_green_witness :
  ambulance_step (arb_world ["ambulance_1"]) "J2" routes_elsewhere arb_links
    "ambulance_1" (mkSignals (replicate 4 "r"%char) ∅)
  = links_loop "J1J2" None ["J4"; "J5"] 0 arb_links (mkSignals (replicate 4 "r"%char) ∅)
  ∧ is_Some (ambulance_step (arb_world ["ambulance_1"]) "J2" routes_elsewhere
               arb_links "ambulance_1" (mkSignals (replicate 4 "r"%char) ∅)).
Proof.
  destruct (absent_junction_all_green (arb_world ["ambulance_1"]) "J2"
              routes_elsewhere arb_links "ambulance_1"
              (mkSignals (replicate 4 "r"%char) ∅) "J1J2" (Some "J2J3"))
    as (Heq & Hsome & _).
  - vm_compute. reflexivity.
  - discriminate.
  - reflexivity.
  - by_decide.
  - split; [exact Heq|]. apply Hsome. vm_compute. lia.
Defined.

(** C2 (as stated) fails: the route of the ambulance does not contain J2,
    and the command for J2 sets GREEN the three links from its edge; without
    the ambulance all four links are RED. *)
Lemma absent_junction_counterexample :
  ("J2" ∉ default [] (routes_elsewhere !! "ambulance_1"))
  ∧ (λ w', getRedYellowGreenState w' "J2")
      <$> set_signals_for_ambulance true (arb_world ["ambulance_1"]) "J2"
            routes_elsewhere
    = Some "GGGr"
  ∧ (λ w', getRedYellowGreenState w' "J2")
      <$> set_signals_for_ambulance true (arb_world []) "J2" routes_elsewhere
    = Some "rrrr".
Proof.
  split; [by_decide|]. split; vm_compute; reflexivity.
Qed.

(** C7 (as the code has it): for an ambulance whose next junction [target]
    after the arbitrated junction is known, a link is set GREEN only if it
    leaves the ambulance's current edge, its direction is unclaimed, and
    the name of its destination edge ends with [target] or starts with the
    name of some junction of the ambulance's route, wherever in the route
    that junction is; every direction with these properties is claimed
    afterwards; and a link whose destination edge neither ends with [target]
    nor starts with a junction of the route keeps its state. *)
Theorem known_target_grants (w : Traci) (green_junction : string)
    (routes : gmap string (list string)) (cls : list (list Link))
    (ambulance_id : string) (s s' : Signals) (current_edge : string)
    (next_edge : option string) (target : string) :
  get_ambulance_route_info w ambulance_id = Some (Some current_edge, next_edge) →
  current_edge ≠ "" → truthy next_edge = true →
  route_next_junction green_junction (default [] (routes !! ambulance_id))
  = Some target →
  target ≠ "" →
  ambulance_step w green_junction routes cls ambulance_id s = Some s' →
  (∀ i, current_state s' !! i ≠ current_state s !! i →
        current_state s' !! i = Some "G"%char
        ∧ ∃ l rest,
            cls !! i = Some (l :: rest)
            ∧ current_edge = (direction_key l).1
            ∧ (direction_key l ∉ processed_directions s)
            ∧ (endswith (direction_key l).2 target = true
               ∨ ∃ j, j ∈ default [] (routes !! ambulance_id)
                      ∧ startswith (direction_key l).2 j = true))
  ∧ (∀ i l rest,
       cls !! i = Some (l :: rest) →
       current_edge = (direction_key l).1 →
       (endswith (direction_key l).2 target = true
        ∨ ∃ j, j ∈ default [] (routes !! ambulance_id)
               ∧ startswith (direction_key l).2 j = true) →
       direction_key l ∈ processed_directions s')
  ∧ (∀ i l rest,
       cls !! i = Some (l :: rest) →
       endswith (direction_key l).2 target = false →
       (∀ j, j ∈ default [] (routes !! ambulance_id) →
             startswith (direction_key l).2 j = false) →
       current_state s' !! i = current_state s !! i).
Proof.
  intros Hinfo Hcur Hnext Htarget Hne Hrun.
  rewrite (ambulance_step_links_loop w green_junction routes cls ambulance_id s
             _ _ Hinfo Hcur Hnext), Htarget in Hrun.
  destruct (links_loop_spec _ _ _ cls [] s s' Hrun) as [(_ & _ & Hch & _) Hall].
  cbn [app length] in *.
  assert (∀ i, current_state s' !! i ≠ current_state s !! i →
        current_state s' !! i = Some "G"%char
        ∧ ∃ l rest,
            cls !! i = Some (l :: rest)
            ∧ current_edge = (direction_key l).1
            ∧ (direction_key l ∉ processed_directions s)
            ∧ (endswith (direction_key l).2 target = true
               ∨ ∃ j, j ∈ default [] (routes !! ambulance_id)
                      ∧ startswith (direction_key l).2 j = true)) as Hchanged.
  { intros i Hi. destruct (Hch i Hi) as (HG & l & rest & Hl & Hg & Hfree & _).
    split; [done|]. exists l, rest. apply grants_target in Hg; [|done].
    destruct Hg as [Hfrom Hto]. done. }
  split_and!.
  - exact Hchanged.
  - intros i l rest Hl Hfrom Hto. apply (Hall i l rest); [lia | done |].
    by apply grants_target.
  - intros i l rest Hl Hend Hstart.
    destruct (decide (current_state s' !! i = current_state s !! i)) as [|Hi]; [done|].
    destruct (Hchanged i Hi) as (_ & l' & rest' & Hl' & _ & _ & Hto).
    rewrite Hl in Hl'. injection Hl' as <- <-.
    destruct Hto as [Hto|(j & Hj & Hto)]; [congruence|].
    rewrite (Hstart j Hj) in Hto. done.
Qed.

Lemma known_target_grants_witness :
  ambulance_step (arb_world ["ambulance_1"]) "J2" routes_through arb_links
    "ambulance_1" (mkSignals (replicate 4 "r"%char) ∅)
  = Some (mkSignals ["G"; "G"; "r"; "r"]%char {[("J1J2", "J1X"); ("J1J2", "J2J3")]})
  ∧ ∀ i l rest,
      arb_links !! i = Some (l :: rest) →
      endswith (direction_key l).2 "J3" = false →
      (∀ j, j ∈ ["J1"; "J2"; "J3"] → startswith (direction_key l).2 j = false) →
      ["G"; "G"; "r"; "r"]%char !! i = replicate 4 "r"%char !! i.
Proof.
  split; [vm_compute; reflexivity|].
  refine (proj2 (proj2 (known_target_grants (arb_world ["ambulance_1"]) "J2"
            routes_through arb_links "ambulance_1"
            (mkSignals (replicate 4 "r"%char) ∅)
            (mkSignals ["G"; "G"; "r"; "r"]%char {[("J1J2", "J1X"); ("J1J2", "J2J3")]})
            "J1J2" (Some "J2J3") "J3" _ _ _ _ _ _)));
    try discriminate; vm_compute; reflexivity.
Defined.

(** C7 (as stated) fails: the route is J1, J2, J3 and the ambulance is at J2,
    so that J1 is behind it and the target is J3. The link towards edge J1X
    is set GREEN, although J1X matches the target and the remaining
    junctions J2 and J3 in no way and starts with the name of J1 only. *)
Lemma known_target_counterexample :
  route_next_junction "J2" (default [] (routes_through !! "ambulance_1")) = Some "J3"
  ∧ (λ w', getRedYellowGreenState w' "J2")
      <$> set_signals_for_ambulance true (arb_world ["ambulance_1"]) "J2"
            routes_through
    = Some "GGrr"
  ∧ direction_key <$> (arb_links !! 0 ≫= head) = Some ("J1J2", "J1X")
  ∧ forallb (λ j, negb (startswith "J1X" j) && negb (endswith "J1X" j)) ["J2"; "J3"]
    = true
  ∧ startswith "J1X" "J1" = true.
Proof. repeat split; vm_compute; reflexivity. Qed.

(** ** The tracker *)

Lemma filter_none {A} (P : A → Prop) `{∀ x, Decision (P x)} (l : list A) :
  Forall (λ x, ¬ P x) l → filter P l = [].
Proof.
  induction 1 as [|x l Hx _ IH]; [done|].
  rewrite filter_cons. by rewrite decide_False.
Qed.

Lemma tick_without_ambulances (PREEMPTION_ENABLED : bool) (w : Traci) (t : Tracker) :
  (∀ aid, aid ∈ AMBULANCE_IDS → aid ∉ getIDList w) →
  ∃ t', tick PREEMPTION_ENABLED w t = Ok t'
        ∧ AMBULANCE_START_TIMES t' = AMBULANCE_START_TIMES t
        ∧ AMBULANCE_END_TIMES t' = AMBULANCE_END_TIMES t
        ∧ active_ambulances t' = active_ambulances t.
Proof.
  intros Habsent. unfold tick. cbn [conn with_conn with_step with_junctions].
  assert (filter (λ aid, aid ∈ getIDList w) AMBULANCE_IDS = []) as ->.
  { apply filter_none, Forall_forall. intros aid Haid. by apply Habsent. }
  cbn [list_to_set]. rewrite decide_False by (intros H; by apply H).
  destruct t as [st en la ro ju ac [] sp rg co]; simpl; eexists; split; done.
Qed.

Lemma for_each_preserves (P : Tracker → Prop) (body : string → Tracker → Result)
    (l : list string) :
  (∀ x t1 t2, x ∈ l → P t1 → body x t1 = Ok t2 ∨ body x t1 = Raised t2 → P t2) →
  ∀ t t', P t → for_each body l t = Ok t' ∨ for_each body l t = Raised t' → P t'.
Proof.
  induction l as [|x l IH]; intros Hbody t t' Ht Hrun.
  - destruct Hrun as [[= <-]|[=]]. done.
  - cbn [for_each] in Hrun. destruct (body x t) as [t1|t1] eqn:E; cbn [and_then] in Hrun.
    + apply (IH (λ y u1 u2 Hy, Hbody y u1 u2 (list_elem_of_further _ _ _ Hy)) t1 t');
        [|done].
      apply (Hbody x t t1); [by left | done | by left].
    + destruct Hrun as [[=]|[= <-]].
      apply (Hbody x t t1); [by left | done | by right].
Qed.

Lemma process_ambulance_active (PREEMPTION_ENABLED : bool) (ambulance_id : string)
    (t t' : Tracker) :
  process_ambulance PREEMPTION_ENABLED ambulance_id t = Ok t'
  ∨ process_ambulance PREEMPTION_ENABLED ambulance_id t = Raised t' →
  active_ambulances t' = active_ambulances t
  ∧ AMBULANCE_START_TIMES t' = AMBULANCE_START_TIMES t
  ∧ AMBULANCE_END_TIMES t' = AMBULANCE_END_TIMES t.
Proof.
  unfold process_ambulance.
  destruct (getNextTLS (conn t) ambulance_id) as [[|[[[current_junction ?] ?] ?] ?]|];
    try (intros [[= <-]|[=]]; done).
  case_decide; [|intros [[= <-]|[=]]; done].
  case_decide.
  - destruct (find_best_route _ _ _ _) as [rs|]; cbn [mbind option_bind].
    + destruct (set_signals_for_ambulance _ _ _ _); intros [[= <-]|[= <-]]; done.
    + intros [[=]|[= <-]]. done.
  - destruct (set_signals_for_ambulance _ _ _ _); intros [[= <-]|[= <-]]; done.
Qed.

Lemma and_then_preserves (P : Tracker → Prop) (r : Result) (k : Tracker → Result)
    (t' : Tracker) :
  (∀ u, r = Ok u ∨ r = Raised u → P u) →
  (∀ u u', P u → k u = Ok u' ∨ k u = Raised u' → P u') →
  and_then r k = Ok t' ∨ and_then r k = Raised t' → P t'.
Proof.
  intros Hr Hk. destruct r as [u|u]; cbn [and_then].
  - apply Hk, Hr. by left.
  - intros [[=]|[= <-]]. apply Hr. by right.
Qed.

(** An ambulance that is neither present nor in the active set is not in the
    active set after the step either: only a present ambulance is started. *)
Lemma tick_absent_stays_inactive (PREEMPTION_ENABLED : bool) (w : Traci)
    (t t' : Tracker) (ambulance_id : string) :
  ambulance_id ∉ getIDList w → ambulance_id ∉ active_ambulances t →
  tick PREEMPTION_ENABLED w t = Ok t' ∨ tick PREEMPTION_ENABLED w t = Raised t' →
  ambulance_id ∉ active_ambulances t'.
Proof.
  intros Habsent Hinactive. unfold tick. cbv zeta.
  set (P := λ u : Tracker, ambulance_id ∉ active_ambulances u).
  assert (∀ x, x ∈ filter (λ aid, aid ∈ getIDList w) AMBULANCE_IDS → x ≠ ambulance_id)
    as Hcur.
  { intros x Hx ->. apply list_elem_of_filter in Hx. by destruct Hx. }
  case_decide as Hne.
  2:{ destruct (ambulance_active _); intros [[= <-]|[=]]; exact Hinactive. }
  intros Hrun. eapply (and_then_preserves P); [| |exact Hrun].
  - intros u Hu. eapply (for_each_preserves P); [| |exact Hu]; [|exact Hinactive].
    intros x v1 v2 Hx Hv [[= <-]|[=]]. unfold P in *. cbn.
    apply elem_of_elements, elem_of_difference in Hx. destruct Hx as [Hx _].
    apply elem_of_list_to_set, Hcur in Hx.
    intros Hin. apply elem_of_union in Hin. destruct Hin as [Hin|Hin]; [done|].
    apply elem_of_singleton in Hin. by subst x.
  - intros u u' Hu Hrun'. eapply (and_then_preserves P); [| |exact Hrun'].
    + intros v Hv. eapply (for_each_preserves P); [| |exact Hv]; [|exact Hu].
      intros x v1 v2 _ Hv1 Hstep. unfold P in *.
      by destruct (process_ambulance_active _ _ _ _ Hstep) as (-> & _).
    + intros v v' Hv Hfin. eapply (for_each_preserves P); [| |exact Hfin]; [|exact Hv].
      intros x v1 v2 _ Hv1. unfold finish_ambulance, P in *. cbn.
      destruct (AMBULANCE_START_TIMES v1 !! x); intros [[= <-]|[= <-]]; cbn;
        [|done]. intros Hin. apply elem_of_difference in Hin. by destruct Hin.
Qed.

(** C6 on the run in which ambulance_1 is present from time 10 to time 25
    and no other ambulance is: the start time 10 is recorded, but at time 26,
    the first step without the ambulance, and at any later step no end time
    is recorded, and the ambulance is still in the active set when the run
    ends. In the same run with ambulance_2 present throughout, the end time
    26 of ambulance_1 is recorded. *)
Theorem last_ambulance_end_time_missing :
  run_simulation true (tracker_world 0 []) ticks_alone opt_rng
  = ({["ambulance_1" := 10%Q]}, ∅)
  ∧ active_ambulances
      (simulation_loop true ticks_alone (initial_tracker (tracker_world 0 []) opt_rng))
    = {["ambulance_1"]}
  ∧ run_simulation true (tracker_world 0 []) ticks_accompanied opt_rng
    = (<["ambulance_2" := 10%Q]> {["ambulance_1" := 10%Q]}, {["ambulance_1" := 26%Q]}).
Proof. repeat split; vm_compute; reflexivity. Qed.

(** ** The arbiter returns *)

Lemma get_ambulance_route_info_is_Some (w : Traci) (ambulance_id : string) :
  (-1 ≤ getRouteIndex w ambulance_id)%Z →
  is_Some (get_ambulance_route_info w ambulance_id).
Proof.
  intros Hidx. unfold get_ambulance_route_info. case_decide; [|eauto].
  destruct (getRouteIndex w ambulance_id <? _)%Z eqn:E; cbn [mbind option_bind]; [|eauto].
  apply Z.ltb_lt in E. unfold py_index.
  rewrite (proj2 (Z.leb_le 0 _)) by lia.
  destruct (lookup_lt_is_Some_2 (getRoute w ambulance_id)
              (Z.to_nat (getRouteIndex w ambulance_id + 1))) as [e ->]; [lia|].
  cbn [fmap option_fmap option_map mbind option_bind]. eauto.
Qed.

Lemma approaching_is_Some (w : Traci) (ids : list string) :
  (∀ x, (-1 ≤ getRouteIndex w x)%Z) →
  ∃ l, approaching w ids = Some l ∧ ∀ x, x ∈ l → x ∈ ids.
Proof.
  intros Hidx. induction ids as [|x ids (l & IH & Hsub)]; [by exists []|].
  cbn [approaching].
  destruct (get_ambulance_route_info_is_Some w x (Hidx x)) as [[c n] ->].
  cbn [mbind option_bind]. rewrite IH. cbn [mbind option_bind].
  eexists. split; [done|]. intros y Hy.
  destruct (truthy c && truthy n).
  - apply elem_of_cons in Hy. destruct Hy as [->|Hy]; [by left | right; by apply Hsub].
  - right. by apply Hsub.
Qed.

Lemma sort_by_priority_is_Some (l : list string) :
  (∀ x, x ∈ l → is_Some (AMBULANCE_PRIORITIES !! x)) →
  is_Some (sort_by_priority l).
Proof.
  intros Hall. unfold sort_by_priority.
  destruct (mapM (λ x, k ← priority_key x; Some (k, x)) l) as [keyed|] eqn:E;
    [cbn [mbind option_bind]; eauto|].
  exfalso. assert (is_Some (mapM (λ x, k ← priority_key x; Some (k, x)) l)) as [? Hs];
    [|congruence].
  apply mapM_is_Some, Forall_forall. intros x Hx. destruct (Hall x Hx) as [code Hc].
  unfold compose, priority_key. rewrite Hc. cbn [mbind option_bind]. eauto.
Qed.

Lemma ambulances_loop_is_Some w green_junction routes cls :
  (∀ x, (-1 ≤ getRouteIndex w x)%Z) →
  ∀ ambulances s, length cls ≤ length (current_state s) →
                  is_Some (ambulances_loop w green_junction routes cls ambulances s).
Proof.
  intros Hidx. induction ambulances as [|a ambulances IH]; intros s Hlen; [simpl; eauto|].
  cbn [ambulances_loop].
  assert (∃ s1, ambulance_step w green_junction routes cls a s = Some s1
                ∧ length (current_state s1) = length (current_state s))
    as (s1 & -> & Hlen1).
  { unfold ambulance_step.
    destruct (get_ambulance_route_info_is_Some w a (Hidx a)) as [[c n] ->].
    cbn [mbind option_bind]. destruct (_ || _); [eauto|].
    destruct (links_loop_is_Some (default "" c)
                (route_next_junction green_junction (default [] (routes !! a)))
                (default [] (routes !! a)) cls 0 s) as [s1 Hs1]; [simpl; lia|].
    exists s1. split; [done|].
    by destruct (links_loop_spec _ _ _ cls [] s s1 Hs1) as [(? & _) _]. }
  cbn [mbind option_bind]. apply IH. lia.
Qed.

(** With pre-emption enabled the arbiter sends a command whenever the
    signal state has a position for every controlled link and the route
    indices reported by the simulator are -1 or more. *)
Lemma set_signals_is_Some w green_junction routes :
  (∀ x, (-1 ≤ getRouteIndex w x)%Z) →
  length (getControlledLinks w green_junction)
  ≤ length (String.list_ascii_of_string (getRedYellowGreenState w green_junction)) →
  ∃ s, set_signals_for_ambulance true w green_junction routes
       = Some (setRedYellowGreenState w green_junction
                 (String.string_of_list_ascii (current_state s)))
       ∧ length (current_state s)
         = length (String.list_ascii_of_string
                     (getRedYellowGreenState w green_junction)).
Proof.
  intros Hidx Hlen. unfold set_signals_for_ambulance, approaching_ambulances.
  cbn [negb]. destruct (approaching_is_Some w AMBULANCE_IDS Hidx) as (l & -> & Hsub).
  cbn [mbind option_bind].
  destruct (sort_by_priority_is_Some l) as [sorted ->].
  { intros x Hx. apply Hsub in Hx.
    each_elem Hx ltac:(eexists; vm_compute; reflexivity). }
  cbn [mbind option_bind].
  set (s0 := mkSignals _ ∅).
  destruct (ambulances_loop_is_Some w green_junction routes
              (getControlledLinks w green_junction) Hidx sorted s0) as [s Hs].
  { subst s0. cbn [current_state]. by rewrite length_replicate. }
  rewrite Hs. cbn [mbind option_bind]. exists s. split; [done|].
  destruct (ambulances_loop_respects _ _ _ _ _ _ _ Hs) as (-> & _).
  subst s0. cbn [current_state]. by rewrite length_replicate.
Qed.

(** * Further properties of the program *)

(** ** Strings *)

Lemma string_app_cons (c : ascii) (s t : string) :
  String c s +:+ t = String c (s +:+ t).
Proof. reflexivity. Qed.

Lemma string_length_app (s t : string) :
  String.length (s +:+ t) = String.length s + String.length t.
Proof. induction s as [|c s IH]; simpl; [done|]. by rewrite IH. Qed.

Lemma substring_all (t : string) : String.substring 0 (String.length t) t = t.
Proof. induction t as [|c t IH]; simpl; [done|]. by rewrite IH. Qed.

Lemma substring_app_skip (s t : string) (n : nat) :
  String.substring (String.length s) n (s +:+ t) = String.substring 0 n t.
Proof. induction s as [|c s IH]; simpl; [done|]. exact IH. Qed.

Lemma substring_app_take (s t : string) :
  String.substring 0 (String.length s) (s +:+ t) = s.
Proof. induction s as [|c s IH]; simpl; [by destruct t|]. by rewrite IH. Qed.

Lemma substring_split (s : string) (n : nat) :
  n ≤ String.length s →
  s = String.substring 0 n s +:+ String.substring n (String.length s - n) s.
Proof.
  revert n. induction s as [|c s IH]; intros n Hn.
  - simpl in Hn. assert (n = 0) as -> by lia. done.
  - destruct n as [|n].
    + cbn [String.substring String.length Nat.sub].
      by rewrite substring_all.
    + simpl in Hn. cbn [String.substring String.length Nat.sub].
      rewrite string_app_cons. f_equal. apply IH. lia.
Qed.

(** [endswith] is Python's [str.endswith]. *)
Lemma endswith_spec (s p : string) : endswith s p = true ↔ ∃ q, s = q +:+ p.
Proof.
  unfold endswith. rewrite andb_true_iff, Nat.leb_le, String.eqb_eq. split.
  - intros [Hle Hsub]. exists (String.substring 0 (String.length s - String.length p) s).
    pose proof (substring_split s (String.length s - String.length p) ltac:(lia))
      as Hsplit.
    replace (String.length s - (String.length s - String.length p))
      with (String.length p) in Hsplit by lia.
    by rewrite Hsub in Hsplit.
  - intros [q ->]. rewrite string_length_app. split; [lia|].
    replace (String.length q + String.length p - String.length p)
      with (String.length q) by lia.
    by rewrite substring_app_skip, substring_all.
Qed.

(** [startswith] is Python's [str.startswith]. *)
Lemma startswith_spec (s p : string) : startswith s p = true ↔ ∃ q, s = p +:+ q.
Proof.
  unfold startswith. rewrite String.prefix_correct. split.
  - intros Hsub. exists (String.substring (String.length p)
                           (String.length s - String.length p) s).
    assert (String.length p ≤ String.length s) as Hle.
    { assert (∀ n t, String.length (String.substring 0 n t) ≤ String.length t) as Hlen.
      { intros n t. revert n. induction t as [|c t IH]; intros [|n]; simpl; try lia.
        specialize (IH n). lia. }
      specialize (Hlen (String.length p) s). rewrite Hsub in Hlen. lia. }
    pose proof (substring_split s (String.length p) Hle) as Hsplit.
    by rewrite Hsub in Hsplit.
  - intros [q ->]. apply substring_app_take.
Qed.

Lemma split_head_no_sep (sep : ascii) (s : string) :
  sep ∉ String.list_ascii_of_string (split_head sep s).
Proof.
  induction s as [|c s IH]; simpl; [apply not_elem_of_nil|].
  destruct (Ascii.eqb c sep) eqn:E; simpl; [apply not_elem_of_nil|].
  apply not_elem_of_cons. split; [|done].
  intros ->. by rewrite Ascii.eqb_refl in E.
Qed.

Lemma split_head_app (sep : ascii) (s t : string) :
  sep ∉ String.list_ascii_of_string s →
  split_head sep (s +:+ String sep t) = s.
Proof.
  induction s as [|c s IH]; simpl; intros Hs.
  - by rewrite Ascii.eqb_refl.
  - apply not_elem_of_cons in Hs as [Hc Hs].
    destruct (Ascii.eqb c sep) eqn:E; [apply Ascii.eqb_eq in E; congruence|].
    by rewrite IH.
Qed.

Lemma split_head_id (sep : ascii) (s : string) :
  sep ∉ String.list_ascii_of_string s → split_head sep s = s.
Proof.
  induction s as [|c s IH]; simpl; intros Hs; [done|].
  apply not_elem_of_cons in Hs as [Hc Hs].
  destruct (Ascii.eqb c sep) eqn:E; [apply Ascii.eqb_eq in E; congruence|].
  by rewrite IH.
Qed.

Lemma drop_last2_app (s : string) (a b : ascii) :
  drop_last2 (s +:+ String a (String b "")) = s.
Proof.
  unfold drop_last2. rewrite string_length_app. simpl String.length.
  replace (String.length s + 2 - 2) with (String.length s) by lia.
  apply substring_app_take.
Qed.

(** ** Neighbours of a junction *)

Lemma elem_of_next_junctions_inner (current to_edge : string) (js : list string)
    (acc : gset string) (y : string) :
  y ∈ foldl (λ (acc : gset string) (junction : string),
               if bool_decide (junction ≠ current) && endswith to_edge junction
               then acc ∪ {[junction]} else acc) acc js
  ↔ y ∈ acc ∨ (y ∈ js ∧ y ≠ current ∧ endswith to_edge y = true).
Proof.
  revert acc. induction js as [|j js IH]; intros acc; simpl.
  - rewrite elem_of_nil. tauto.
  - rewrite IH, elem_of_cons.
    destruct (bool_decide (j ≠ current)) eqn:Ej; simpl.
    + apply bool_decide_eq_true in Ej.
      destruct (endswith to_edge j) eqn:Ee.
      * rewrite elem_of_union, elem_of_singleton. split.
        -- intros [[?| ->]|?]; [tauto | | tauto]. right. tauto.
        -- intros [?|[[->|?] [? ?]]]; tauto.
      * split; [tauto|]. intros [?|[[->|?] [? ?]]]; [tauto | congruence | tauto].
    + apply bool_decide_eq_false in Ej. apply dec_stable in Ej.
      split; [tauto|]. intros [?|[[->|?] [? ?]]]; [tauto | congruence | tauto].
Qed.

Lemma elem_of_next_junctions_outer (current : string) (cl : list (list Link))
    (acc : gset string) (y : string) :
  y ∈ foldl (λ (acc : gset string) (links : list Link),
               match links with
               | [] => acc
               | (_, to_edge, _) :: _ =>
                   foldl (λ (acc : gset string) (junction : string),
                            if bool_decide (junction ≠ current)
                               && endswith to_edge junction
                            then acc ∪ {[junction]} else acc)
                         acc JUNCTIONS
               end) acc cl
  ↔ y ∈ acc ∨ (y ∈ JUNCTIONS ∧ y ≠ current
               ∧ ∃ l rest, l :: rest ∈ cl ∧ endswith l.1.2 y = true).
Proof.
  revert acc. induction cl as [|links cl IH]; intros acc; cbn [foldl].
  - split; [tauto|]. intros [?|(_ & _ & l & rest & Hin & _)]; [done|].
    by apply elem_of_nil in Hin.
  - destruct links as [|[[from_edge to_edge] via] rest]; rewrite IH.
    + split.
      * intros [?|(? & ? & l & r & Hin & ?)]; [tauto|]. right. split_and!; try done.
        exists l, r. split; [by right | done].
      * intros [?|(? & ? & l & r & Hin & ?)]; [tauto|]. right. split_and!; try done.
        apply elem_of_cons in Hin. destruct Hin as [[=]|Hin]. by exists l, r.
    + rewrite elem_of_next_junctions_inner. split.
      * intros [[?|(? & ? & ?)]|(? & ? & l & r & Hin & ?)]; [tauto | |].
        -- right. split_and!; try done.
           exists (from_edge, to_edge, via), rest. split; [by left | done].
        -- right. split_and!; try done. exists l, r. split; [by right | done].
      * intros [?|(? & ? & l & r & Hin & He)]; [tauto|].
        apply elem_of_cons in Hin. destruct Hin as [[= -> ->]|Hin].
        -- left. right. done.
        -- right. split_and!; try done. by exists l, r.
Qed.

(** X1. [get_next_junctions] lists, without repetition, exactly the known
    junctions other than the current one whose name is a suffix of the
    outgoing lane of the first link of some non-empty link group of the
    current junction. *)
Theorem get_next_junctions_spec (w : Traci) (current_junction : string) :
  NoDup (get_next_junctions w current_junction)
  ∧ ∀ x, x ∈ get_next_junctions w current_junction
         ↔ x ∈ JUNCTIONS ∧ x ≠ current_junction
           ∧ ∃ l rest q, l :: rest ∈ getControlledLinks w current_junction
                         ∧ l.1.2 = q +:+ x.
Proof.
  unfold get_next_junctions. split; [apply NoDup_elements|].
  intros x. rewrite elem_of_elements, elem_of_next_junctions_outer.
  split.
  - intros [Hx|(? & ? & l & rest & Hin & He)]; [by apply not_elem_of_empty in Hx|].
    apply endswith_spec in He. destruct He as [q Hq]. split_and!; try done.
    by exists l, rest, q.
  - intros (? & ? & l & rest & q & Hin & Hq). right. split_and!; try done.
    exists l, rest. split; [done|]. apply endswith_spec. by exists q.
Qed.

Lemma get_next_junctions_spec_witness :
  NoDup (get_next_junctions opt_world "J1")
  ∧ "J2" ∈ get_next_junctions opt_world "J1".
Proof.
  destruct (get_next_junctions_spec opt_world "J1") as [Hnd Hspec].
  split; [exact Hnd|]. apply Hspec. split; [by_decide|]. split; [discriminate|].
  exists ("inJ1_0", "J1J2", ":J1_0_0"), [], "J1". split; [by_decide | reflexivity].
Defined.

Lemma endswith_lane_index (e : string) (d : ascii) (x : string) :
  x ∈ JUNCTIONS → endswith (e +:+ String "_" (String d "")) x = false.
Proof.
  intros Hx. unfold endswith. rewrite string_length_app.
  each_elem Hx ltac:(
    cbn [String.length]; replace (String.length e + 2 - 2) with (String.length e) by lia;
    rewrite substring_app_skip; cbn; by rewrite andb_false_r).
Qed.

(** X2. The name of a junction is looked for at the end of the outgoing lane
    without removing the lane index. When the outgoing lanes of a known
    junction all end with an underscore and a one-character lane index, the
    junction has no next junction, and [find_best_route] from it returns the
    route that consists of the start only, writes no pheromone and draws no
    random number. *)
Theorem lane_indexed_links_no_route (w : Traci) (start : string)
    (J : gmap string Junction) (g : Rng) :
  start ∈ JUNCTIONS →
  (∀ l rest, l :: rest ∈ getControlledLinks w start →
             ∃ e d, l.1.2 = e +:+ String "_" (String d "")) →
  get_next_junctions w start = []
  ∧ find_best_route w start J g = Some (mkRouteState [start] J g).
Proof.
  intros Hstart Hlanes.
  assert (get_next_junctions w start = []) as Hnone.
  { destruct (get_next_junctions w start) as [|x xs] eqn:E; [done|]. exfalso.
    assert (x ∈ get_next_junctions w start) as Hx by (rewrite E; by left).
    unfold get_next_junctions in Hx.
    rewrite elem_of_elements, elem_of_next_junctions_outer in Hx.
    destruct Hx as [Hx|(Hj & _ & l & rest & Hin & He)];
      [by apply not_elem_of_empty in Hx|].
    destruct (Hlanes l rest Hin) as (e & d & Hl). rewrite Hl in He.
    by rewrite endswith_lane_index in He. }
  split; [done|]. unfold find_best_route. rewrite decide_True by done.
  change (length JUNCTIONS - length [start]) with 5. cbn [route_loop].
  by rewrite Hnone.
Qed.

Lemma lane_indexed_links_no_route_witness :
  get_next_junctions lane_world "J1" = []
  ∧ find_best_route lane_world "J1" fresh_junctions opt_rng
    = Some (mkRouteState ["J1"] fresh_junctions opt_rng).
Proof.
  apply (lane_indexed_links_no_route lane_world "J1" fresh_junctions opt_rng).
  - by_decide.
  - intros l rest Hin. change (getControlledLinks lane_world "J1")
      with [[("N1J1_0", "J1J2_0", ":J1_0_0")]; [("N1J1_0", "J1J3_1", ":J1_1_0")]] in Hin.
    apply elem_of_cons in Hin. destruct Hin as [Heq|Hin].
    { injection Heq as -> ->. by exists "J1J2", "0"%char. }
    apply list_elem_of_singleton in Hin. injection Hin as -> ->.
    by exists "J1J3", "1"%char.
Defined.

(** ** Route construction *)

Lemma seeded_dom (J J' : gmap string Junction) : seeded J J' → dom J' = dom J.
Proof.
  intros Hs. apply set_eq. intros j. rewrite !elem_of_dom.
  specialize (Hs j). destruct Hs; split; intros [? ?]; eauto; done.
Qed.

Lemma choices_rng population weights r x r' :
  choices population weights r = Some (x, r') →
  r' = mkRng (draws r) (S (pos r)).
Proof.
  unfold choices. destruct (negb _); [done|].
  destruct (last _) as [total|]; [|done]. simpl.
  destruct (Qle_bool total 0); [done|].
  destruct (population !! _) as [y|]; [|done]. simpl. by intros [= _ <-].
Qed.

Lemma last_cons_default {A} (x : A) (l : list A) :
  last (x :: l) = Some (default x (last l)).
Proof.
  revert x. induction l as [|y l IH]; intros x; [done|].
  rewrite last_cons_cons, IH. simpl. by destruct (last l).
Qed.

Lemma route_loop_path (w : Traci) (k : nat) :
  ∀ route current visited J g rs,
    route_loop w k route current visited J g = Some rs →
    (∀ x, x ∈ visited ↔ x ∈ route) →
    ∃ ext, rs_route rs = route ++ ext
           ∧ (∀ i a b, (current :: ext) !! i = Some a →
                       (current :: ext) !! S i = Some b →
                       b ∈ get_next_junctions w a)
           ∧ (∀ x, x ∈ ext → x ∈ JUNCTIONS)
           ∧ pos (rs_rng rs) = pos g + length ext
           ∧ draws (rs_rng rs) = draws g
           ∧ (length ext < k →
              ∀ x, x ∈ get_next_junctions w (default current (last ext)) →
                   x ∈ route ++ ext).
Proof.
  induction k as [|k IH]; intros route current visited J g rs Hrun Hvis.
  - simpl in Hrun. injection Hrun as <-. exists []. simpl.
    rewrite app_nil_r.
    split_and!; [done | | | lia | done | lia].
    + intros i a b _ Hb. by destruct i.
    + intros x Hx. by apply elem_of_nil in Hx.
  - cbn [route_loop] in Hrun.
    destruct (filter (λ j, j ∉ visited) (get_next_junctions w current))
      as [|c cands] eqn:Ec.
    { injection Hrun as <-. exists []. simpl. rewrite app_nil_r.
      split_and!; [done | | | lia | done |].
      - intros i a b _ Hb. by destruct i.
      - intros x Hx. by apply elem_of_nil in Hx.
      - intros _ x Hx. apply Hvis.
        destruct (decide (x ∈ visited)) as [|Hn]; [done|]. exfalso.
        assert (x ∈ filter (λ j, j ∉ visited) (get_next_junctions w current)) as Hf
          by (by apply list_elem_of_filter).
        rewrite Ec in Hf. by apply elem_of_nil in Hf. }
    destruct (route_scores current (c :: cands) J) as [[scores J1]|] eqn:Es; [|done].
    cbn [mbind option_bind] in Hrun.
    destruct (choices (c :: cands) (route_probabilities scores) g)
      as [[next_junction g1]|] eqn:Ech; [|done].
    cbn [mbind option_bind] in Hrun.
    pose proof (choices_elem_of _ _ _ _ _ Ech) as Hin.
    rewrite <- Ec in Hin. apply list_elem_of_filter in Hin.
    destruct Hin as [Hfresh Hnext].
    rewrite (choices_rng _ _ _ _ _ Ech) in Hrun.
    destruct (IH _ _ _ _ _ _ Hrun)
      as (ext & Hroute & Hpath & Hknown & Hpos & Hdraws & Hstop).
    { intros x. rewrite elem_of_union, elem_of_singleton, elem_of_app,
        list_elem_of_singleton, Hvis. done. }
    exists (next_junction :: ext). split_and!.
    + by rewrite Hroute, <- app_assoc.
    + intros [|i] a b Ha Hb.
      * simpl in Ha, Hb. injection Ha as <-. by injection Hb as <-.
      * by apply (Hpath i).
    + intros x Hx. apply elem_of_cons in Hx. destruct Hx as [->|Hx]; [|by apply Hknown].
      by apply elem_of_get_next_junctions in Hnext as [? _].
    + rewrite Hpos. simpl. lia.
    + by rewrite Hdraws.
    + intros Hlen x Hx. simpl in Hlen.
      replace (route ++ next_junction :: ext) with ((route ++ [next_junction]) ++ ext)
        by (by rewrite <- app_assoc).
      apply Hstop; [lia|]. by rewrite last_cons_default in Hx.
Qed.

(** X3. A route returned by [find_best_route] for a known start is a path of
    the junction graph: all its junctions are known junctions, and each
    junction is followed by one of its next junctions as
    [get_next_junctions] computes them. *)
Theorem find_best_route_path (w : Traci) (start : string)
    (J : gmap string Junction) (g : Rng) (rs : RouteState) :
  find_best_route w start J g = Some rs →
  (∀ x, x ∈ rs_route rs → x ∈ JUNCTIONS)
  ∧ ∀ i a b, rs_route rs !! i = Some a → rs_route rs !! S i = Some b →
             b ∈ get_next_junctions w a.
Proof.
  unfold find_best_route. case_decide as Hin.
  - intros Hrun.
    destruct (route_loop_path _ _ _ _ _ _ _ _ Hrun)
      as (ext & Hroute & Hpath & Hknown & _).
    { intros x. by rewrite elem_of_singleton, list_elem_of_singleton. }
    rewrite Hroute. split; [|exact Hpath].
    intros x Hx. apply elem_of_cons in Hx. destruct Hx as [->|Hx]; [done|].
    by apply Hknown.
  - intros [= <-]. simpl. split; [intros x Hx; by apply elem_of_nil in Hx|].
    intros i a b Ha. done.
Qed.

Lemma find_best_route_path_witness :
  ∃ rs, find_best_route opt_world "J1" opt_junctions opt_rng = Some rs
        ∧ (∀ x, x ∈ rs_route rs → x ∈ JUNCTIONS)
        ∧ ∀ i a b, rs_route rs !! i = Some a → rs_route rs !! S i = Some b →
                   b ∈ get_next_junctions opt_world a.
Proof.
  eexists. split; [vm_compute; reflexivity|].
  apply (find_best_route_path opt_world "J1" opt_junctions opt_rng).
  vm_compute. reflexivity.
Defined.

(** X4. The walk of [find_best_route] goes on until a dead end: when the
    route returned for a known start is shorter than the number of
    junctions, every next junction of its last junction is already on the
    route. *)
Theorem find_best_route_stops_at_dead_end (w : Traci) (start : string)
    (J : gmap string Junction) (g : Rng) (rs : RouteState) (z : string) :
  find_best_route w start J g = Some rs →
  start ∈ JUNCTIONS →
  length (rs_route rs) < length JUNCTIONS →
  last (rs_route rs) = Some z →
  ∀ x, x ∈ get_next_junctions w z → x ∈ rs_route rs.
Proof.
  unfold find_best_route. intros Hrun Hin Hlen Hlast. rewrite decide_True in Hrun by done.
  destruct (route_loop_path _ _ _ _ _ _ _ _ Hrun)
    as (ext & Hroute & _ & _ & _ & _ & Hstop).
  { intros x. by rewrite elem_of_singleton, list_elem_of_singleton. }
  rewrite Hroute in Hlen, Hlast |- *.
  cbn [app] in Hlast. rewrite last_cons_default in Hlast. injection Hlast as <-.
  apply Hstop. simpl in *. lia.
Qed.

Lemma find_best_route_stops_at_dead_end_witness :
  ∃ rs, find_best_route opt_world "J1" opt_junctions opt_rng = Some rs
        ∧ rs_route rs = ["J1"; "J2"]
        ∧ ∀ x, x ∈ get_next_junctions opt_world "J2" → x ∈ rs_route rs.
Proof.
  eexists. split; [vm_compute; reflexivity|]. split; [reflexivity|].
  apply (find_best_route_stops_at_dead_end opt_world "J1" opt_junctions opt_rng).
  - vm_compute. reflexivity.
  - by_decide.
  - vm_compute. lia.
  - reflexivity.
Defined.

(** X5. [find_best_route] draws one random number for each junction it
    appends to the start and none otherwise, and it adds no junction to and
    removes none from the junction table. *)
Theorem find_best_route_draws (w : Traci) (start : string)
    (J : gmap string Junction) (g : Rng) (rs : RouteState) :
  find_best_route w start J g = Some rs →
  pos (rs_rng rs) = pos g + (length (rs_route rs) - 1)
  ∧ draws (rs_rng rs) = draws g
  ∧ dom (rs_junctions rs) = dom J.
Proof.
  intros Hrun.
  assert (dom (rs_junctions rs) = dom J) as Hdom.
  { destruct (find_best_route_spec _ _ _ _ _ Hrun)
      as [[-> _] | (_ & ext & _ & _ & _ & Hseed & _)]; [done|].
    by apply seeded_dom. }
  unfold find_best_route in Hrun. case_decide as Hin.
  - destruct (route_loop_path _ _ _ _ _ _ _ _ Hrun)
      as (ext & Hroute & _ & _ & Hpos & Hdraws & _).
    { intros x. by rewrite elem_of_singleton, list_elem_of_singleton. }
    rewrite Hroute. simpl. rewrite Nat.sub_0_r. done.
  - injection Hrun as <-. simpl. split_and!; [lia | done | done].
Qed.

Lemma find_best_route_draws_witness :
  ∃ rs, find_best_route opt_world "J1" opt_junctions opt_rng = Some rs
        ∧ pos (rs_rng rs) = pos opt_rng + (length (rs_route rs) - 1)
        ∧ draws (rs_rng rs) = draws opt_rng
        ∧ dom (rs_junctions rs) = dom opt_junctions.
Proof.
  eexists. split; [vm_compute; reflexivity|].
  apply (find_best_route_draws opt_world "J1" opt_junctions opt_rng).
  vm_compute. reflexivity.
Defined.

(** ** Scoring and pheromone *)

(** X6. [calculate_route_score] raises a KeyError exactly when one of the
    two junctions is missing from the junction table. Otherwise it scores,
    and scoring the same pair again returns the same score and leaves the
    table as the first call returned it: only the first call writes. *)
Theorem calculate_route_score_again (from_junction to_junction : string)
    (J : gmap string Junction) :
  (calculate_route_score from_junction to_junction J = None
   ↔ J !! from_junction = None ∨ J !! to_junction = None)
  ∧ ∀ s J', calculate_route_score from_junction to_junction J = Some (s, J') →
            calculate_route_score from_junction to_junction J' = Some (s, J').
Proof.
  split.
  - split.
    + intros Hnone.
      destruct (J !! from_junction) as [jf|] eqn:Hf; [|by left].
      destruct (J !! to_junction) as [jt|] eqn:Ht; [|by right].
      by rewrite (calculate_route_score_spec _ _ _ _ _ Hf Ht) in Hnone.
    + intros Hmiss.
      destruct (calculate_route_score from_junction to_junction J) as [[s J']|] eqn:E;
        [|done].
      destruct (calculate_route_score_inv _ _ _ _ _ E) as (jf & jt & Hf & Ht).
      destruct Hmiss; congruence.
  - intros s J' Hrun.
    destruct (calculate_route_score_effect _ _ _ _ _ Hrun)
      as (-> & Hseed & jf' & Hf' & Hentry).
    destruct (calculate_route_score_inv _ _ _ _ _ Hrun) as (jf & jt & Hf & Ht).
    destruct (seeded_lookup _ _ _ _ Hseed Ht) as (jt' & Ht' & _).
    rewrite (calculate_route_score_spec _ _ _ _ _ Hf' Ht').
    rewrite decide_True by (by apply elem_of_dom).
    by rewrite (score_of_seeded _ _ _ _ Hseed).
Qed.

Lemma calculate_route_score_again_witness :
  ∃ s J', calculate_route_score "J1" "J2" fresh_junctions = Some (s, J')
          ∧ J' ≠ fresh_junctions
          ∧ calculate_route_score "J1" "J2" J' = Some (s, J').
Proof.
  eexists _, _. split; [vm_compute; reflexivity|]. split.
  - intros Heq. apply (f_equal (λ m, pheromone <$> m !! "J1")) in Heq.
    vm_compute in Heq. discriminate.
  - apply (calculate_route_score_again "J1" "J2" fresh_junctions).
    vm_compute. reflexivity.
Defined.

Lemma Qdiv_le_denominator (x d1 d2 : Q) :
  (0 <= x)%Q → (0 < d1)%Q → (d1 <= d2)%Q → (x / d2 <= x / d1)%Q.
Proof.
  intros Hx Hd1 Hd. assert (0 < d2)%Q as Hd2 by lra.
  apply Qle_shift_div_l; [done|].
  assert (x / d2 * d1 == x * (d1 / d2))%Q as -> by (field; lra).
  assert (d1 / d2 <= 1)%Q as Hr by (apply Qle_shift_div_r; lra).
  assert (0 <= d1 / d2)%Q as Hr0 by (apply Qle_shift_div_l; lra).
  nra.
Qed.

(** X7. The score of a pair lies between 0 and the square of the pheromone
    of the pair, and it does not grow with congestion: raising the traffic
    level of the target junction, everything else unchanged, does not raise
    the score. *)
Theorem calculate_route_score_congestion (from_junction to_junction : string)
    (J : gmap string Junction) (jt : Junction) (n : nat) (s1 s2 : Q)
    (J1 J2 : gmap string Junction) :
  J !! to_junction = Some jt → traffic_level jt ≤ n →
  calculate_route_score from_junction to_junction J = Some (s1, J1) →
  calculate_route_score from_junction to_junction
    (<[to_junction := set_traffic_level jt n]> J) = Some (s2, J2) →
  (0 <= s2)%Q ∧ (s2 <= s1)%Q
  ∧ (s1 <= default 1%Q (pheromone (J !!! from_junction) !! to_junction) ^ 2)%Q.
Proof.
  intros Ht Hn H1 H2.
  destruct (calculate_route_score_effect _ _ _ _ _ H1) as (-> & _ & _).
  destruct (calculate_route_score_effect _ _ _ _ _ H2) as (-> & _ & _).
  split; [apply score_of_nonneg|].
  unfold score_of. rewrite !lookup_total_alt, lookup_insert_eq, Ht.
  cbn [default from_option Datatypes.id traffic_level set_traffic_level].
  assert (pheromone (default inhabitant
            (<[to_junction := set_traffic_level jt n]> J !! from_junction))
          = pheromone (default inhabitant (J !! from_junction))) as ->.
  { destruct (decide (to_junction = from_junction)) as [<-|Hne].
    - by rewrite lookup_insert_eq, Ht.
    - by rewrite lookup_insert_ne. }
  set (p := default 1%Q _).
  assert (0 <= p ^ 2)%Q as Hp by (simpl; nra).
  assert (∀ k : nat, (1 <= inject_Z (Z.of_nat (k + 1)))%Q) as Hpos.
  { intros k. change 1%Q with (inject_Z 1). rewrite <- Zle_Qle. lia. }
  split.
  - apply Qdiv_le_denominator; [done | |].
    + specialize (Hpos (traffic_level jt)). lra.
    + rewrite <- Zle_Qle. lia.
  - apply Qle_shift_div_r.
    + specialize (Hpos (traffic_level jt)). lra.
    + specialize (Hpos (traffic_level jt)). nra.
Qed.

Lemma calculate_route_score_congestion_witness :
  ∃ s1 s2 J1 J2,
    calculate_route_score "J1" "J3" scored_junctions = Some (s1, J1)
    ∧ calculate_route_score "J1" "J3"
        (<["J3" := set_traffic_level (mkJunction "J3" ∅ 0) 4]> scored_junctions)
      = Some (s2, J2)
    ∧ (0 <= s2)%Q ∧ (s2 <= s1)%Q.
Proof.
  eexists _, _, _, _. split; [vm_compute; reflexivity|].
  split; [vm_compute; reflexivity|].
  destruct (calculate_route_score_congestion "J1" "J3" scored_junctions
              (mkJunction "J3" ∅ 0) 4 _ _ _ _
              ltac:(vm_compute; reflexivity) ltac:(vm_compute; lia)
              ltac:(vm_compute; reflexivity) ltac:(vm_compute; reflexivity))
    as (H0 & Hle & _).
  split; [exact H0 | exact Hle].
Defined.

(** X8. [update_pheromone] changes nothing but the one pheromone entry, and
    repeated deposits of a non-negative amount [x] keep the entry between 0
    and [20 * x], the fixed point of the update for the decay 0.95: for any
    number of updates, starting from a value in this range or from no entry,
    the stored value stays in the range. *)
Theorem update_pheromone_bounded (self : Junction) (b : string) (x : Q) (n : nat) :
  (0 <= x)%Q →
  (0 <= default 0%Q (pheromone self !! b))%Q →
  (default 0%Q (pheromone self !! b) <= 20 * x)%Q →
  id (Nat.iter n (λ j, update_pheromone j b x) self) = id self
  ∧ traffic_level (Nat.iter n (λ j, update_pheromone j b x) self) = traffic_level self
  ∧ (∀ c, c ≠ b → pheromone (Nat.iter n (λ j, update_pheromone j b x) self) !! c
                  = pheromone self !! c)
  ∧ (0 <= default 0%Q
            (pheromone (Nat.iter n (λ j, update_pheromone j b x) self) !! b))%Q
  ∧ (default 0%Q (pheromone (Nat.iter n (λ j, update_pheromone j b x) self) !! b)
     <= 20 * x)%Q.
Proof.
  intros Hx Hlo Hhi. induction n as [|n (Hid & Htr & Hframe & Hlo' & Hhi')]; [done|].
  rewrite Nat.iter_succ. set (prev := Nat.iter n _ self) in *. split_and!.
  - done.
  - done.
  - intros c Hc. by rewrite update_pheromone_lookup_ne, Hframe.
  - rewrite update_pheromone_lookup. simpl. unfold PHEROMONE_DECAY. lra.
  - rewrite update_pheromone_lookup. simpl. unfold PHEROMONE_DECAY. lra.
Qed.

Lemma update_pheromone_bounded_witness :
  (0 <= default 0%Q (pheromone
                       (Nat.iter 3 (λ j, update_pheromone j "J2" 1) (new_Junction "J1"))
                     !! "J2"))%Q
  ∧ (default 0%Q (pheromone
                    (Nat.iter 3 (λ j, update_pheromone j "J2" 1) (new_Junction "J1"))
                  !! "J2") <= 20 * 1)%Q.
Proof.
  destruct (update_pheromone_bounded (new_Junction "J1") "J2" 1 3)
    as (_ & _ & _ & Hlo & Hhi); try (vm_compute; discriminate).
  split; [exact Hlo | exact Hhi].
Defined.

(** ** Congestion *)

(** X9. [update_traffic_level] keeps the identity and the pheromone of the
    junction and replaces its traffic level, whatever it was. The vehicles of
    an incoming edge are counted once for every non-empty link group that
    starts on it: when all link groups of the junction start on the same
    edge, which carries [n] vehicles, the traffic level is [n] times the
    number of non-empty link groups. *)
Theorem update_traffic_level_counts_groups (w : Traci) (self : Junction)
    (e : string) (n : nat) :
  (∀ l rest, l :: rest ∈ getControlledLinks w (id self) →
             split_head "_" l.1.1 = e) →
  getLastStepVehicleNumber w e = Some n →
  update_traffic_level w self
  = mkJunction (id self) (pheromone self)
      (n * length (filter (λ g, g ≠ []) (getControlledLinks w (id self)))).
Proof.
  intros Hedge Hn. unfold update_traffic_level, set_traffic_level. f_equal.
  rewrite <- (Nat.add_0_l (n * _)). generalize 0.
  revert Hedge. generalize (getControlledLinks w (id self)). intros cls.
  induction cls as [|links cls IH]; intros Hedge acc; cbn [foldl].
  - rewrite filter_nil. simpl. lia.
  - rewrite IH by (intros l rest Hin; apply (Hedge l rest); by right).
    destruct links as [|[[from_lane to_lane] via] rest].
    + rewrite filter_cons, decide_False by (intros H; by apply H). done.
    + rewrite filter_cons, decide_True by done.
      pose proof (Hedge (from_lane, to_lane, via) rest ltac:(by left)) as He.
      cbn [fst snd] in He. rewrite He, Hn. simpl length. lia.
Qed.

Lemma update_traffic_level_counts_groups_witness :
  update_traffic_level counted_world (mkJunction "J1" ∅ 7)
  = mkJunction "J1" ∅ (3 * 2).
Proof.
  refine (update_traffic_level_counts_groups counted_world (mkJunction "J1" ∅ 7)
            "N1J1" 3 _ _); [|reflexivity].
  intros l rest Hin. cbn in Hin.
  repeat (apply elem_of_cons in Hin; destruct Hin as [Heq|Hin];
          [first [injection Heq as -> ->; reflexivity | discriminate Heq]|]).
  by apply elem_of_nil in Hin.
Defined.

(** ** Edges of an ambulance *)

Lemma strip_lane0_app (e : string) : strip_lane0 (e +:+ "_0") = e.
Proof.
  unfold strip_lane0.
  rewrite (proj2 (endswith_spec (e +:+ "_0") "_0")) by (by exists e).
  apply drop_last2_app.
Qed.

(** X10. [get_ambulance_route_info] returns the pair (None, None) for a
    vehicle that is not in the simulation. For a vehicle that is, with route
    index [i >= -1], it returns the road of the vehicle and the edge at
    position [i + 1] of its route, each with one trailing "_0" removed (so an
    edge name [e_0] becomes [e]), and None as the next edge when the vehicle
    is on the last edge of its route. For a route index below [-len(route) - 1]
    the indexing of the route raises an IndexError. *)
Theorem get_ambulance_route_info_spec (w : Traci) (ambulance_id : string) :
  (ambulance_id ∉ getIDList w →
   get_ambulance_route_info w ambulance_id = Some (None, None))
  ∧ (ambulance_id ∈ getIDList w → (-1 ≤ getRouteIndex w ambulance_id)%Z →
     get_ambulance_route_info w ambulance_id
     = Some (Some (strip_lane0 (getRoadID w ambulance_id)),
             strip_lane0 <$> getRoute w ambulance_id
                             !! Z.to_nat (getRouteIndex w ambulance_id + 1)))
  ∧ (ambulance_id ∈ getIDList w →
     (getRouteIndex w ambulance_id
      < - Z.of_nat (length (getRoute w ambulance_id)) - 1)%Z →
     get_ambulance_route_info w ambulance_id = None)
  ∧ ∀ e, strip_lane0 (e +:+ "_0") = e.
Proof.
  split_and!.
  - intros Habs. unfold get_ambulance_route_info. by rewrite decide_False.
  - intros Hin Hidx. unfold get_ambulance_route_info. rewrite decide_True by done.
    fold (strip_lane0 (getRoadID w ambulance_id)).
    set (route := getRoute w ambulance_id). set (i := getRouteIndex w ambulance_id) in *.
    destruct (i <? Z.of_nat (length route) - 1)%Z eqn:E.
    + apply Z.ltb_lt in E. unfold py_index.
      rewrite (proj2 (Z.leb_le 0 _)) by lia.
      destruct (lookup_lt_is_Some_2 route (Z.to_nat (i + 1))) as [e He]; [lia|].
      rewrite He. cbn [fmap option_fmap option_map mbind option_bind truthy default].
      unfold strip_lane0. destruct (String.eqb e "") eqn:Ee.
      * apply String.eqb_eq in Ee. subst e. done.
      * cbn [negb andb]. unfold Datatypes.id. by destruct (endswith e "_0").
    + apply Z.ltb_ge in E. cbn [mbind option_bind truthy andb].
      rewrite lookup_ge_None_2 by lia. done.
  - intros Hin Hidx. unfold get_ambulance_route_info. rewrite decide_True by done.
    rewrite (proj2 (Z.ltb_lt _ _)) by lia. unfold py_index.
    rewrite (proj2 (Z.leb_gt 0 _)) by lia.
    rewrite (proj2 (Z.leb_gt 0 _)) by lia. done.
  - apply strip_lane0_app.
Qed.

Lemma get_ambulance_route_info_spec_witness :
  get_ambulance_route_info (arb_world ["ambulance_1"]) "ambulance_2" = Some (None, None)
  ∧ get_ambulance_route_info (arb_world ["ambulance_1"]) "ambulance_1"
    = Some (Some (strip_lane0 "J1J2"), strip_lane0 <$> ["J1J2"; "J2J3"] !! 1).
Proof.
  destruct (get_ambulance_route_info_spec (arb_world ["ambulance_1"]) "ambulance_2")
    as (Habs & _).
  destruct (get_ambulance_route_info_spec (arb_world ["ambulance_1"]) "ambulance_1")
    as (_ & Hin & _).
  split.
  - apply Habs. by_decide.
  - apply Hin; [by_decide | vm_compute; discriminate].
Defined.

(** ** The priority order, continued *)

Lemma insert_by_key_front (p : nat * string) (l : list (nat * string)) :
  p.1 = 0 → insert_by_key p l = p :: l.
Proof.
  intros Hp. destruct l as [|q l]; cbn [insert_by_key]; [done|].
  by rewrite (proj2 (Nat.leb_le _ _)) by lia.
Qed.

Lemma insert_by_key_middle (p : nat * string) (zeros ones : list (nat * string)) :
  p.1 = 1 → Forall (λ q, q.1 = 0) zeros → Forall (λ q, 1 ≤ q.1) ones →
  insert_by_key p (zeros ++ ones) = zeros ++ p :: ones.
Proof.
  intros Hp Hz Ho. induction Hz as [|z zeros Hz _ IH].
  - destruct Ho as [|o ones Ho _]; [done|]. cbn [app insert_by_key].
    by rewrite (proj2 (Nat.leb_le _ _)) by lia.
  - cbn [app insert_by_key]. rewrite (proj2 (Nat.leb_gt _ _)) by lia.
    by rewrite IH.
Qed.

Lemma sort_by_key_two_keys (k : string → nat) (l : list string) :
  (∀ x, k x ≤ 1) →
  (sort_by_key ((λ x, (k x, x)) <$> l)).*2
  = filter (λ x, k x = 0) l ++ filter (λ x, k x ≠ 0) l
  ∧ sort_by_key ((λ x, (k x, x)) <$> l)
    = ((λ x, (k x, x)) <$> filter (λ x, k x = 0) l)
      ++ ((λ x, (k x, x)) <$> filter (λ x, k x ≠ 0) l).
Proof.
  intros Hk.
  assert (sort_by_key ((λ x, (k x, x)) <$> l)
    = ((λ x, (k x, x)) <$> filter (λ x, k x = 0) l)
      ++ ((λ x, (k x, x)) <$> filter (λ x, k x ≠ 0) l)) as Hsort.
  { induction l as [|x l IH]; [done|].
    cbn [fmap list_fmap sort_by_key]. change (list_fmap _ _ ?f l) with (f <$> l).
    rewrite IH, !filter_cons.
    destruct (decide (k x = 0)) as [H0|H0].
    - rewrite decide_False by lia. by rewrite insert_by_key_front.
    - rewrite decide_True by done. rewrite insert_by_key_middle; [done | | |].
      + simpl. specialize (Hk x). lia.
      + apply Forall_fmap, Forall_forall. intros y Hy.
        apply list_elem_of_filter in Hy. by destruct Hy.
      + apply Forall_fmap, Forall_forall. intros y Hy.
        apply list_elem_of_filter in Hy. destruct Hy as [Hy _]. simpl. lia. }
  split; [|done]. rewrite Hsort, fmap_app, <- !list_fmap_compose.
  by rewrite !list_fmap_id.
Qed.

Lemma priority_keys_mapM (l : list string) :
  (∀ x, x ∈ l → is_Some (AMBULANCE_PRIORITIES !! x)) →
  mapM (λ x, k ← priority_key x; Some (k, x)) l
  = Some ((λ x, (if is_code_black x then 0 else 1, x)) <$> l).
Proof.
  induction l as [|x l IH]; intros Hall; [done|].
  cbn [mapM]. rewrite IH by (intros y Hy; apply Hall; by right).
  destruct (Hall x) as [code Hcode]; [by left|].
  unfold priority_key, is_code_black. rewrite Hcode. cbn.
  destruct (String.eqb code "CODE_BLACK") eqn:E.
  - apply String.eqb_eq in E. subst code. by rewrite bool_decide_eq_true_2.
  - apply String.eqb_neq in E. rewrite bool_decide_eq_false_2; [done|congruence].
Qed.

(** X11. The sort of the ambulances by emergency code raises a KeyError when
    an ambulance has no code. Otherwise it returns the ambulances with code
    CODE_BLACK, in the order they had, followed by all other ambulances, in
    the order they had. *)
Theorem sort_by_priority_partition (l : list string) :
  ((∃ x, x ∈ l ∧ AMBULANCE_PRIORITIES !! x = None) → sort_by_priority l = None)
  ∧ ((∀ x, x ∈ l → is_Some (AMBULANCE_PRIORITIES !! x)) →
     sort_by_priority l
     = Some (filter (λ x, is_code_black x = true) l
             ++ filter (λ x, is_code_black x ≠ true) l)).
Proof.
  split.
  - intros (x & Hx & Hnone). unfold sort_by_priority.
    destruct (mapM _ l) as [keyed|] eqn:E; [|done]. exfalso.
    apply mapM_Some in E. apply list_elem_of_lookup in Hx. destruct Hx as [i Hi].
    destruct (Forall2_lookup_l _ _ _ _ _ E Hi) as (y & _ & Hy).
    unfold priority_key in Hy. by rewrite Hnone in Hy.
  - intros Hall. unfold sort_by_priority. rewrite (priority_keys_mapM l Hall).
    cbn [mbind option_bind]. f_equal.
    destruct (sort_by_key_two_keys (λ x, if is_code_black x then 0 else 1) l) as [-> _].
    { intros x. destruct (is_code_black x); lia. }
    f_equal; apply list_filter_iff; intros x; destruct (is_code_black x); split;
      intros; try done; try lia.
Qed.

Lemma sort_by_priority_partition_witness :
  sort_by_priority ["ambulance_1"; "ambulance_3"] = None
  ∧ sort_by_priority ["ambulance_1"; "ambulance_2"; "ambulance_1"]
    = Some (filter (λ x, is_code_black x = true)
              ["ambulance_1"; "ambulance_2"; "ambulance_1"]
            ++ filter (λ x, is_code_black x ≠ true)
                 ["ambulance_1"; "ambulance_2"; "ambulance_1"]).
Proof.
  destruct (sort_by_priority_partition ["ambulance_1"; "ambulance_3"]) as [Hnone _].
  destruct (sort_by_priority_partition ["ambulance_1"; "ambulance_2"; "ambulance_1"])
    as [_ Hsome].
  split.
  - apply Hnone. exists "ambulance_3". split; [by_decide | reflexivity].
  - apply Hsome. intros x Hx. each_elem Hx ltac:(eexists; vm_compute; reflexivity).
Defined.

Lemma approaching_filter (w : Traci) (ids l : list string) :
  approaching w ids = Some l → l = filter (λ x, is_approaching w x = true) ids.
Proof.
  revert l. induction ids as [|x ids IH]; intros l; cbn [approaching].
  - by intros [= <-].
  - destruct (get_ambulance_route_info w x) as [[c n]|] eqn:E; [|done].
    cbn [mbind option_bind].
    destruct (approaching w ids) as [tl|]; [|done]. cbn [mbind option_bind].
    assert (is_approaching w x = truthy c && truthy n) as Happ
      by (unfold is_approaching; by rewrite E).
    intros [= <-]. rewrite filter_cons, <- (IH tl eq_refl).
    destruct (truthy c && truthy n).
    + by rewrite decide_True.
    + rewrite decide_False; [done|]. by rewrite Happ.
Qed.

(** X12. When the arbiter can list the approaching ambulances, the list holds
    exactly the ambulances of AMBULANCE_IDS that are in the simulation with
    a non-empty current edge and a non-empty next edge, and ambulance_2 (CODE_BLACK)
    comes before ambulance_1 (CODE_RED). *)
Theorem approaching_ambulances_order (w : Traci) (l : list string) :
  approaching_ambulances w = Some l →
  l = filter (λ x, is_approaching w x = true) ["ambulance_2"; "ambulance_1"].
Proof.
  unfold approaching_ambulances.
  destruct (approaching w AMBULANCE_IDS) as [l0|] eqn:E; [|done].
  cbn [mbind option_bind]. apply approaching_filter in E. subst l0.
  unfold AMBULANCE_IDS. rewrite !filter_cons, filter_nil.
  destruct (decide (is_approaching w "ambulance_1" = true)),
           (decide (is_approaching w "ambulance_2" = true));
    vm_compute; by intros [= <-].
Qed.

Lemma approaching_ambulances_order_witness :
  ["ambulance_2"; "ambulance_1"]
  = filter (λ x, is_approaching (arb_world ["ambulance_1"; "ambulance_2"]) x = true)
      ["ambulance_2"; "ambulance_1"].
Proof.
  apply (approaching_ambulances_order (arb_world ["ambulance_1"; "ambulance_2"])).
  vm_compute. reflexivity.
Defined.

(** ** The command of the arbiter *)

Lemma length_list_ascii_of_string (s : string) :
  length (String.list_ascii_of_string s) = String.length s.
Proof. induction s as [|c s IH]; simpl; [done|]. by rewrite IH. Qed.

Lemma set_signals_inv (w w' : Traci) (green_junction : string)
    (routes : gmap string (list string)) :
  set_signals_for_ambulance true w green_junction routes = Some w' →
  ∃ ambulances s,
    approaching_ambulances w = Some ambulances
    ∧ ambulances_loop w green_junction routes (getControlledLinks w green_junction)
        ambulances
        (mkSignals
           (replicate (String.length (getRedYellowGreenState w green_junction))
                      "r"%char) ∅) = Some s
    ∧ w' = setRedYellowGreenState w green_junction
             (String.string_of_list_ascii (current_state s)).
Proof.
  unfold set_signals_for_ambulance. cbn [negb].
  destruct (approaching_ambulances w) as [ambulances|]; [|done].
  cbn [mbind option_bind]. rewrite length_list_ascii_of_string.
  destruct (ambulances_loop _ _ _ _ _ _) as [s|] eqn:E; [|done].
  cbn [mbind option_bind]. intros [= <-]. by exists ambulances, s.
Qed.

Lemma respects_red_green (cls : list (list Link)) (s s' : Signals) :
  respects cls s s' →
  Forall (λ c, c = "r"%char ∨ c = "G"%char) (current_state s) →
  Forall (λ c, c = "r"%char ∨ c = "G"%char) (current_state s').
Proof.
  intros (_ & _ & Hch) Hs. apply Forall_lookup. intros i c Hc.
  destruct (decide (current_state s' !! i = current_state s !! i)) as [Heq|Hne].
  - rewrite Heq in Hc. by eapply Forall_lookup in Hs.
  - destruct (Hch i Hne) as [HG _]. rewrite HG in Hc. injection Hc as <-. by right.
Qed.

(** X13. With pre-emption enabled, a call of the arbiter that returns has
    done nothing but replace the signal state of the arbitrated junction:
    the new state has as many characters as the old one, each of them 'r' or
    'G', and the states of all other junctions and all other data of the
    simulator are as before. *)
Theorem set_signals_frame (w w' : Traci) (green_junction : string)
    (routes : gmap string (list string)) :
  set_signals_for_ambulance true w green_junction routes = Some w' →
  ∃ state : list ascii,
    w' = setRedYellowGreenState w green_junction (String.string_of_list_ascii state)
    ∧ getRedYellowGreenState w' green_junction = String.string_of_list_ascii state
    ∧ (∀ j, j ≠ green_junction →
            getRedYellowGreenState w' j = getRedYellowGreenState w j)
    ∧ length state = String.length (getRedYellowGreenState w green_junction)
    ∧ Forall (λ c, c = "r"%char ∨ c = "G"%char) state.
Proof.
  intros Hrun. destruct (set_signals_inv _ _ _ _ Hrun) as (ambulances & s & _ & Hloop & ->).
  exists (current_state s).
  pose proof (ambulances_loop_respects _ _ _ _ _ _ _ Hloop) as Hres.
  split_and!.
  - done.
  - cbn. by rewrite decide_True.
  - intros j Hj. cbn. by rewrite decide_False.
  - destruct Hres as (-> & _). cbn. apply length_replicate.
  - apply (respects_red_green _ _ _ Hres). cbn.
    apply Forall_forall. intros c Hc. apply elem_of_replicate in Hc. left. tauto.
Qed.

Lemma set_signals_frame_witness :
  ∃ state : list ascii,
    setRedYellowGreenState (arb_world ["ambulance_1"]) "J2" "GGrr"
    = setRedYellowGreenState (arb_world ["ambulance_1"]) "J2"
        (String.string_of_list_ascii state)
    ∧ length state = 4
    ∧ Forall (λ c, c = "r"%char ∨ c = "G"%char) state.
Proof.
  destruct (set_signals_frame (arb_world ["ambulance_1"])
              (setRedYellowGreenState (arb_world ["ambulance_1"]) "J2" "GGrr")
              "J2" routes_through ltac:(vm_compute; reflexivity))
    as (state & Heq & _ & _ & Hlen & Hall).
  exists state. split_and!; [exact Heq | exact Hlen | exact Hall].
Defined.

Lemma ambulances_loop_origin (w : Traci) (green_junction : string)
    (routes : gmap string (list string)) (cls : list (list Link)) :
  ∀ ambulances s s',
    ambulances_loop w green_junction routes cls ambulances s = Some s' →
    ∀ i, current_state s' !! i ≠ current_state s !! i →
         ∃ a c n l rest sa sa',
           a ∈ ambulances
           ∧ get_ambulance_route_info w a = Some (Some c, n)
           ∧ c ≠ "" ∧ truthy n = true
           ∧ cls !! i = Some (l :: rest)
           ∧ links_loop c (route_next_junction green_junction (default [] (routes !! a)))
               (default [] (routes !! a)) 0 cls sa = Some sa'
           ∧ respects cls s sa
           ∧ current_state sa' !! i ≠ current_state sa !! i.
Proof.
  induction ambulances as [|a ambulances IH]; intros s s' Hrun i Hi.
  { injection Hrun as <-. done. }
  cbn [ambulances_loop] in Hrun.
  destruct (ambulance_step w green_junction routes cls a s) as [s1|] eqn:E; [|done].
  cbn [mbind option_bind] in Hrun.
  pose proof (ambulance_step_respects _ _ _ _ _ _ _ E) as Hres1.
  destruct (decide (current_state s' !! i = current_state s1 !! i)) as [Heq|Hne].
  - rewrite Heq in Hi.
    destruct (ambulance_step_inv _ _ _ _ _ _ _ E)
      as (c & n & Hinfo & [[_ ->] | (Hc & Hn & Hloop)]); [done|].
    destruct c as [c|]; [|done].
    destruct (proj1 (links_loop_spec _ _ _ cls [] s s1 Hloop)) as (_ & _ & Hch & _).
    destruct (Hch i Hi) as (_ & l & rest & Hl & _).
    exists a, c, n, l, rest, s, s1.
    split_and!; [by left | done | by intros -> | done | done | done
                | apply respects_refl | done].
  - destruct (IH _ _ Hrun i Hne)
      as (a' & c & n & l & rest & sa & sa' & Ha & Hinfo & Hc & Hn & Hl & Hloop & Hres & Hch).
    exists a', c, n, l, rest, sa, sa'.
    split_and!; [by right | done | done | done | done | done
                | by eapply respects_trans | done].
Qed.

Lemma sort_by_priority_elem (l l' : list string) (x : string) :
  sort_by_priority l = Some l' → x ∈ l' → x ∈ l.
Proof.
  unfold sort_by_priority. destruct (mapM _ l) as [keyed|] eqn:E; [|done].
  cbn [mbind option_bind]. intros [= <-] Hx.
  apply list_elem_of_fmap in Hx. destruct Hx as (p & -> & Hp).
  apply (proj1 (elem_of_sort_by_key _ _)) in Hp.
  apply mapM_Some in E. apply list_elem_of_lookup in Hp. destruct Hp as [i Hi].
  destruct (Forall2_lookup_r _ _ _ _ _ E Hi) as (y & Hy & Hf).
  destruct (priority_key y) as [k|]; [|done]. cbn [mbind option_bind] in Hf.
  injection Hf as <-. simpl. by eapply list_elem_of_lookup_2.
Qed.

Lemma approaching_ambulances_elem (w : Traci) (l : list string) (x : string) :
  approaching_ambulances w = Some l → x ∈ l →
  x ∈ AMBULANCE_IDS ∧ is_approaching w x = true.
Proof.
  unfold approaching_ambulances.
  destruct (approaching w AMBULANCE_IDS) as [l0|] eqn:E; [|done].
  cbn [mbind option_bind]. intros Hsort Hx.
  apply (sort_by_priority_elem _ _ _ Hsort) in Hx.
  apply approaching_filter in E. subst l0.
  apply list_elem_of_filter in Hx. by destruct Hx.
Qed.

Lemma get_ambulance_route_info_present (w : Traci) (a c : string) (n : option string) :
  get_ambulance_route_info w a = Some (Some c, n) → a ∈ getIDList w.
Proof.
  unfold get_ambulance_route_info. case_decide; [done|]. by intros [=].
Qed.

Lemma final_state_lookup (w w' : Traci) (green_junction : string) (st : list ascii) :
  w' = setRedYellowGreenState w green_junction (String.string_of_list_ascii st) →
  String.list_ascii_of_string (getRedYellowGreenState w' green_junction) = st.
Proof.
  intros ->. cbn. rewrite decide_True by done.
  apply String.list_ascii_of_string_of_list_ascii.
Qed.

(** X14. A link is GREEN in the command of the arbiter only if an ambulance
    of AMBULANCE_IDS is in the simulation with a non-empty current and next
    edge, the link starts on the current edge of that ambulance, and the
    link passes the test of the arbiter for that ambulance and its route. *)
Theorem green_link_has_ambulance (w w' : Traci) (green_junction : string)
    (routes : gmap string (list string)) (i : nat) :
  set_signals_for_ambulance true w green_junction routes = Some w' →
  String.list_ascii_of_string (getRedYellowGreenState w' green_junction) !! i
  = Some "G"%char →
  ∃ a c n l rest,
    a ∈ AMBULANCE_IDS ∧ a ∈ getIDList w
    ∧ get_ambulance_route_info w a = Some (Some c, n)
    ∧ c ≠ "" ∧ truthy n = true
    ∧ getControlledLinks w green_junction !! i = Some (l :: rest)
    ∧ c = (direction_key l).1
    ∧ grants c (route_next_junction green_junction (default [] (routes !! a)))
        (default [] (routes !! a)) l = true.
Proof.
  intros Hrun HG.
  destruct (set_signals_inv _ _ _ _ Hrun) as (ambulances & s & Happ & Hloop & Hw).
  rewrite (final_state_lookup _ _ _ _ Hw) in HG.
  destruct (ambulances_loop_origin _ _ _ _ _ _ _ Hloop i)
    as (a & c & n & l & rest & sa & sa' & Ha & Hinfo & Hc & Hn & Hl & Hlinks & _ & Hch).
  { rewrite HG. cbn [current_state]. intros Heq. symmetry in Heq.
    apply lookup_replicate in Heq. by destruct Heq. }
  destruct (proj1 (links_loop_spec _ _ _ _ [] sa sa' Hlinks)) as (_ & _ & Hgr & _).
  destruct (Hgr i Hch) as (_ & l' & rest' & Hl' & Hgrant & _).
  cbn [app] in Hl'. rewrite Hl in Hl'. injection Hl' as <- <-.
  destruct (approaching_ambulances_elem _ _ _ Happ Ha) as [Hids _].
  exists a, c, n, l, rest. split_and!; try done.
  - by eapply get_ambulance_route_info_present.
  - unfold grants in Hgrant. apply andb_true_iff in Hgrant.
    destruct Hgrant as [Heq _]. by apply String.eqb_eq in Heq.
Qed.

Lemma green_link_has_ambulance_witness :
  ∃ a c n l rest,
    a ∈ AMBULANCE_IDS ∧ a ∈ getIDList (arb_world ["ambulance_1"])
    ∧ get_ambulance_route_info (arb_world ["ambulance_1"]) a = Some (Some c, n)
    ∧ c ≠ "" ∧ truthy n = true
    ∧ getControlledLinks (arb_world ["ambulance_1"]) "J2" !! 1 = Some (l :: rest)
    ∧ c = (direction_key l).1
    ∧ grants c (route_next_junction "J2" (default [] (routes_through !! a)))
        (default [] (routes_through !! a)) l = true.
Proof.
  apply (green_link_has_ambulance (arb_world ["ambulance_1"])
           (setRedYellowGreenState (arb_world ["ambulance_1"]) "J2" "GGrr")
           "J2" routes_through 1); vm_compute; reflexivity.
Defined.

(** X15. When every ambulance of AMBULANCE_IDS is out of the simulation or on
    the last edge of its route, so that it has no next edge, the arbiter
    with pre-emption enabled sets every link of the junction to RED. *)
Theorem no_next_edge_all_red (w : Traci) (green_junction : string)
    (routes : gmap string (list string)) :
  (∀ a, a ∈ AMBULANCE_IDS →
        a ∉ getIDList w
        ∨ (Z.of_nat (length (getRoute w a)) - 1 ≤ getRouteIndex w a)%Z) →
  set_signals_for_ambulance true w green_junction routes
  = Some (setRedYellowGreenState w green_junction
            (String.string_of_list_ascii
               (replicate (String.length (getRedYellowGreenState w green_junction))
                          "r"%char))).
Proof.
  intros Hnone.
  assert (∀ a, a ∈ AMBULANCE_IDS →
               ∃ c, get_ambulance_route_info w a = Some (c, None)) as Hinfo.
  { intros a Ha. unfold get_ambulance_route_info.
    destruct (Hnone a Ha) as [Habs|Hlast].
    - rewrite decide_False by done. by exists None.
    - case_decide; [|by exists None].
      rewrite (proj2 (Z.ltb_ge _ _)) by lia. cbn. eauto. }
  unfold set_signals_for_ambulance, approaching_ambulances, AMBULANCE_IDS in *.
  cbn [negb approaching].
  destruct (Hinfo "ambulance_1") as [c1 ->]; [by left|].
  destruct (Hinfo "ambulance_2") as [c2 ->]; [right; by left|].
  cbn [mbind option_bind truthy]. rewrite !andb_false_r.
  by rewrite length_list_ascii_of_string.
Qed.

Lemma no_next_edge_all_red_witness :
  set_signals_for_ambulance true last_edge_world "J2" ∅
  = Some (setRedYellowGreenState last_edge_world "J2"
            (String.string_of_list_ascii
               (replicate
                  (String.length (getRedYellowGreenState last_edge_world "J2"))
                  "r"%char))).
Proof.
  apply (no_next_edge_all_red last_edge_world "J2" ∅).
  intros a Ha. each_elem Ha ltac:(first [left; by_decide | right; by vm_compute]).
Defined.

Lemma respects_green (cls : list (list Link)) (s s' : Signals) (i : nat) :
  respects cls s s' →
  current_state s !! i = Some "G"%char → current_state s' !! i = Some "G"%char.
Proof.
  intros (_ & _ & Hch) HG.
  destruct (decide (current_state s' !! i = current_state s !! i)) as [->|Hne]; [done|].
  by destruct (Hch i Hne).
Qed.

(** X16. The first ambulance of the priority order is always served: for
    every link from its current edge that passes the test of the arbiter for
    this ambulance, a link of the same direction is GREEN in the command. *)
Theorem first_ambulance_served (w w' : Traci) (green_junction : string)
    (routes : gmap string (list string)) (X : string) (others : list string)
    (c : string) (n : option string) (i : nat) (l : Link) (rest : list Link) :
  approaching_ambulances w = Some (X :: others) →
  get_ambulance_route_info w X = Some (Some c, n) →
  set_signals_for_ambulance true w green_junction routes = Some w' →
  getControlledLinks w green_junction !! i = Some (l :: rest) →
  grants c (route_next_junction green_junction (default [] (routes !! X)))
    (default [] (routes !! X)) l = true →
  ∃ j l' rest',
    getControlledLinks w green_junction !! j = Some (l' :: rest')
    ∧ direction_key l' = direction_key l
    ∧ String.list_ascii_of_string (getRedYellowGreenState w' green_junction) !! j
      = Some "G"%char.
Proof.
  intros Happ Hinfo Hrun Hl Hgrant.
  destruct (set_signals_inv _ _ _ _ Hrun) as (ambulances & s & Happ' & Hloop & Hw).
  rewrite Happ in Happ'. injection Happ' as <-.
  rewrite (final_state_lookup _ _ _ _ Hw).
  destruct (approaching_ambulances_elem _ _ X Happ) as [_ HX]; [by left|].
  unfold is_approaching in HX. rewrite Hinfo in HX.
  apply andb_true_iff in HX. destruct HX as [Hc Hn].
  cbn [ambulances_loop] in Hloop.
  rewrite (ambulance_step_links_loop _ _ _ _ _ _ c n Hinfo) in Hloop;
    [|by intros -> | done].
  destruct (links_loop _ _ _ _ _ _) as [s1|] eqn:E1; [|done].
  cbn [mbind option_bind] in Hloop.
  destruct (links_loop_spec _ _ _ _ [] _ s1 E1) as [(_ & _ & _ & Hnew) Hall].
  destruct (Hnew (direction_key l)) as (j & l' & rest' & Hl' & Hkey & _ & HG).
  { apply (Hall i l rest); [simpl; lia | done | done]. }
  { cbn. apply not_elem_of_empty. }
  exists j, l', rest'. split_and!; [done | done |].
  eapply respects_green; [by eapply ambulances_loop_respects | done].
Qed.

Lemma first_ambulance_served_witness :
  ∃ j l' rest',
    arb_links !! j = Some (l' :: rest')
    ∧ direction_key l' = direction_key ("J1J2_0", "J2J3_0", ":J2_1_0")
    ∧ String.list_ascii_of_string "GGGr" !! j = Some "G"%char.
Proof.
  refine (first_ambulance_served (arb_world ["ambulance_1"; "ambulance_2"])
            (setRedYellowGreenState (arb_world ["ambulance_1"; "ambulance_2"]) "J2" "GGGr")
            "J2" routes_contested "ambulance_2" ["ambulance_1"] "J1J2" (Some "J2J3")
            1 ("J1J2_0", "J2J3_0", ":J2_1_0") [] _ _ _ _ _);
    vm_compute; reflexivity.
Defined.

Lemma grants_direction (c : string) (nj : option string) (route : list string)
    (l l' : Link) :
  direction_key l = direction_key l' → grants c nj route l = grants c nj route l'.
Proof. intros Hk. unfold grants. by rewrite Hk. Qed.

Lemma links_loop_first_of_direction (c : string) (nj : option string)
    (route : list string) :
  ∀ suf pre s s',
    links_loop c nj route (length pre) suf s = Some s' →
    (∀ i l rest, pre !! i = Some (l :: rest) → grants c nj route l = true →
                 direction_key l ∈ processed_directions s) →
    ∀ i j li ri lj rj,
      i < j → (pre ++ suf) !! i = Some (li :: ri) → (pre ++ suf) !! j = Some (lj :: rj) →
      direction_key li = direction_key lj →
      current_state s' !! j = current_state s !! j.
Proof.
  induction suf as [|links suf IH]; intros pre s s' Hrun Hpre i j li ri lj rj Hij Hi Hj Hk.
  { simpl in Hrun. by injection Hrun as <-. }
  cbn [links_loop] in Hrun.
  destruct (link_step c nj route (length pre) links s) as [s1|] eqn:Estep; [|done].
  cbn [mbind option_bind] in Hrun.
  assert ((pre ++ links :: suf) !! length pre = Some links) as Hhere.
  { by rewrite lookup_app_r, Nat.sub_diag by lia. }
  specialize (IH (pre ++ [links]) s1 s').
  rewrite length_app, Nat.add_1_r, <- app_assoc in IH. cbn [app] in IH.
  assert (current_state s' !! j = current_state s1 !! j) as ->.
  { apply (IH Hrun) with i li ri lj rj; try done.
    intros i' l rest Hl Hg.
    destruct (link_step_inv _ _ _ _ _ _ _ Estep)
      as [[-> Hskip] | (l0 & rest0 & -> & _ & _ & _ & ->)].
    - destruct (decide (i' < length pre)) as [Hlt|Hge].
      + rewrite lookup_app_l in Hl by done. by eapply Hpre.
      + assert (i' = length pre) as ->.
        { apply lookup_lt_Some in Hl. rewrite length_app in Hl. simpl in Hl. lia. }
        rewrite lookup_app_r, Nat.sub_diag in Hl by lia. injection Hl as ->.
        by eapply Hskip.
    - cbn. apply elem_of_union.
      destruct (decide (i' < length pre)) as [Hlt|Hge].
      + rewrite lookup_app_l in Hl by done. left. by eapply Hpre.
      + assert (i' = length pre) as ->.
        { apply lookup_lt_Some in Hl. rewrite length_app in Hl. simpl in Hl. lia. }
        rewrite lookup_app_r, Nat.sub_diag in Hl by lia. injection Hl as -> ->.
        right. by apply elem_of_singleton. }
  destruct (link_step_inv _ _ _ _ _ _ _ Estep)
    as [[-> _] | (l0 & rest0 & -> & Hg & Hfree & _ & ->)]; [done|].
  cbn. destruct (decide (j = length pre)) as [->|Hne];
    [|by apply list_lookup_insert_ne].
  exfalso. rewrite Hhere in Hj. injection Hj as -> ->.
  rewrite lookup_app_l in Hi by done. apply Hfree. rewrite <- Hk.
  apply (Hpre i li ri Hi). by rewrite (grants_direction _ _ _ _ _ Hk).
Qed.

Lemma ambulances_loop_first_of_direction (w : Traci) (green_junction : string)
    (routes : gmap string (list string)) (cls : list (list Link)) :
  ∀ ambulances s s',
    ambulances_loop w green_junction routes cls ambulances s = Some s' →
    ∀ i j li ri lj rj,
      i < j → cls !! i = Some (li :: ri) → cls !! j = Some (lj :: rj) →
      direction_key li = direction_key lj →
      current_state s' !! j = current_state s !! j.
Proof.
  induction ambulances as [|a ambulances IH]; intros s s' Hrun i j li ri lj rj Hij Hi Hj Hk.
  { by injection Hrun as <-. }
  cbn [ambulances_loop] in Hrun.
  destruct (ambulance_step w green_junction routes cls a s) as [s1|] eqn:E; [|done].
  cbn [mbind option_bind] in Hrun.
  rewrite (IH _ _ Hrun i j li ri lj rj) by done.
  destruct (ambulance_step_inv _ _ _ _ _ _ _ E)
    as (c & n & _ & [[_ ->] | (_ & _ & Hloop)]); [done|].
  apply (links_loop_first_of_direction _ _ _ cls [] s s1 Hloop) with i li ri lj rj;
    done.
Qed.

(** X17. Of several links of the junction that have the same direction (the
    same incoming and outgoing edge once the lane index is removed, as the
    lanes of a multi-lane edge have), only the first in the link table can
    become GREEN: every later one is RED in the command. *)
Theorem later_links_of_direction_red (w w' : Traci) (green_junction : string)
    (routes : gmap string (list string)) (i j : nat) (li lj : Link)
    (ri rj : list Link) :
  set_signals_for_ambulance true w green_junction routes = Some w' →
  i < j →
  getControlledLinks w green_junction !! i = Some (li :: ri) →
  getControlledLinks w green_junction !! j = Some (lj :: rj) →
  direction_key li = direction_key lj →
  j < String.length (getRedYellowGreenState w green_junction) →
  String.list_ascii_of_string (getRedYellowGreenState w' green_junction) !! j
  = Some "r"%char.
Proof.
  intros Hrun Hij Hi Hj Hk Hlen.
  destruct (set_signals_inv _ _ _ _ Hrun) as (ambulances & s & _ & Hloop & Hw).
  rewrite (final_state_lookup _ _ _ _ Hw).
  rewrite (ambulances_loop_first_of_direction _ _ _ _ _ _ _ Hloop i j li ri lj rj)
    by done.
  cbn. by apply lookup_replicate_2.
Qed.

Lemma later_links_of_direction_red_witness :
  set_signals_for_ambulance true two_lane_world "J2" routes_through
  = Some (setRedYellowGreenState two_lane_world "J2" "Gr")
  ∧ String.list_ascii_of_string "Gr" !! 1 = Some "r"%char.
Proof.
  split; [vm_compute; reflexivity|].
  refine (later_links_of_direction_red two_lane_world
            (setRedYellowGreenState two_lane_world "J2" "Gr") "J2" routes_through
            0 1 ("J1J2_0", "J2J3_0", ":J2_0_0") ("J1J2_1", "J2J3_1", ":J2_0_1") [] []
            _ _ _ _ _ _); try (vm_compute; reflexivity); vm_compute; lia.
Defined.

Lemma approaching_ambulances_set_state (w : Traci) (tls state : string) :
  approaching_ambulances (setRedYellowGreenState w tls state)
  = approaching_ambulances w.
Proof. reflexivity. Qed.

Lemma ambulances_loop_set_state (w : Traci) (tls state green_junction : string)
    (routes : gmap string (list string)) (cls : list (list Link))
    (ambulances : list string) (s : Signals) :
  ambulances_loop (setRedYellowGreenState w tls state) green_junction routes cls
    ambulances s
  = ambulances_loop w green_junction routes cls ambulances s.
Proof.
  revert s. induction ambulances as [|a ambulances IH]; intros s; [done|].
  cbn [ambulances_loop].
  change (ambulance_step (setRedYellowGreenState w tls state) green_junction routes
            cls a s)
    with (ambulance_step w green_junction routes cls a s).
  destruct (ambulance_step w green_junction routes cls a s); [|done].
  cbn [mbind option_bind]. apply IH.
Qed.

(** X18. The arbiter is idempotent: a second call with the same junction and
    routes on the simulator that the first call returned sends the same
    signal state again and changes nothing. *)
Theorem set_signals_idempotent (w w' : Traci) (green_junction : string)
    (routes : gmap string (list string)) :
  set_signals_for_ambulance true w green_junction routes = Some w' →
  ∃ w'', set_signals_for_ambulance true w' green_junction routes = Some w''
         ∧ (∀ j, getRedYellowGreenState w'' j = getRedYellowGreenState w' j)
         ∧ getControlledLinks w'' = getControlledLinks w'
         ∧ getProgram w'' = getProgram w'
         ∧ getIDList w'' = getIDList w'
         ∧ getRoadID w'' = getRoadID w'
         ∧ getRoute w'' = getRoute w'
         ∧ getRouteIndex w'' = getRouteIndex w'
         ∧ getNextTLS w'' = getNextTLS w'.
Proof.
  intros Hrun.
  destruct (set_signals_inv _ _ _ _ Hrun) as (ambulances & s & Happ & Hloop & ->).
  pose proof (ambulances_loop_respects _ _ _ _ _ _ _ Hloop) as (Hlen & _).
  cbn [current_state] in Hlen. rewrite length_replicate in Hlen.
  eexists. split.
  - unfold set_signals_for_ambulance. cbn [negb].
    rewrite approaching_ambulances_set_state, Happ. cbn [mbind option_bind].
    rewrite ambulances_loop_set_state.
    assert (getRedYellowGreenState
              (setRedYellowGreenState w green_junction
                 (String.string_of_list_ascii (current_state s))) green_junction
            = String.string_of_list_ascii (current_state s)) as ->.
    { cbn. by rewrite decide_True. }
    rewrite String.list_ascii_of_string_of_list_ascii, Hlen.
    change (getControlledLinks (setRedYellowGreenState w green_junction
              (String.string_of_list_ascii (current_state s))) green_junction)
      with (getControlledLinks w green_junction).
    rewrite Hloop. cbn [mbind option_bind]. reflexivity.
  - split; [|done]. intros j. cbn. by destruct (decide (j = green_junction)).
Qed.

Lemma set_signals_idempotent_witness :
  ∃ w'', set_signals_for_ambulance true
           (setRedYellowGreenState (arb_world ["ambulance_1"]) "J2" "GGrr")
           "J2" routes_through = Some w''
         ∧ ∀ j, getRedYellowGreenState w'' j
                = getRedYellowGreenState
                    (setRedYellowGreenState (arb_world ["ambulance_1"]) "J2" "GGrr") j.
Proof.
  destruct (set_signals_idempotent (arb_world ["ambulance_1"])
              (setRedYellowGreenState (arb_world ["ambulance_1"]) "J2" "GGrr")
              "J2" routes_through ltac:(vm_compute; reflexivity))
    as (w'' & Hrun & Hstate & _).
  exists w''. split; [exact Hrun | exact Hstate].
Defined.

(** X19. The incoming lane of a link is cut at its first underscore, while
    the edge of the ambulance only loses a trailing "_0". An ambulance whose
    current edge has an underscore in its name therefore matches no link:
    the arbiter changes no signal for it and claims nothing. *)
Theorem underscore_edge_never_served (w : Traci) (green_junction : string)
    (routes : gmap string (list string)) (cls : list (list Link))
    (ambulance_id : string) (s : Signals) (c : string) (n : option string) :
  get_ambulance_route_info w ambulance_id = Some (Some c, n) →
  "_"%char ∈ String.list_ascii_of_string c →
  ambulance_step w green_junction routes cls ambulance_id s = Some s.
Proof.
  intros Hinfo Hus. unfold ambulance_step. rewrite Hinfo. cbn [mbind option_bind].
  destruct (negb _ || negb _); [done|]. change (default "" (Some c)) with c.
  generalize (route_next_junction green_junction (default [] (routes !! ambulance_id))).
  generalize (default [] (routes !! ambulance_id)). intros route nj.
  generalize 0. induction cls as [|links cls IH]; intros i; [done|].
  cbn [links_loop].
  assert (link_step c nj route i links s = Some s) as ->; [|by apply IH].
  unfold link_step. destruct links as [|l rest]; [done|].
  unfold direction_key.
  destruct (String.eqb c (split_head "_" l.1.1)) eqn:E; [|done].
  apply String.eqb_eq in E. exfalso. rewrite E in Hus.
  by apply split_head_no_sep in Hus.
Qed.

Lemma underscore_edge_never_served_witness :
  ambulance_step underscore_world "J2" routes_through
    [[("main_st_0", "J2J3_0", ":J2_0_0")]] "ambulance_1" (mkSignals ["r"%char] ∅)
  = Some (mkSignals ["r"%char] ∅)
  ∧ (λ w', getRedYellowGreenState w' "J2")
      <$> set_signals_for_ambulance true underscore_world "J2" routes_through
    = Some "r".
Proof.
  split; [|vm_compute; reflexivity].
  apply (underscore_edge_never_served underscore_world "J2" routes_through _
           "ambulance_1" _ "main_st" (Some "J2J3")).
  - vm_compute. reflexivity.
  - by_decide.
Defined.

(** ** The tracker, continued *)

Lemma and_then_Ok (r : Result) (k : Tracker → Result) (t' : Tracker) :
  and_then r k = Ok t' → ∃ u, r = Ok u ∧ k u = Ok t'.
Proof. destruct r as [u|u]; cbn [and_then]; [eauto|done]. Qed.

Lemma for_each_Ok_preserves (Q : Tracker → Prop) (body : string → Tracker → Result)
    (l : list string) :
  (∀ y t1 t2, y ∈ l → Q t1 → body y t1 = Ok t2 → Q t2) →
  ∀ t t', Q t → for_each body l t = Ok t' → Q t'.
Proof.
  induction l as [|x l IH]; intros Hbody t t' Ht Hrun.
  - by injection Hrun as <-.
  - cbn [for_each] in Hrun. apply and_then_Ok in Hrun. destruct Hrun as (u & Hx & Hrest).
    apply (IH (λ y u1 u2 Hy, Hbody y u1 u2 (list_elem_of_further _ _ _ Hy)) u t');
      [|done].
    apply (Hbody x t u); [by left | done | done].
Qed.

Lemma for_each_Ok_establishes (Q : Tracker → Prop) (body : string → Tracker → Result)
    (l : list string) (x : string) :
  x ∈ l →
  (∀ t1 t2, body x t1 = Ok t2 → Q t2) →
  (∀ y t1 t2, y ∈ l → Q t1 → body y t1 = Ok t2 → Q t2) →
  ∀ t t', for_each body l t = Ok t' → Q t'.
Proof.
  induction l as [|y l IH]; intros Hx Hest Hpres t t' Hrun.
  - by apply elem_of_nil in Hx.
  - cbn [for_each] in Hrun. apply and_then_Ok in Hrun. destruct Hrun as (u & Hy & Hrest).
    apply elem_of_cons in Hx. destruct Hx as [->|Hx].
    + apply (for_each_Ok_preserves Q body l
               (λ z u1 u2 Hz, Hpres z u1 u2 (list_elem_of_further _ _ _ Hz)) u t');
        [|done].
      by apply (Hest t u).
    + apply (IH Hx Hest (λ z u1 u2 Hz, Hpres z u1 u2 (list_elem_of_further _ _ _ Hz))
               u t' Hrest).
Qed.

Lemma tick_phases (PREEMPTION_ENABLED : bool) (w : Traci) (t t' : Tracker) :
  filter (λ aid, aid ∈ getIDList w) AMBULANCE_IDS ≠ [] →
  tick PREEMPTION_ENABLED w t = Ok t' →
  ∃ t0 u1 u2,
    active_ambulances t0 = active_ambulances t
    ∧ AMBULANCE_START_TIMES t0 = AMBULANCE_START_TIMES t
    ∧ AMBULANCE_END_TIMES t0 = AMBULANCE_END_TIMES t
    ∧ for_each (start_ambulance (getTime w))
        (elements (list_to_set (filter (λ aid, aid ∈ getIDList w) AMBULANCE_IDS)
                   ∖ active_ambulances t0)) t0 = Ok u1
    ∧ for_each (process_ambulance PREEMPTION_ENABLED)
        (elements (list_to_set (filter (λ aid, aid ∈ getIDList w) AMBULANCE_IDS)
                   : gset string)) u1 = Ok u2
    ∧ for_each (finish_ambulance (getTime w))
        (elements (active_ambulances u2
                   ∖ list_to_set (filter (λ aid, aid ∈ getIDList w) AMBULANCE_IDS)))
        u2 = Ok t'.
Proof.
  intros Hne. unfold tick. cbv zeta.
  set (t0 := with_junctions _ _). change (conn t0) with w.
  assert ((list_to_set (filter (λ aid, aid ∈ getIDList w) AMBULANCE_IDS) : gset string)
          ≠ ∅) as Hcur.
  { destruct (filter (λ aid, aid ∈ getIDList w) AMBULANCE_IDS) as [|x l]; [done|].
    intros Hempty.
    assert (x ∈ (list_to_set (x :: l) : gset string)) as Hx
      by (apply elem_of_list_to_set; by left).
    rewrite Hempty in Hx. by apply not_elem_of_empty in Hx. }
  rewrite decide_True by done.
  intros Hrun. apply and_then_Ok in Hrun. destruct Hrun as (u1 & H1 & Hrun).
  apply and_then_Ok in Hrun. destruct Hrun as (u2 & H2 & H3).
  exists (with_flag t0 true), u1, u2.
  split_and!; [done | done | done | exact H1 | exact H2 | exact H3].
Qed.

Lemma present_in_filter (w : Traci) (a : string) :
  a ∈ AMBULANCE_IDS → a ∈ getIDList w →
  a ∈ filter (λ aid, aid ∈ getIDList w) AMBULANCE_IDS.
Proof. intros. by apply list_elem_of_filter. Qed.

Lemma start_ambulance_Ok (time : Q) (y : string) (t1 t2 : Tracker) :
  start_ambulance time y t1 = Ok t2 →
  AMBULANCE_START_TIMES t2 = <[y := time]> (AMBULANCE_START_TIMES t1)
  ∧ active_ambulances t2 = active_ambulances t1 ∪ {[y]}
  ∧ AMBULANCE_END_TIMES t2 = AMBULANCE_END_TIMES t1.
Proof. unfold start_ambulance. by intros [= <-]. Qed.

Lemma finish_ambulance_Ok (time : Q) (y : string) (t1 t2 : Tracker) :
  finish_ambulance time y t1 = Ok t2 →
  AMBULANCE_START_TIMES t2 = AMBULANCE_START_TIMES t1
  ∧ active_ambulances t2 = active_ambulances t1 ∖ {[y]}
  ∧ AMBULANCE_END_TIMES t2 = <[y := time]> (AMBULANCE_END_TIMES t1).
Proof.
  unfold finish_ambulance. cbn.
  destruct (AMBULANCE_START_TIMES t1 !! y); [|done]. by intros [= <-].
Qed.

(** X21. At a step that completes, an ambulance of AMBULANCE_IDS that is in
    the simulation and not in the active set is started: its start time
    becomes the time of the step, overwriting an earlier start time, and it
    joins the active set, while an end time recorded for it earlier stays as
    it is. *)
Theorem tick_starts_ambulance (PREEMPTION_ENABLED : bool) (w : Traci)
    (t t' : Tracker) (a : string) :
  a ∈ AMBULANCE_IDS → a ∈ getIDList w → a ∉ active_ambulances t →
  tick PREEMPTION_ENABLED w t = Ok t' →
  AMBULANCE_START_TIMES t' !! a = Some (getTime w)
  ∧ a ∈ active_ambulances t'
  ∧ AMBULANCE_END_TIMES t' !! a = AMBULANCE_END_TIMES t !! a.
Proof.
  intros Hid Hpresent Hinactive Hrun.
  pose proof (present_in_filter w a Hid Hpresent) as Hcur.
  destruct (tick_phases PREEMPTION_ENABLED w t t') as
    (t0 & u1 & u2 & Hact0 & Hst0 & Hen0 & H1 & H2 & H3); [|done|].
  { intros Hnil. rewrite Hnil in Hcur. by apply elem_of_nil in Hcur. }
  set (Q := λ u : Tracker,
              AMBULANCE_START_TIMES u !! a = Some (getTime w) ∧ a ∈ active_ambulances u).
  set (E := λ u : Tracker, AMBULANCE_END_TIMES u !! a = AMBULANCE_END_TIMES t !! a).
  assert (Q u1) as HQ1.
  { refine (for_each_Ok_establishes Q _ _ a _ _ _ t0 u1 H1).
    - apply elem_of_elements, elem_of_difference. split.
      + by apply elem_of_list_to_set.
      + by rewrite Hact0.
    - intros t1 t2 Hs. unfold Q.
      destruct (start_ambulance_Ok _ _ _ _ Hs) as (-> & -> & _).
      split; [apply lookup_insert_eq|]. apply elem_of_union. right.
      by apply elem_of_singleton.
    - intros y t1 t2 _ [Hs Ha] Hb. unfold Q.
      destruct (start_ambulance_Ok _ _ _ _ Hb) as (-> & -> & _). split.
      + destruct (decide (y = a)) as [->|Hne];
          [apply lookup_insert_eq | by rewrite lookup_insert_ne].
      + apply elem_of_union. by left. }
  assert (E u1) as HE1.
  { refine (for_each_Ok_preserves E _ _ _ t0 u1 _ H1).
    - intros y t1 t2 _ He Hb. unfold E in *.
      by destruct (start_ambulance_Ok _ _ _ _ Hb) as (_ & _ & ->).
    - unfold E. by rewrite Hen0. }
  assert (Q u2 ∧ E u2) as [HQ2 HE2].
  { refine (for_each_Ok_preserves (λ u, Q u ∧ E u) _ _ _ u1 u2 _ H2); [|done].
    intros y t1 t2 _ [[Hs Ha] He] Hb. unfold Q, E in *.
    destruct (process_ambulance_active _ _ _ _ (or_introl Hb)) as (-> & -> & ->).
    done. }
  assert (Q t' ∧ E t') as [[Hs Ha] He].
  { refine (for_each_Ok_preserves (λ u, Q u ∧ E u) _ _ _ u2 t' _ H3); [|done].
    intros y t1 t2 Hy [[Hs Ha] He] Hb. unfold Q, E in *.
    destruct (finish_ambulance_Ok _ _ _ _ Hb) as (-> & -> & ->).
    apply elem_of_elements, elem_of_difference in Hy. destruct Hy as [_ Hy].
    assert (y ≠ a) as Hne.
    { intros ->. apply Hy. by apply elem_of_list_to_set. }
    split_and!; [done | | by rewrite lookup_insert_ne].
    apply elem_of_difference. split; [done|]. intros Heq.
    apply elem_of_singleton in Heq. congruence. }
  done.
Qed.

Lemma tick_starts_ambulance_witness :
  ∃ t', tick true (tracker_world 10 ["ambulance_1"])
          (initial_tracker (tracker_world 0 []) opt_rng) = Ok t'
        ∧ AMBULANCE_START_TIMES t' !! "ambulance_1" = Some 10%Q
        ∧ "ambulance_1" ∈ active_ambulances t'.
Proof.
  eexists. split; [vm_compute; reflexivity|].
  destruct (tick_starts_ambulance true (tracker_world 10 ["ambulance_1"])
              (initial_tracker (tracker_world 0 []) opt_rng) _ "ambulance_1"
              ltac:(by_decide) ltac:(by_decide) ltac:(by_decide)
              ltac:(vm_compute; reflexivity)) as (Hs & Ha & _).
  split; [exact Hs | exact Ha].
Defined.

(** X22. At a step that completes and at which some ambulance of
    AMBULANCE_IDS is in the simulation, an active ambulance that is no longer
    in the simulation is finished: its end time becomes the time of the step,
    it leaves the active set, and its start time stays as it is. *)
Theorem tick_finishes_ambulance (PREEMPTION_ENABLED : bool) (w : Traci)
    (t t' : Tracker) (a other : string) :
  a ∈ active_ambulances t → a ∉ getIDList w →
  other ∈ AMBULANCE_IDS → other ∈ getIDList w →
  tick PREEMPTION_ENABLED w t = Ok t' →
  AMBULANCE_END_TIMES t' !! a = Some (getTime w)
  ∧ (a ∉ active_ambulances t')
  ∧ AMBULANCE_START_TIMES t' !! a = AMBULANCE_START_TIMES t !! a.
Proof.
  intros Hactive Habsent Hid Hpresent Hrun.
  pose proof (present_in_filter w other Hid Hpresent) as Hcur.
  destruct (tick_phases PREEMPTION_ENABLED w t t') as
    (t0 & u1 & u2 & Hact0 & Hst0 & Hen0 & H1 & H2 & H3); [|done|].
  { intros Hnil. rewrite Hnil in Hcur. by apply elem_of_nil in Hcur. }
  assert (a ∉ (list_to_set (filter (λ aid, aid ∈ getIDList w) AMBULANCE_IDS)
               : gset string)) as Hnotcur.
  { rewrite elem_of_list_to_set, list_elem_of_filter. by intros [? _]. }
  set (S := λ u : Tracker,
              AMBULANCE_START_TIMES u !! a = AMBULANCE_START_TIMES t !! a).
  set (A := λ u : Tracker, a ∈ active_ambulances u).
  assert (S u1 ∧ A u1) as H1'.
  { refine (for_each_Ok_preserves (λ u, S u ∧ A u) _ _ _ t0 u1 _ H1).
    - intros y t1 t2 Hy [Hs Ha] Hb. unfold S, A in *.
      destruct (start_ambulance_Ok _ _ _ _ Hb) as (-> & -> & _).
      apply elem_of_elements, elem_of_difference in Hy. destruct Hy as [Hy _].
      assert (y ≠ a) as Hne by (intros ->; done).
      split; [by rewrite lookup_insert_ne|]. apply elem_of_union. by left.
    - unfold S, A. by rewrite Hst0, Hact0. }
  assert (S u2 ∧ A u2) as [HS2 HA2].
  { refine (for_each_Ok_preserves (λ u, S u ∧ A u) _ _ _ u1 u2 _ H2); [|done].
    intros y t1 t2 _ [Hs Ha] Hb. unfold S, A in *.
    by destruct (process_ambulance_active _ _ _ _ (or_introl Hb)) as (-> & -> & _). }
  assert (S t') as HS.
  { refine (for_each_Ok_preserves S _ _ _ u2 t' _ H3); [|done].
    intros y t1 t2 _ Hs Hb. unfold S in *.
    by destruct (finish_ambulance_Ok _ _ _ _ Hb) as (-> & _). }
  set (F := λ u : Tracker,
              AMBULANCE_END_TIMES u !! a = Some (getTime w) ∧ a ∉ active_ambulances u).
  assert (F t') as [He Ha].
  { refine (for_each_Ok_establishes F _ _ a _ _ _ u2 t' H3).
    - apply elem_of_elements, elem_of_difference. by split.
    - intros t1 t2 Hb. unfold F.
      destruct (finish_ambulance_Ok _ _ _ _ Hb) as (_ & -> & ->).
      split; [apply lookup_insert_eq|]. intros Hin.
      apply elem_of_difference in Hin. destruct Hin as [_ Hin]. apply Hin.
      by apply elem_of_singleton.
    - intros y t1 t2 _ [He Ha] Hb. unfold F.
      destruct (finish_ambulance_Ok _ _ _ _ Hb) as (_ & -> & ->). split.
      + destruct (decide (y = a)) as [->|Hne];
          [apply lookup_insert_eq | by rewrite lookup_insert_ne].
      + intros Hin. apply elem_of_difference in Hin. by destruct Hin. }
  done.
Qed.

Lemma tick_finishes_ambulance_witness :
  ∃ t', tick true (tracker_world 26 ["ambulance_2"])
          (simulation_loop true (steps 10 16 ["ambulance_1"; "ambulance_2"])
             (initial_tracker (tracker_world 0 []) opt_rng)) = Ok t'
        ∧ AMBULANCE_END_TIMES t' !! "ambulance_1" = Some 26%Q
        ∧ ("ambulance_1" ∉ active_ambulances t').
Proof.
  eexists. split; [vm_compute; reflexivity|].
  destruct (tick_finishes_ambulance true (tracker_world 26 ["ambulance_2"])
              (simulation_loop true (steps 10 16 ["ambulance_1"; "ambulance_2"])
                 (initial_tracker (tracker_world 0 []) opt_rng)) _
              "ambulance_1" "ambulance_2"
              ltac:(by_decide) ltac:(by_decide) ltac:(by_decide) ltac:(by_decide)
              ltac:(vm_compute; reflexivity)) as (He & Ha & _).
  split; [exact He | exact Ha].
Defined.

Lemma tick_tables_consistent (PREEMPTION_ENABLED : bool) (w : Traci) (t t' : Tracker) :
  tables_consistent t →
  tick PREEMPTION_ENABLED w t = Ok t' ∨ tick PREEMPTION_ENABLED w t = Raised t' →
  tables_consistent t'.
Proof.
  intros Hinv. unfold tick. cbv zeta.
  case_decide as Hne.
  2:{ destruct (ambulance_active _); intros [[= <-]|[=]]; exact Hinv. }
  intros Hrun. eapply (and_then_preserves tables_consistent); [| |exact Hrun].
  - intros u Hu. eapply (for_each_preserves tables_consistent); [| |exact Hu];
      [|exact Hinv].
    intros x v1 v2 Hx (Ha & He & Hs) [[= <-]|[=]].
    apply elem_of_elements, elem_of_difference in Hx. destruct Hx as [Hx _].
    apply elem_of_list_to_set, list_elem_of_filter in Hx. destruct Hx as [_ Hx].
    split_and!; cbn.
    + intros y Hy. apply elem_of_union in Hy. destruct Hy as [Hy|Hy].
      * destruct (decide (x = y)) as [->|Hn];
          [rewrite lookup_insert_eq; eauto | rewrite lookup_insert_ne by done; auto].
      * apply elem_of_singleton in Hy. subst y. rewrite lookup_insert_eq. eauto.
    + intros y Hy. destruct (decide (x = y)) as [->|Hn];
        [rewrite lookup_insert_eq; eauto | rewrite lookup_insert_ne by done; auto].
    + intros y Hy. destruct (decide (x = y)) as [->|Hn]; [done|].
      rewrite lookup_insert_ne in Hy by done. auto.
  - intros u u' Hu Hrun'.
    eapply (and_then_preserves tables_consistent); [| |exact Hrun'].
    + intros v Hv. eapply (for_each_preserves tables_consistent); [| |exact Hv];
        [|exact Hu].
      intros x v1 v2 _ (Ha & He & Hs) Hstep.
      destruct (process_ambulance_active _ _ _ _ Hstep) as (Hact & Hst & Hen).
      unfold tables_consistent. rewrite Hact, Hst, Hen. done.
    + intros v v' Hv Hfin.
      set (P := λ u : Tracker,
                  tables_consistent u
                  ∧ AMBULANCE_START_TIMES u = AMBULANCE_START_TIMES v).
      assert (P v') as [Hdone _]; [|exact Hdone].
      eapply (for_each_preserves P); [| |exact Hfin]; [|by split].
      intros x v1 v2 Hx [(Ha & He & Hs) Hst] Hstep. unfold P.
      apply elem_of_elements, elem_of_difference in Hx. destruct Hx as [Hx _].
      destruct Hv as (Hav & _ & _). destruct (Hav x Hx) as [start Hstart].
      unfold finish_ambulance in Hstep. cbn in Hstep.
      rewrite Hst, Hstart in Hstep. destruct Hstep as [[= <-]|[=]].
      split; [|done]. split_and!; cbn.
      * intros y Hy. apply elem_of_difference in Hy. destruct Hy as [Hy _]. auto.
      * intros y Hy. destruct (decide (x = y)) as [->|Hn].
        -- rewrite Hst, Hstart. eauto.
        -- rewrite lookup_insert_ne in Hy by done. auto.
      * done.
Qed.

(** X20. Throughout a run the time tables fit together, whatever the
    simulator reports and wherever the run stops: every ambulance in the
    active set and every ambulance with an end time has a start time, and
    only ambulances of AMBULANCE_IDS have one. In particular the lookup of
    the start time of a finished ambulance never raises a KeyError, and
    every end time that [run_simulation] returns comes with a start time. *)
Theorem run_tables_consistent (preemption_enabled : bool) (w0 : Traci)
    (ticks : list Traci) (g : Rng) :
  tables_consistent
    (simulation_loop preemption_enabled ticks (initial_tracker w0 g))
  ∧ ∀ x, is_Some ((run_simulation preemption_enabled w0 ticks g).2 !! x) →
         is_Some ((run_simulation preemption_enabled w0 ticks g).1 !! x)
         ∧ x ∈ AMBULANCE_IDS.
Proof.
  assert (∀ t, tables_consistent t →
               tables_consistent (simulation_loop preemption_enabled ticks t)) as Hloop.
  { induction ticks as [|w ticks IH]; intros t Ht; [done|].
    cbn [simulation_loop].
    destruct (tick preemption_enabled w t) as [t1|t1] eqn:E.
    - apply IH. eapply tick_tables_consistent; [exact Ht | by left].
    - eapply tick_tables_consistent; [exact Ht | by right]. }
  assert (tables_consistent (initial_tracker w0 g)) as Hinit.
  { split_and!; cbn.
    - intros x Hx. by apply not_elem_of_empty in Hx.
    - intros x [v Hv]. by rewrite lookup_empty in Hv.
    - intros x [v Hv]. by rewrite lookup_empty in Hv. }
  pose proof (Hloop _ Hinit) as (Ha & He & Hs).
  split; [by split_and!|]. intros x Hx. unfold run_simulation in *. cbn in *.
  split; [by apply He | by apply Hs, He].
Qed.

Lemma run_tables_consistent_witness :
  is_Some ((run_simulation true (tracker_world 0 []) ticks_accompanied opt_rng).2
           !! "ambulance_1")
  ∧ is_Some ((run_simulation true (tracker_world 0 []) ticks_accompanied opt_rng).1
             !! "ambulance_1")
  ∧ "ambulance_1" ∈ AMBULANCE_IDS.
Proof.
  assert (is_Some ((run_simulation true (tracker_world 0 []) ticks_accompanied
                      opt_rng).2 !! "ambulance_1")) as Hend
    by (eexists; vm_compute; reflexivity).
  split; [exact Hend|].
  apply (run_tables_consistent true (tracker_world 0 []) ticks_accompanied opt_rng).
  exact Hend.
Defined.

Lemma set_signals_getNextTLS (e : bool) (w w' : Traci) (green_junction : string)
    (routes : gmap string (list string)) :
  set_signals_for_ambulance e w green_junction routes = Some w' →
  getNextTLS w' = getNextTLS w.
Proof.
  destruct e.
  - intros Hrun. by destruct (set_signals_inv _ _ _ _ Hrun) as (? & ? & _ & _ & ->).
  - by intros [= <-].
Qed.

(** X23. An ambulance is routed and arbitrated once per traffic light it
    approaches: when [process_ambulance] has completed for an ambulance,
    processing it again, with the same traffic light ahead, changes
    nothing. *)
Theorem process_ambulance_once (PREEMPTION_ENABLED : bool) (ambulance_id : string)
    (t t1 : Tracker) :
  process_ambulance PREEMPTION_ENABLED ambulance_id t = Ok t1 →
  process_ambulance PREEMPTION_ENABLED ambulance_id t1 = Ok t1.
Proof.
  intros Hrun. pose proof Hrun as Hfirst. unfold process_ambulance in Hrun.
  destruct (getNextTLS (conn t) ambulance_id) as [tls_list|] eqn:Etls.
  2:{ injection Hrun as <-. exact Hfirst. }
  destruct tls_list as [|[[[current_junction ?] ?] ?] ?].
  { injection Hrun as <-. exact Hfirst. }
  case_decide as Hchanged.
  2:{ injection Hrun as <-. exact Hfirst. }
  set (routed := if decide (current_junction ∈ JUNCTIONS) then _ else _) in Hrun.
  assert (∀ tr, routed = Some tr → conn tr = conn t) as Hconn.
  { subst routed. intros tr. case_decide.
    - destruct (find_best_route _ _ _ _); [|done]. by intros [= <-].
    - by intros [= <-]. }
  destruct routed as [tr|]; [|done]. specialize (Hconn tr eq_refl).
  destruct (set_signals_for_ambulance _ _ _ _) as [w'|] eqn:Esig; [|done].
  injection Hrun as <-.
  unfold process_ambulance. cbn [conn with_last with_conn last_junctions].
  rewrite (set_signals_getNextTLS _ _ _ _ _ Esig), Hconn, Etls.
  rewrite lookup_insert_eq. cbn [mjoin option_join].
  by rewrite decide_False by (intros H; by apply H).
Qed.

Lemma process_ambulance_once_witness :
  ∃ t1, process_ambulance true "ambulance_1"
          (initial_tracker (arb_world ["ambulance_1"]) opt_rng) = Ok t1
        ∧ last_junctions t1 !! "ambulance_1" = Some (Some "J2")
        ∧ process_ambulance true "ambulance_1" t1 = Ok t1.
Proof.
  eexists. split; [vm_compute; reflexivity|]. split; [vm_compute; reflexivity|].
  apply (process_ambulance_once true "ambulance_1"
           (initial_tracker (arb_world ["ambulance_1"]) opt_rng)).
  vm_compute. reflexivity.
Defined.

Lemma setProgram_all (w : Traci) (js : list string) :
  (∀ j, j ∈ js → getProgram (foldl (λ c junction, setProgram c junction "0") w js) j
                 = "0")
  ∧ (∀ j, j ∉ js → getProgram (foldl (λ c junction, setProgram c junction "0") w js) j
                   = getProgram w j)
  ∧ getRedYellowGreenState (foldl (λ c junction, setProgram c junction "0") w js)
    = getRedYellowGreenState w.
Proof.
  revert w. induction js as [|x js IH]; intros w.
  - split_and!; [|done|done]. intros j Hj. by apply elem_of_nil in Hj.
  - cbn [foldl]. destruct (IH (setProgram w x "0")) as (Hin & Hout & Hstate).
    split_and!.
    + intros j Hj. destruct (decide (j ∈ js)) as [|Hn]; [by apply Hin|].
      rewrite Hout by done. apply elem_of_cons in Hj. destruct Hj as [->|]; [|done].
      cbn. by rewrite decide_True.
    + intros j Hj. apply not_elem_of_cons in Hj. destruct Hj as [Hne Hj].
      rewrite Hout by done. cbn. by rewrite decide_False.
    + by rewrite Hstate.
Qed.

(** X24. At a step at which no ambulance of AMBULANCE_IDS is in the
    simulation the tracker records no time and starts or finishes no
    ambulance. If ambulances had been present before, it switches each of
    the six junctions to program "0", forgets all routes and last junctions
    and clears the flag, so that at the next such step it sends nothing;
    it never sends a signal state at such a step. *)
Theorem tick_idle (PREEMPTION_ENABLED : bool) (w : Traci) (t : Tracker) :
  (∀ aid, aid ∈ AMBULANCE_IDS → aid ∉ getIDList w) →
  ∃ t', tick PREEMPTION_ENABLED w t = Ok t'
        ∧ AMBULANCE_START_TIMES t' = AMBULANCE_START_TIMES t
        ∧ AMBULANCE_END_TIMES t' = AMBULANCE_END_TIMES t
        ∧ active_ambulances t' = active_ambulances t
        ∧ ambulance_active t' = false
        ∧ getRedYellowGreenState (conn t') = getRedYellowGreenState w
        ∧ (ambulance_active t = true →
           (∀ j, j ∈ JUNCTIONS → getProgram (conn t') j = "0")
           ∧ (∀ j, j ∉ JUNCTIONS → getProgram (conn t') j = getProgram w j)
           ∧ current_routes t' = ∅ ∧ last_junctions t' = ∅)
        ∧ (ambulance_active t = false →
           conn t' = w ∧ current_routes t' = current_routes t
           ∧ last_junctions t' = last_junctions t).
Proof.
  intros Habsent. unfold tick. cbv zeta.
  change (conn (with_junctions _ _)) with w.
  rewrite (filter_none _ AMBULANCE_IDS)
    by (apply Forall_forall; intros aid Haid; by apply Habsent).
  cbn [list_to_set]. rewrite decide_False by (intros H; by apply H).
  destruct (setProgram_all w JUNCTIONS) as (Hin & Hout & Hstate).
  destruct t as [st en la ro ju ac [] sp rg co]; cbn; eexists; (split; [done|]);
    split_and!; try done.
Qed.

Lemma tick_idle_witness :
  ∃ t', tick true (tracker_world 26 [])
          (simulation_loop true (steps 10 16 ["ambulance_1"])
             (initial_tracker (tracker_world 0 []) opt_rng)) = Ok t'
        ∧ AMBULANCE_END_TIMES t' = ∅
        ∧ (∀ j, j ∈ JUNCTIONS → getProgram (conn t') j = "0")
        ∧ current_routes t' = ∅.
Proof.
  destruct (tick_idle true (tracker_world 26 [])
              (simulation_loop true (steps 10 16 ["ambulance_1"])
                 (initial_tracker (tracker_world 0 []) opt_rng)))
    as (t' & Hrun & _ & Hend & _ & _ & _ & Hreset & _).
  { intros aid _. by_decide. }
  exists t'. split; [exact Hrun|].
  destruct Hreset as (Hprog & _ & Hroutes & _); [vm_compute; reflexivity|].
  split_and!; [|exact Hprog | exact Hroutes].
  rewrite Hend. vm_compute. reflexivity.
Defined.

(** ** Selection weights and targets *)

Lemma elem_le_sum (l : list Q) (x : Q) :
  Forall (λ s, 0 <= s)%Q l → x ∈ l → (x <= sum l)%Q.
Proof.
  induction 1 as [|y l Hy Hl IH]; intros Hx; [by apply elem_of_nil in Hx|].
  rewrite sum_cons. pose proof (sum_nonneg l Hl) as Hs.
  apply elem_of_cons in Hx. destruct Hx as [->|Hx]; [lra|].
  specialize (IH Hx). lra.
Qed.

(** X25. The selection weights computed from the scores of a step are
    probabilities: each of them lies between 0 and 1. *)
Theorem route_probabilities_range (current : string) (next_possible : list string)
    (J J' : gmap string Junction) (scores : list Q) (p : Q) :
  route_scores current next_possible J = Some (scores, J') →
  p ∈ route_probabilities scores →
  (0 <= p)%Q ∧ (p <= 1)%Q.
Proof.
  intros Hrun Hp.
  destruct (route_scores_effect _ _ _ _ _ Hrun) as (Hsc & _ & _).
  assert (Forall (λ s, 0 <= s)%Q scores) as Hnn.
  { rewrite Hsc. apply Forall_fmap, Forall_forall. intros c _. apply score_of_nonneg. }
  unfold route_probabilities in Hp.
  destruct (Qeq_bool (sum scores) 0) eqn:E.
  - apply elem_of_replicate in Hp. destruct Hp as [-> Hn].
    assert (1 <= inject_Z (Z.of_nat (length scores)))%Q as Hlen.
    { change 1%Q with (inject_Z 1). rewrite <- Zle_Qle. lia. }
    split.
    + apply Qle_shift_div_l; lra.
    + apply Qle_shift_div_r; lra.
  - apply Qeq_bool_neq in E. pose proof (sum_nonneg _ Hnn) as Hs.
    assert (0 < sum scores)%Q as Hpos.
    { destruct (Qlt_le_dec 0 (sum scores)) as [|Hle]; [done|].
      exfalso. apply E. lra. }
    apply list_elem_of_fmap in Hp. destruct Hp as (s & -> & Hs').
    pose proof (elem_le_sum _ _ Hnn Hs') as Hle.
    assert (0 <= s)%Q as Hs0 by (by eapply Forall_forall in Hnn).
    split.
    + apply Qle_shift_div_l; lra.
    + apply Qle_shift_div_r; lra.
Qed.

Lemma route_probabilities_range_witness :
  ∃ scores J' p,
    route_scores "J1" ["J2"; "J3"] scored_junctions = Some (scores, J')
    ∧ route_probabilities scores !! 0 = Some p
    ∧ (0 <= p)%Q ∧ (p <= 1)%Q.
Proof.
  eexists _, _, _. split; [vm_compute; reflexivity|].
  split; [vm_compute; reflexivity|].
  refine (route_probabilities_range "J1" ["J2"; "J3"] scored_junctions _ _ _ _ _).
  - vm_compute. reflexivity.
  - apply list_elem_of_lookup. exists 0. vm_compute. reflexivity.
Defined.

Lemma index_of_app_fresh (x : string) (pre post : list string) :
  x ∉ pre → index_of x (pre ++ x :: post) = Some (length pre).
Proof.
  induction pre as [|y pre IH]; intros Hx; cbn [app index_of length].
  - by rewrite decide_True.
  - apply not_elem_of_cons in Hx. destruct Hx as [Hne Hx].
    rewrite decide_False by congruence. by rewrite IH.
Qed.

Lemma route_next_junction_last (green_junction : string) (pre : list string) :
  green_junction ∉ pre →
  route_next_junction green_junction (pre ++ [green_junction]) = None.
Proof.
  intros Hpre. unfold route_next_junction.
  rewrite decide_True by (apply elem_of_app; right; by left).
  rewrite index_of_app_fresh by done.
  change (default (-1)%Z (Z.of_nat <$> Some (length pre)))
    with (Z.of_nat (length pre)).
  rewrite length_app. cbn [length].
  rewrite (proj2 (Z.ltb_ge _ _)) by lia. by rewrite andb_false_r.
Qed.

(** X26. The target of an ambulance at a junction is the junction that
    follows the first occurrence of the arbitrated junction in its route:
    there is none when the junction is not on the route or is the last
    entry of the route, and otherwise it is the next entry. *)
Theorem route_next_junction_spec (green_junction : string) (pre post : list string)
    (next : string) :
  green_junction ∉ pre →
  route_next_junction green_junction pre = None
  ∧ route_next_junction green_junction (pre ++ [green_junction]) = None
  ∧ route_next_junction green_junction (pre ++ green_junction :: next :: post)
    = Some next.
Proof.
  intros Hpre. split_and!.
  - by apply route_next_junction_absent.
  - by apply route_next_junction_last.
  - unfold route_next_junction.
    rewrite decide_True by (apply elem_of_app; right; by left).
    rewrite index_of_app_fresh by done.
    change (default (-1)%Z (Z.of_nat <$> Some (length pre)))
      with (Z.of_nat (length pre)).
    rewrite length_app. cbn [length].
    rewrite (proj2 (Z.leb_le _ _)) by lia.
    rewrite (proj2 (Z.ltb_lt _ _)) by lia. cbn [andb].
    replace (Z.to_nat (Z.of_nat (length pre) + 1)) with (length pre + 1) by lia.
    rewrite lookup_app_r by lia.
    replace (length pre + 1 - length pre) with 1 by lia. done.
Qed.

Lemma route_next_junction_spec_witness :
  route_next_junction "J2" ["J1"] = None
  ∧ route_next_junction "J2" (["J1"] ++ ["J2"]) = None
  ∧ route_next_junction "J2" (["J1"] ++ "J2" :: "J3" :: ["J4"]) = Some "J3".
Proof.
  apply (route_next_junction_spec "J2" ["J1"] ["J4"] "J3"). by_decide.
Defined.

(** X27. An ambulance that has reached the end of its route, the arbitrated
    junction being the last entry, is given every free direction that leaves
    its current edge: each of them is claimed afterwards, and each
    direction that it claims has a GREEN link. *)
Theorem route_exhausted_all_green (w : Traci) (green_junction : string)
    (routes : gmap string (list string)) (cls : list (list Link))
    (ambulance_id : string) (s s' : Signals) (current_edge : string)
    (next_edge : option string) (pre : list string) :
  get_ambulance_route_info w ambulance_id = Some (Some current_edge, next_edge) →
  current_edge ≠ "" → truthy next_edge = true →
  routes !! ambulance_id = Some (pre ++ [green_junction]) →
  green_junction ∉ pre →
  ambulance_step w green_junction routes cls ambulance_id s = Some s' →
  (∀ i l rest, cls !! i = Some (l :: rest) →
               current_edge = (direction_key l).1 →
               direction_key l ∈ processed_directions s')
  ∧ (∀ k, k ∈ processed_directions s' → k ∉ processed_directions s →
          ∃ i l rest, cls !! i = Some (l :: rest) ∧ direction_key l = k
                      ∧ current_edge = k.1
                      ∧ current_state s' !! i = Some "G"%char).
Proof.
  intros Hinfo Hcur Hnext Hroute Hpre Hrun.
  rewrite (ambulance_step_links_loop _ _ _ _ _ _ _ _ Hinfo Hcur Hnext) in Hrun.
  rewrite Hroute in Hrun.
  change (default [] (Some (pre ++ [green_junction])))
    with (pre ++ [green_junction]) in Hrun.
  rewrite (route_next_junction_last _ _ Hpre) in Hrun.
  destruct (links_loop_spec _ _ _ cls [] s s' Hrun) as [(_ & _ & _ & Hnew) Hall].
  cbn [app length] in *. split.
  - intros i l rest Hl Hfrom. apply (Hall i l rest); [lia | done |].
    by apply grants_no_target.
  - intros k Hk Hnk. destruct (Hnew k Hk Hnk) as (i & l & rest & Hl & <- & Hg & HG).
    exists i, l, rest. split_and!; try done. by apply grants_no_target in Hg.
Qed.

Lemma route_exhausted_all_green_witness :
  ambulance_step (arb_world ["ambulance_1"]) "J2" routes_ending arb_links
    "ambulance_1" (mkSignals (replicate 4 "r"%char) ∅)
  = Some (mkSignals ["G"; "G"; "G"; "r"]%char
            {[("J1J2", "J1X"); ("J1J2", "J2J3"); ("J1J2", "Q9")]})
  ∧ ∀ i l rest, arb_links !! i = Some (l :: rest) →
                "J1J2" = (direction_key l).1 →
                direction_key l
                ∈ ({[("J1J2", "J1X"); ("J1J2", "J2J3"); ("J1J2", "Q9")]}
                   : gset (string * string)).
Proof.
  split; [vm_compute; reflexivity|].
  refine (proj1 (route_exhausted_all_green (arb_world ["ambulance_1"]) "J2"
            routes_ending arb_links "ambulance_1"
            (mkSignals (replicate 4 "r"%char) ∅)
            (mkSignals ["G"; "G"; "G"; "r"]%char
               {[("J1J2", "J1X"); ("J1J2", "J2J3"); ("J1J2", "Q9")]})
            "J1J2" (Some "J2J3") ["J1"] _ _ _ _ _ _));
    first [discriminate | by_decide | vm_compute; reflexivity].
Defined.
